(** * Route optimiser: shallow embedding of [src/main.py]

    The development follows the source file top to bottom:
    - [CityGraph] (the graph store, three Python dictionaries),
    - [RouteOptimizer.find_optimal_path] (Dijkstra on a binary heap of
      [(distance, node)] tuples),
    - [RouteOptimizer.get_all_optimal_routes] and
      [RouteOptimizer.find_compromise_route],
    - the module-level functions [parse_input], [format_path],
      [write_output] and [main].

    Python integers are [Z]; Python strings are lists of code points
    ([list N]); dictionaries are [gmap]s; an uncaught exception is the
    [Raise] constructor of [result]; the two [while] loops take fuel.
    [int] on a string is a parameter of the functions that call it.

    The file system is a parameter of [parse_input] and [main]: reading
    the input either finds no file, or raises another exception ([open] or
    the decoding in [readlines]), or gives lines; writing the output
    either goes through, or [open] raises, or a write raises after part of
    the text reached the file. [print] is taken to succeed, and nothing
    interrupts the run from outside.

    The embedding comes first, then the vocabulary of the statements
    (walks, totals, conditions on graphs, example graphs), then the loop
    invariants and their proofs, and last the claims. *)

From Stdlib Require Import ZArith Lia String Ascii DecimalString.
From stdpp Require Import base gmap list fin_maps fin_sets.

Local Open Scope Z_scope.

(** ** Python strings *)

Abbreviation str := (list N).

(** An ASCII literal as a Python string. *)
Definition lit (s : string) : str :=
  (fun a => N_of_ascii a) <$> list_ascii_of_string s.

(** [str.isspace] on one code point (CPython's [_PyUnicode_IsWhitespace]). *)
Definition isspace (c : N) : bool :=
  ((9 <=? c) && (c <=? 13) || (28 <=? c) && (c <=? 32) || (c =? 133)
   || (c =? 160) || (c =? 5760) || (8192 <=? c) && (c <=? 8202)
   || (c =? 8232) || (c =? 8233) || (c =? 8239) || (c =? 8287)
   || (c =? 12288))%N.

Fixpoint lstrip_by (p : N -> bool) (s : str) : str :=
  match s with
  | [] => []
  | c :: s' => if p c then lstrip_by p s' else s
  end.

Definition rstrip_by (p : N -> bool) (s : str) : str :=
  rev (lstrip_by p (rev s)).

(** [s.strip()] *)
Definition strip (s : str) : str := rstrip_by isspace (lstrip_by isspace s).

(** [s.strip(chars)] *)
Definition strip_chars (chars : str) (s : str) : str :=
  let p := fun c => bool_decide (c ∈ chars) in
  rstrip_by p (lstrip_by p s).

(** [s.replace(c, "")] for a one-character [c]. *)
Definition remove_char (c : N) (s : str) : str :=
  List.filter (fun x => negb (x =? c)%N) s.

(** [s.split(sep)] for a one-character [sep]. *)
Fixpoint split (sep : N) (s : str) : list str :=
  match s with
  | [] => [[]]
  | c :: s' =>
      if (c =? sep)%N then [] :: split sep s'
      else match split sep s' with
           | [] => [[c]]
           | w :: ws => (c :: w) :: ws
           end
  end.

(** ** CityGraph *)

(** A road as stored in an adjacency list:
    [(neighbor, distance, time, cost)]. *)
Abbreviation road := (Z * Z * Z * Z)%type.

Abbreviation adjacency := (gmap Z (list road)).

Record CityGraph := mkCityGraph {
  cities : gmap Z str;
  name_to_id : gmap str Z;
  graph : adjacency      (* a [defaultdict(list)] *)
}.

(** [CityGraph()] *)
Definition empty_graph : CityGraph := mkCityGraph ∅ ∅ ∅.

(** [d[k]] on a [defaultdict(list)]: a missing key is inserted with [[]]. *)
Definition defaultdict_getitem (d : adjacency) (k : Z) : adjacency * list road :=
  match d !! k with
  | Some l => (d, l)
  | None => (<[k := []]> d, [])
  end.

Definition add_city (G : CityGraph) (city_id : Z) (name : str) : CityGraph :=
  let name := strip name in
  mkCityGraph (<[city_id := name]> (cities G))
              (<[name := city_id]> (name_to_id G))
              (graph G).

(** [d[k].append(r)] *)
Definition append_road (d : adjacency) (k : Z) (r : road) : adjacency :=
  let '(d', l) := defaultdict_getitem d k in <[k := l ++ [r]]> d'.

Definition add_road (G : CityGraph) (id1 id2 distance time cost : Z) : CityGraph :=
  let g1 := append_road (graph G) id1 (id2, distance, time, cost) in
  let g2 := append_road g1 id2 (id1, distance, time, cost) in
  mkCityGraph (cities G) (name_to_id G) g2.

Definition get_id_by_name (G : CityGraph) (name : str) : option Z :=
  name_to_id G !! strip name.

Definition get_name_by_id (G : CityGraph) (city_id : Z) : str :=
  default [] (cities G !! city_id).

(** ** Exceptions *)

Inductive exn := KeyError (k : Z) | IndexError.

Inductive result (A : Type) := Ok (a : A) | Raise (e : exn).
Arguments Ok {A} a.
Arguments Raise {A} e.

(** [d[k]] on a plain dictionary. *)
Definition getitem {V} (d : gmap Z V) (k : Z) : result V :=
  match d !! k with
  | Some v => Ok v
  | None => Raise (KeyError k)
  end.

(** [p[i]] on a 3-tuple (negative indices count from the end). *)
Definition tuple_getitem (p : Z * Z * Z) (i : Z) : result Z :=
  let '(a, b, c) := p in
  if (i =? 0) || (i =? -3) then Ok a
  else if (i =? 1) || (i =? -2) then Ok b
  else if (i =? 2) || (i =? -1) then Ok c
  else Raise IndexError.

(** ** heapq on [(distance, node)] tuples

    The program only pushes, pops and tests the heap for emptiness, and
    tuples are totally ordered (lexicographically), so what it observes is
    fixed by the multiset of entries: [heappop] removes the least tuple. *)

Abbreviation entry := (Z * Z)%type.

Definition entry_lt (a b : entry) : bool :=
  (a.1 <? b.1) || ((a.1 =? b.1) && (a.2 <? b.2)).

Fixpoint heap_min (m : entry) (h : list entry) : entry :=
  match h with
  | [] => m
  | x :: h' => heap_min (if entry_lt x m then x else m) h'
  end.

Fixpoint remove_first (m : entry) (h : list entry) : list entry :=
  match h with
  | [] => []
  | x :: h' => if decide (x = m) then h' else x :: remove_first m h'
  end.

Definition heappush (h : list entry) (x : entry) : list entry := x :: h.

Definition heappop (h : list entry) : option (entry * list entry) :=
  match h with
  | [] => None
  | x :: h' => let m := heap_min x h' in Some (m, remove_first m h)
  end.

(** ** RouteOptimizer.find_optimal_path *)

(** A value of [distances]: [float('inf')] or an integer. *)
Inductive num := Inf | Int (n : Z).

(** [a < b] and [a > b] for an integer [a] and a [distances] value [b]. *)
Definition lt_num (a : Z) (b : num) : bool :=
  match b with Inf => true | Int b => a <? b end.
Definition gt_num (a : Z) (b : num) : bool :=
  match b with Inf => false | Int b => b <? a end.

Definition is_inf (b : num) : bool :=
  match b with Inf => true | Int _ => false end.

Abbreviation totals := (Z * Z * Z)%type.
Abbreviation route := (list Z * totals)%type.

Definition NoPath : route := ([], (0, 0, 0)).

(** The local variables of [find_optimal_path]. *)
Record locals := mkLocals {
  distances : gmap Z num;
  prev : gmap Z (option Z);
  total_params : gmap Z totals;
  heap : list entry
}.

(** Body of the [for neighbor, dist, time, cost in ...] loop (lines 61-72). *)
Definition relax (criterion current current_dist : Z) (l : locals) (r : road)
  : result locals :=
  let '(neighbor, dist, time, cost) := r in
  match tuple_getitem (dist, time, cost) criterion with
  | Raise e => Raise e
  | Ok w =>
      let new_criterion_dist := current_dist + w in
      match getitem (distances l) neighbor with
      | Raise e => Raise e
      | Ok dn =>
          if lt_num new_criterion_dist dn then
            match getitem (total_params l) current with
            | Raise e => Raise e
            | Ok (o0, o1, o2) =>
                Ok (mkLocals
                      (<[neighbor := Int new_criterion_dist]> (distances l))
                      (<[neighbor := Some current]> (prev l))
                      (<[neighbor := (o0 + dist, o1 + time, o2 + cost)]>
                         (total_params l))
                      (heappush (heap l) (new_criterion_dist, neighbor)))
            end
          else Ok l
      end
  end.

Fixpoint for_roads (criterion current current_dist : Z) (rs : list road)
  (l : locals) : result locals :=
  match rs with
  | [] => Ok l
  | r :: rs' =>
      match relax criterion current current_dist l r with
      | Raise e => Raise e
      | Ok l' => for_roads criterion current current_dist rs' l'
      end
  end.

(** How one pass through the [while heap:] loop ends. The adjacency map is
    carried along because reading [self.graph.graph[current]] may insert
    a key. *)
Inductive flow :=
| Next (g : adjacency) (l : locals)     (* go round again *)
| Stop (g : adjacency) (l : locals)     (* heap empty, or [break] *)
| Abort (g : adjacency) (e : exn).      (* uncaught exception *)

(** The locals once [heappop] has taken an entry off the heap. *)
Definition with_heap (l : locals) (h : list entry) : locals :=
  mkLocals (distances l) (prev l) (total_params l) h.

Definition iteration (end_id criterion : Z) (g : adjacency) (l : locals) : flow :=
  match heappop (heap l) with
  | None => Stop g l
  | Some ((current_dist, current), h) =>
      let l1 := with_heap l h in
      match getitem (distances l) current with
      | Raise e => Abort g e
      | Ok dc =>
          if gt_num current_dist dc then Next g l1
          else if current =? end_id then Stop g l1
          else
            let '(g', roads) := defaultdict_getitem g current in
            match for_roads criterion current current_dist roads l1 with
            | Raise e => Abort g' e
            | Ok l2 => Next g' l2
            end
      end
  end.

(** The [while heap:] loop; [None] when the fuel runs out. *)
Fixpoint while_heap (fuel : nat) (end_id criterion : Z) (g : adjacency)
  (l : locals) : option flow :=
  match fuel with
  | O => None
  | S fuel' =>
      match iteration end_id criterion g l with
      | Next g' l' => while_heap fuel' end_id criterion g' l'
      | other => Some other
      end
  end.

(** The [while current is not None:] loop (lines 79-81). *)
Fixpoint backtrack (fuel : nat) (prev : gmap Z (option Z)) (current : option Z)
  (path : list Z) : option (result (list Z)) :=
  match current with
  | None => Some (Ok path)
  | Some c =>
      match fuel with
      | O => None
      | S fuel' =>
          match getitem prev c with
          | Raise e => Some (Raise e)
          | Ok p => backtrack fuel' prev p (path ++ [c])
          end
      end
  end.

Definition with_graph (G : CityGraph) (g : adjacency) : CityGraph :=
  mkCityGraph (cities G) (name_to_id G) g.

(** The state on entry to the [while] loop (lines 43-50). *)
Definition init_locals (g : adjacency) (start_id : Z) : locals :=
  mkLocals (<[start_id := Int 0]> ((fun _ => Inf) <$> g))
           ((fun _ => None) <$> g)
           (<[start_id := (0, 0, 0)]> ((fun _ => (0, 0, 0)) <$> g))
           [(0, start_id)].

(** Lines 74-84, from the state the loop stopped in. *)
Definition epilogue (fuel : nat) (end_id : Z) (l : locals)
  : option (result route) :=
  match getitem (distances l) end_id with
  | Raise e => Some (Raise e)
  | Ok d =>
      if is_inf d then Some (Ok NoPath)
      else
        match backtrack fuel (prev l) (Some end_id) [] with
        | None => None
        | Some (Raise e) => Some (Raise e)
        | Some (Ok path) =>
            match getitem (total_params l) end_id with
            | Raise e => Some (Raise e)
            | Ok tp => Some (Ok (rev path, tp))
            end
        end
  end.

(** The call returns the graph as the call left it, and the route or the
    exception; [None] when a loop needs more than [fuel] passes. *)
Definition find_optimal_path (G : CityGraph) (start_id end_id criterion : Z)
  (fuel : nat) : option (CityGraph * result route) :=
  match while_heap fuel end_id criterion (graph G) (init_locals (graph G) start_id) with
  | None => None
  | Some (Next _ _) => None
  | Some (Abort g e) => Some (with_graph G g, Raise e)
  | Some (Stop g l) =>
      match epilogue fuel end_id l with
      | None => None
      | Some r => Some (with_graph G g, r)
      end
  end.

(** ** RouteOptimizer.get_all_optimal_routes *)

(** "ДЛИНА", "ВРЕМЯ", "СТОИМОСТЬ" *)
Definition DLINA : str := [1044; 1051; 1048; 1053; 1040]%N.
Definition VREMYA : str := [1042; 1056; 1045; 1052; 1071]%N.
Definition STOIMOST : str :=
  [1057; 1058; 1054; 1048; 1052; 1054; 1057; 1058; 1068]%N.

Definition criteria : list (str * Z) := [(DLINA, 0); (VREMYA, 1); (STOIMOST, 2)].

(** [not x] for an [Optional[int]]: [None] and [0] are falsy. *)
Definition py_not (x : option Z) : bool :=
  match x with
  | None => true
  | Some z => z =? 0
  end.

(** The [for name, idx in criteria:] loop. *)
Fixpoint routes_loop (fuel : nat) (G : CityGraph) (start_id end_id : Z)
  (cs : list (str * Z)) (results : gmap str route)
  : option (CityGraph * result (gmap str route)) :=
  match cs with
  | [] => Some (G, Ok results)
  | (name, idx) :: cs' =>
      match find_optimal_path G start_id end_id idx fuel with
      | None => None
      | Some (G', Raise e) => Some (G', Raise e)
      | Some (G', Ok (path, params)) =>
          routes_loop fuel G' start_id end_id cs'
            (match path with
             | [] => results
             | _ :: _ => <[name := (path, params)]> results
             end)
      end
  end.

Definition get_all_optimal_routes (G : CityGraph) (start end_ : str)
  (fuel : nat) : option (CityGraph * result (gmap str route)) :=
  let start_id := get_id_by_name G start in
  let end_id := get_id_by_name G end_ in
  if py_not start_id || py_not end_id then Some (G, Ok ∅)
  else
    match start_id, end_id with
    | Some s, Some e => routes_loop fuel G s e criteria ∅
    | _, _ => Some (G, Ok ∅)
    end.

(** ** RouteOptimizer.find_compromise_route *)

(** [{"Д": "ДЛИНА", "В": "ВРЕМЯ", "С": "СТОИМОСТЬ"}] *)
Definition criterion_map : gmap str str :=
  <[[1044%N] := DLINA]> (<[[1042%N] := VREMYA]> (<[[1057%N] := STOIMOST]> ∅)).

(** [priorities.strip("()").replace(" ", "").split(",")] *)
Definition priority_order (priorities : str) : list str :=
  split 44 (remove_char 32 (strip_chars [40; 41]%N priorities)).

(** The [for criterion in priority_order:] loop and the final [return]. *)
Fixpoint first_listed (routes : gmap str route) (order : list str) : route :=
  match order with
  | [] => NoPath
  | criterion :: rest =>
      match criterion_map !! criterion with
      | None => first_listed routes rest      (* [None in routes] is false *)
      | Some route_key =>
          match routes !! route_key with
          | Some r => r
          | None => first_listed routes rest
          end
      end
  end.

Definition find_compromise_route (routes : gmap str route) (priorities : str)
  : route :=
  first_listed routes (priority_order priorities).

(** ** The program around the optimizer

    [parse_input], [format_path], [write_output] and [main]. What the
    file system does is given by an [input_file] and an [output_file].
    [print] adds one entry to a list of printed lines. *)

(** ** More of Python's [str] *)

(** The code points of a UTF-8 literal. *)
Fixpoint utf8_points (bs : list N) (need : nat) (acc : N) : list N :=
  match bs with
  | [] => []
  | b :: bs' =>
      if (b <? 128)%N then b :: utf8_points bs' 0 0%N
      else if (b <? 192)%N then
        let acc' := (acc * 64 + (b - 128))%N in
        match need with
        | O => utf8_points bs' 0 0%N
        | S O => acc' :: utf8_points bs' 0 0%N
        | S n => utf8_points bs' n acc'
        end
      else if (b <? 224)%N then utf8_points bs' 1 (b - 192)%N
      else if (b <? 240)%N then utf8_points bs' 2 (b - 224)%N
      else utf8_points bs' 3 (b - 240)%N
  end.

Definition utf8 (s : string) : str := utf8_points (lit s) 0 0%N.

(** [s.startswith(prefix)] *)
Fixpoint startswith (prefix s : str) : bool :=
  match prefix, s with
  | [], _ => true
  | _ :: _, [] => false
  | a :: prefix', b :: s' => (a =? b)%N && startswith prefix' s'
  end.

(** [s.endswith(suffix)] *)
Definition endswith (suffix s : str) : bool := startswith (rev suffix) (rev s).

(** [s.find(sub)], with [None] for -1. *)
Fixpoint str_find (sub s : str) : option nat :=
  if startswith sub s then Some O
  else match s with
       | [] => None
       | _ :: s' => S <$> str_find sub s'
       end.

(** [sub in s] *)
Definition contains (sub s : str) : bool :=
  match str_find sub s with
  | Some _ => true
  | None => false
  end.

(** [s.split(sep, 1)] *)
Definition split_once (sep s : str) : list str :=
  match str_find sep s with
  | Some i => [take i s; drop (i + length sep) s]
  | None => [s]
  end.

(** [sep.join(parts)] *)
Fixpoint join (sep : str) (parts : list str) : str :=
  match parts with
  | [] => []
  | p :: rest =>
      match rest with
      | [] => p
      | _ :: _ => p ++ sep ++ join sep rest
      end
  end.

(** [str(z)] for an integer. *)
Definition str_of_int (z : Z) : str := lit (NilZero.string_of_int (Z.to_int z)).

(** ** Exceptions that can leave a module-level function *)

Inductive error :=
| Optimizer (e : exn)        (* raised inside [RouteOptimizer] *)
| ListIndexError             (* [parts[0]] on an empty list *)
| UnpackError (got : nat)    (* [a, b = parts] with [len(parts) != 2] *)
| FileError (msg : str).     (* raised by [open], [readlines], [write] or
                                the closing of a file, [FileNotFoundError]
                                apart; [msg] is its text *)

(** [str(e)], as [main] prints it. *)
Definition str_of_error (e : error) : str :=
  match e with
  | Optimizer (KeyError k) => str_of_int k
  | Optimizer IndexError => lit "tuple index out of range"
  | ListIndexError => lit "list index out of range"
  | UnpackError got =>
      if (got <? 2)%nat
      then lit "not enough values to unpack (expected 2, got "
           ++ str_of_int (Z.of_nat got) ++ lit ")"
      else lit "too many values to unpack (expected 2)"
  | FileError msg => msg
  end.

(** How a statement leaves a state: it goes on, or an exception leaves
    the function (the state is kept for what was printed before). *)
Inductive step (A : Type) := Go (a : A) | Raised (e : error) (a : A).
Arguments Go {A} a.
Arguments Raised {A} e a.

(** ** The file system *)

(** What [open(filename, 'r', encoding='utf-8')] and [f.readlines()] do
    (lines 126-127). *)
Inductive input_file :=
| Absent                       (* [open] raises [FileNotFoundError] *)
| Unreadable (msg : str)       (* [open] or [readlines] raises another
                                  exception with the text [msg]: a
                                  directory, no permission, bytes that are
                                  not UTF-8 *)
| Content (lines : list str).  (* the list [readlines] returns *)

(** What [open(filename, 'w', encoding='utf-8')] and the writes do
    (lines 214-216). *)
Inductive output_file :=
| Writable                     (* every write goes through *)
| NoDirectory                  (* [open] raises [FileNotFoundError] *)
| Unwritable (msg : str)       (* [open] raises another exception *)
| Interrupted (msg : str) (kept : nat).
                               (* a write, or the closing, raises once
                                  [kept] characters have reached the file *)

(** ** parse_input *)

Abbreviation request := (str * str * str)%type.

(** The variables of [parse_input], and the printed lines. *)
Record parser := mkParser {
  current_section : option str;
  parsed : CityGraph;            (* [graph] *)
  requests : list request;
  stdout : list str
}.

Definition print (msg : str) (st : parser) : parser :=
  mkParser (current_section st) (parsed st) (requests st) (stdout st ++ [msg]).

Definition set_section (line : str) (st : parser) : parser :=
  mkParser (Some line) (parsed st) (requests st) (stdout st).

Definition set_graph (G : CityGraph) (st : parser) : parser :=
  mkParser (current_section st) G (requests st) (stdout st).

Definition append_request (r : request) (st : parser) : parser :=
  mkParser (current_section st) (parsed st) (requests st ++ [r]) (stdout st).

(** [line.startswith('[') and line.endswith(']')] *)
Definition is_header (line : str) : bool :=
  startswith (lit "[") line && endswith (lit "]") line.

(** ["(Д,В,С)"] *)
Definition default_priorities : str := utf8 "(Д,В,С)".

Section Program.

(** [int(s)] on a string: the integer, or the message of the
    [ValueError]. Nothing is assumed about which strings it accepts. *)
Variable int : str → Z + str.

(** Lines 145-153. *)
Definition cities_line (line : str) (st : parser) : parser :=
  if contains (lit ":") line then
    match split_once (lit ":") line with
    | [p0; p1] =>
        match int (strip p0) with
        | inl city_id => set_graph (add_city (parsed st) city_id (strip p1)) st
        | inr _ => print (utf8 "Некорректный ID города в строке: " ++ line) st
        end
    | _ => st
    end
  else st.

(** The [for param in params_part.split(','):] loop (lines 171-174);
    [inr] is the message of the [ValueError] that ends it. *)
Fixpoint int_params (parts : list str) (params : list Z) : list Z + str :=
  match parts with
  | [] => inl params
  | param :: rest =>
      let param := strip param in
      match param with
      | [] => int_params rest params
      | _ :: _ =>
          match int param with
          | inl n => int_params rest (params ++ [n])
          | inr e => inr e
          end
      end
  end.

(** The handler of lines 186-188. *)
Definition value_error (line e : str) (st : parser) : parser :=
  print (utf8 "Ошибка " ++ e)
        (print (utf8 "Некорректные данные в строке: " ++ line) st).

(** Lines 156-188. *)
Definition roads_line (line : str) (st : parser) : step parser :=
  if contains (lit ":") line then
    match split_once (lit ":") line with
    | [] => Raised ListIndexError st
    | p0 :: rest =>
        let cities_part := strip p0 in
        let params_part := match rest with p1 :: _ => strip p1 | [] => [] end in
        if contains (lit "-") cities_part then
          match split 45 cities_part with
          | [c0; c1] =>
              match int (strip c0) with
              | inr e => Go (value_error line e st)
              | inl id1 =>
                  match int (strip c1) with
                  | inr e => Go (value_error line e st)
                  | inl id2 =>
                      match params_part with
                      | [] =>
                          Go (print (utf8 "Отсутствуют параметры в строке: "
                                     ++ line) st)
                      | _ :: _ =>
                          match int_params (split 44 params_part) [] with
                          | inr e => Go (value_error line e st)
                          | inl (distance :: time :: cost :: _) =>
                              Go (set_graph
                                    (add_road (parsed st) id1 id2
                                              distance time cost) st)
                          | inl _ =>
                              Go (print
                                    (utf8 "Недостаточно параметров в строке: "
                                     ++ line) st)
                          end
                      end
                  end
              end
          | _ => Go st
          end
        else Go st
    end
  else Go st.

(** Lines 191-204. *)
Definition requests_line (line : str) (st : parser) : step parser :=
  if contains (lit "->") line then
    let unpacked :=
      if contains (lit "|") line then
        match split_once (lit "|") line with
        | [route_part; priority_part] => inl (route_part, priority_part)
        | parts => inr (UnpackError (length parts))
        end
      else inl (line, default_priorities) in
    match unpacked with
    | inr e => Raised e st
    | inl (route_part, priority_part) =>
        let route_part := strip route_part in
        let priority_part := strip priority_part in
        match split_once (lit "->") route_part with
        | [c0; c1] => Go (append_request (strip c0, strip c1, priority_part) st)
        | _ => Go st
        end
    end
  else Go st.

(** Body of the [for line in content:] loop (lines 135-204). *)
Definition parse_line (raw : str) (st : parser) : step parser :=
  let line := strip raw in
  match line with
  | [] => Go st
  | _ :: _ =>
      if is_header line then Go (set_section line st)
      else if decide (current_section st = Some (lit "[CITIES]"))
      then Go (cities_line line st)
      else if decide (current_section st = Some (lit "[ROADS]"))
      then roads_line line st
      else if decide (current_section st = Some (lit "[REQUESTS]"))
      then requests_line line st
      else Go st
  end.

Fixpoint for_lines (content : list str) (st : parser) : step parser :=
  match content with
  | [] => Go st
  | raw :: rest =>
      match parse_line raw st with
      | Go st' => for_lines rest st'
      | Raised e st' => Raised e st'
      end
  end.

(** Only [FileNotFoundError] is caught (lines 128-130); any other
    exception of [open] or [readlines] leaves the function. The graph and
    the requests of the result are what the function returns. *)
Definition parse_input (filename : str) (file : input_file) : step parser :=
  let st := mkParser None empty_graph [] [] in
  match file with
  | Absent => Go (print (utf8 "Файл " ++ filename ++ utf8 " не найден") st)
  | Unreadable msg => Raised (FileError msg) st
  | Content content => for_lines content st
  end.

(** ** format_path, write_output *)

Definition format_path (path : list Z) (G : CityGraph) : str :=
  join (lit " -> ") (get_name_by_id G <$> path).

(** The file the call leaves behind when every write goes through: its
    name and its text. *)
Definition write_output (filename : str) (results : list str) : str * str :=
  (filename, concat ((fun result => result ++ [10%N]) <$> results)).

(** ** main *)

(** The f-string of lines 240 and 249. *)
Definition result_line (criterion path_str : str) (params : totals) : str :=
  criterion ++ lit ": " ++ path_str ++ lit " | "
  ++ utf8 "Д=" ++ str_of_int params.1.1
  ++ utf8 ", В=" ++ str_of_int params.1.2
  ++ utf8 ", С=" ++ str_of_int params.2.

(** The [for criterion in [...]] loop (lines 236-243). *)
Definition criterion_lines (G : CityGraph) (routes : gmap str route)
  : list str :=
  (fun criterion =>
     match routes !! criterion with
     | Some (path, params) => result_line criterion (format_path path G) params
     | None => criterion ++ utf8 ": Нет пути"
     end) <$> [DLINA; VREMYA; STOIMOST].

(** Lines 245-252. *)
Definition compromise_line (G : CityGraph) (routes : gmap str route)
  (priorities : str) : str :=
  let '(compromise_path, compromise_params) :=
    find_compromise_route routes priorities in
  match compromise_path with
  | [] => utf8 "КОМПРОМИСС: Нет пути"
  | _ :: _ =>
      result_line (utf8 "КОМПРОМИСС") (format_path compromise_path G)
                  compromise_params
  end.

(** Body of the [for start_city, end_city, priorities in requests:] loop:
    the lines it appends to [all_results]. *)
Definition request_lines (fuel : nat) (G : CityGraph) (r : request)
  : option (CityGraph * result (list str)) :=
  let '(start_city, end_city, priorities) := r in
  match get_all_optimal_routes G start_city end_city fuel with
  | None => None
  | Some (G', Raise e) => Some (G', Raise e)
  | Some (G', Ok routes) =>
      if decide (routes = ∅) then
        Some (G', Ok [utf8 "Нет пути между " ++ start_city
                      ++ utf8 " и " ++ end_city])
      else
        Some (G', Ok (criterion_lines G' routes
                      ++ [compromise_line G' routes priorities; []]))
  end.

Fixpoint for_requests (fuel : nat) (G : CityGraph) (rs : list request)
  (all_results : list str) : option (CityGraph * result (list str)) :=
  match rs with
  | [] => Some (G, Ok all_results)
  | r :: rest =>
      match request_lines fuel G r with
      | None => None
      | Some (G', Raise e) => Some (G', Raise e)
      | Some (G', Ok lines) => for_requests fuel G' rest (all_results ++ lines)
      end
  end.

(** What a run of the program leaves behind. *)
Record run := mkRun {
  printed : list str;
  written : option (str * str);   (* name and text of the output file, when
                                     the run has opened it for writing *)
  exit_status : Z                 (* 1 after [sys.exit(1)] *)
}.

Definition failed (out : list str) (e : error) : run :=
  mkRun (out ++ [utf8 "Ошибка " ++ str_of_error e]) None 1.

(** [input_txt] and [output_txt] say what the file system does with
    "input.txt" and "output.txt". The two handlers are lines 259-264: a
    [FileNotFoundError] can only come from [write_output], since
    [parse_input] catches its own. [None] as a result means that a loop of
    the optimizer needs more than [fuel] passes. *)
Definition main (input_txt : input_file) (output_txt : output_file)
  (fuel : nat) : option run :=
  let input_file := lit "input.txt" in
  let output_file := lit "output.txt" in
  match parse_input input_file input_txt with
  | Raised e st => Some (failed (stdout st) e)
  | Go st =>
      match for_requests fuel (parsed st) (requests st) [] with
      | None => None
      | Some (_, Raise e) => Some (failed (stdout st) (Optimizer e))
      | Some (_, Ok all_results) =>
          let file := write_output output_file all_results in
          match output_txt with
          | Writable =>
              Some (mkRun (stdout st
                           ++ [utf8 "Результаты записаны в " ++ output_file])
                          (Some file) 0)
          | NoDirectory =>
              Some (mkRun (stdout st
                           ++ [utf8 "Файл " ++ input_file ++ utf8 " не найден"])
                          None 1)
          | Unwritable msg => Some (failed (stdout st) (FileError msg))
          | Interrupted msg kept =>
              Some (mkRun (stdout st
                           ++ [utf8 "Ошибка " ++ str_of_error (FileError msg)])
                          (Some (file.1, take kept file.2)) 1)
          end
      end
  end.

End Program.

(** * Vocabulary of the statements *)

(** ** Roads, walks and their totals *)

(** The two parts of a road [(neighbor, distance, time, cost)]. *)
Definition neighbor_of (r : road) : Z := r.1.1.1.
Definition params_of (r : road) : totals := (r.1.1.2, r.1.2, r.2).

(** The adjacency list of [u], [[]] for a missing key. *)
Definition roads_of (g : adjacency) (u : Z) : list road := default [] (g !! u).

(** The weight the criterion selects ([params[criterion]]). *)
Definition weight (criterion : Z) (r : road) : Z :=
  match tuple_getitem (params_of r) criterion with
  | Ok w => w
  | Raise _ => 0
  end.

(** Componentwise sum of two totals. *)
Definition add3 (a b : totals) : totals :=
  (a.1.1 + b.1.1, a.1.2 + b.1.2, a.2 + b.2).

(** Componentwise sum of the (distance, time, cost) of a list of roads. *)
Definition sum3 (rs : list road) : totals :=
  foldl (fun acc r => add3 acc (params_of r)) (0, 0, 0) rs.

(** Sum of the selected weight. *)
Definition sum_w (criterion : Z) (rs : list road) : Z :=
  foldl (fun acc r => acc + weight criterion r) 0 rs.

(** [walk g u v rs]: the roads [rs] lead from [u] to [v], each one taken
    from the adjacency list of the node reached so far. *)
Inductive walk (g : adjacency) : Z → Z → list road → Prop :=
| walk_nil u : walk g u u []
| walk_cons u v r rs :
    r ∈ roads_of g u → walk g (neighbor_of r) v rs → walk g u v (r :: rs).

(** The node ids along a walk from [u]. *)
Definition vertices (u : Z) (rs : list road) : list Z := u :: (neighbor_of <$> rs).

(** The locals after the body of [if new_criterion_dist < distances[neighbor]]. *)
Definition relaxed (l : locals) (current x new : Z) (tp : totals) : locals :=
  mkLocals (<[x := Int new]> (distances l))
           (<[x := Some current]> (prev l))
           (<[x := tp]> (total_params l))
           ((new, x) :: heap l).

(** The value of [distances[end_id]] when the [while] loop stops: the
    cost the solver has accumulated for the target under the criterion. *)
Definition accumulated (G : CityGraph) (start_id end_id criterion : Z)
  (fuel : nat) : option num :=
  match while_heap fuel end_id criterion (graph G)
          (init_locals (graph G) start_id) with
  | Some (Stop _ l) => distances l !! end_id
  | _ => None
  end.

(** The adjacency map a pass, or the loop, leaves behind. *)
Definition flow_graph (f : flow) : adjacency :=
  match f with Next g _ | Stop g _ | Abort g _ => g end.

(** ** Conditions on a graph *)

(** All three weights of every road are non-negative. *)
Definition nonnegative (G : CityGraph) : Prop :=
  map_Forall (fun _ rs =>
    Forall (fun r : road => 0 ≤ r.1.1.2 ∧ 0 ≤ r.1.2 ∧ 0 ≤ r.2) rs) (graph G).

(** Every neighbour named in an adjacency list is itself a key. *)
Definition closed_graph (G : CityGraph) : Prop :=
  map_Forall (fun _ rs =>
    Forall (fun r : road => is_Some (graph G !! neighbor_of r)) rs) (graph G).

(** Every road is listed from both of its ends, with the same weights. *)
Definition undirected (G : CityGraph) : Prop :=
  map_Forall (fun u rs =>
    Forall (fun r : road =>
      (u, r.1.1.2, r.1.2, r.2) ∈ roads_of (graph G) (neighbor_of r)) rs)
    (graph G).

(** The number of adjacency-list entries. *)
Definition road_count (G : CityGraph) : nat :=
  sum_list_with (fun u => length (roads_of (graph G) u))
                (elements (dom (graph G))).

(** Passes that suffice for both loops of [find_optimal_path]. *)
Definition enough_fuel (G : CityGraph) : nat :=
  (2 + road_count G + size (graph G))%nat.

(** Graphs built with [add_city] and [add_road]. *)
Inductive constructed : CityGraph → Prop :=
| constructed_empty : constructed empty_graph
| constructed_city G city_id name :
    constructed G → constructed (add_city G city_id name)
| constructed_road G id1 id2 distance time cost :
    constructed G → constructed (add_road G id1 id2 distance time cost).

(** ** Walking a path backwards *)



(** ** Example graphs *)

(** Locations 1:"A", 2:"B", 3:"C"; roads 1-2:(10,5,2), 2-3:(10,5,2),
    1-3:(25,1,1). *)
Definition triangle : CityGraph :=
  add_road (add_road (add_road
    (add_city (add_city (add_city empty_graph 1 (lit "A")) 2 (lit "B"))
       3 (lit "C"))
    1 2 10 5 2) 2 3 10 5 2) 1 3 25 1 1.

(** The routes of the query A -> C on [triangle]. *)
Definition triangle_routes : gmap str route :=
  <[DLINA := ([1; 2; 3], (20, 10, 4))]>
    (<[VREMYA := ([1; 3], (25, 1, 1))]>
       (<[STOIMOST := ([1; 3], (25, 1, 1))]> ∅)).

(** Two routes of equal length between 1 and 4, one through 2 (no time),
    one through 3 (time 10). *)
Definition diamond : CityGraph :=
  add_road (add_road (add_road (add_road empty_graph
    1 2 1 0 0) 2 4 2 0 0) 1 3 2 5 0) 3 4 1 5 0.

(** Locations 1:"A", 2:"B", 3:"C" and the single road 1-2:(1,1,1):
    "C" is a location without roads. *)
Definition lonely : CityGraph :=
  add_road
    (add_city (add_city (add_city empty_graph 1 (lit "A")) 2 (lit "B"))
       3 (lit "C"))
    1 2 1 1 1.

(** Two separate roads 1-2 and 3-4. *)
Definition islands : CityGraph :=
  add_road (add_road empty_graph 1 2 1 1 1) 3 4 1 1 1.

(** Locations 0:"A", 1:"B" and the road 0-1:(1,1,1). *)
Definition from_zero : CityGraph :=
  add_road (add_city (add_city empty_graph 0 (lit "A")) 1 (lit "B")) 0 1 1 1 1.

(** One location 1:"A", no road. *)
Definition single : CityGraph := add_city empty_graph 1 (lit "A").


(** ** Input text and parser states *)

(** What every line of the input preserves. *)
Definition built (st : parser) : Prop := constructed (parsed st).

(** The parser is inside one of the three sections. *)
Definition known_section (st : parser) : Prop :=
  current_section st ∈ [Some (lit "[CITIES]"); Some (lit "[ROADS]");
                        Some (lit "[REQUESTS]")].

(** A request line: [a -> b], or [a -> b | p]. *)
Definition request_text (a b : str) (p : option str) : str :=
  a ++ lit "->" ++ b ++
  match p with
  | Some p => lit "|" ++ p
  | None => []
  end.

(** A tag of a priority string: no parenthesis, comma or space. *)
Definition plain (tag : str) : Prop :=
  Forall (fun c => c ∉ [40; 41; 44; 32]%N) tag.

(** A RouteSet with a non-empty path under each of the three keys. *)
Definition complete (routes : gmap str route) : Prop :=
  ∃ r0 r1 r2, r0.1 ≠ [] ∧ r1.1 ≠ [] ∧ r2.1 ≠ [] ∧
    routes = <[STOIMOST := r2]> (<[VREMYA := r1]> (<[DLINA := r0]> ∅)).

(** ** An example input *)

(** ASCII digits read as a decimal number, continuing from [acc]. *)
Fixpoint digits (s : str) (acc : Z) : option Z :=
  match s with
  | [] => Some acc
  | c :: s' =>
      if ((48 <=? c) && (c <=? 57))%N
      then digits s' (10 * acc + Z.of_N (c - 48))
      else None
  end.

(** One function of the kind [int] stands for, used in the examples: an
    optional sign and ASCII digits, with whitespace around them. *)
Definition decimal (s : str) : Z + str :=
  let bad := inr (lit "invalid literal for int() with base 10: '" ++ s
                  ++ lit "'") in
  match strip s with
  | [] => bad
  | c :: d =>
      if (c =? 45)%N then
        match d with
        | [] => bad
        | _ :: _ => match digits d 0 with Some z => inl (- z) | None => bad end
        end
      else if (c =? 43)%N then
        match d with
        | [] => bad
        | _ :: _ => match digits d 0 with Some z => inl z | None => bad end
        end
      else match digits (c :: d) 0 with Some z => inl z | None => bad end
  end.

(** Three locations, one road and two requests; the second request names
    a location without a road. *)
Definition sample_input : list str :=
  [lit "[CITIES]"; lit "1: A"; lit "2: B"; lit "3: C";
   lit "[ROADS]"; lit "1-3: 4,5,6";
   lit "[REQUESTS]"; lit "A -> C"; lit "A -> B"].

(** * Verification *)

(** ** The heap *)

Lemma heap_min_elem m h : heap_min m h ∈ m :: h.
Proof.
  revert m. induction h as [|x h IH]; intros m; simpl; [left|].
  specialize (IH (if entry_lt x m then x else m)).
  apply elem_of_cons in IH as [->|IH].
  - destruct (entry_lt x m); [right; left | left].
  - right; right; exact IH.
Qed.

Lemma heap_min_le_init m h : (heap_min m h).1 ≤ m.1.
Proof.
  revert m. induction h as [|x h IH]; intros m; simpl; [lia|].
  specialize (IH (if entry_lt x m then x else m)).
  destruct (entry_lt x m) eqn:E; [|exact IH].
  unfold entry_lt in E. lia.
Qed.

Lemma heap_min_least m h x : x ∈ m :: h → (heap_min m h).1 ≤ x.1.
Proof.
  revert m. induction h as [|y h IH]; intros m Hx; simpl.
  - apply list_elem_of_singleton in Hx. subst x. lia.
  - pose proof (heap_min_le_init (if entry_lt y m then y else m) h) as Hle.
    apply elem_of_cons in Hx as [Hx|Hx].
    + subst x. destruct (entry_lt y m) eqn:E; [|exact Hle].
      unfold entry_lt in E. lia.
    + apply elem_of_cons in Hx as [Hx|Hx].
      * subst x. destruct (entry_lt y m) eqn:E; [exact Hle|].
        unfold entry_lt in E. lia.
      * apply IH. right. exact Hx.
Qed.

Lemma remove_first_perm (m : entry) h : m ∈ h → h ≡ₚ m :: remove_first m h.
Proof.
  induction h as [|x h IH]; intros Hm; [by apply elem_of_nil in Hm|].
  simpl. destruct (decide (x = m)) as [->|Hne]; [done|].
  apply elem_of_cons in Hm as [->|Hm]; [done|].
  rewrite (IH Hm) at 1. apply Permutation_swap.
Qed.

(** What the program sees of a pop: the popped entry was in the heap, no
    entry has a smaller key, and the rest is the heap without one copy. *)
Lemma heappop_Some h m h' :
  heappop h = Some (m, h') →
  h ≡ₚ m :: h' ∧ ∀ x, x ∈ h → m.1 ≤ x.1.
Proof.
  destruct h as [|x h]; [done|]. unfold heappop. intros [= <- <-]. split.
  - apply remove_first_perm, heap_min_elem.
  - apply heap_min_least.
Qed.

Lemma heappop_None h : heappop h = None → h = [].
Proof. by destruct h. Qed.

(** ** Sums along walks *)

Lemma walk_snoc g u v r rs :
  walk g u v rs → r ∈ roads_of g v → walk g u (neighbor_of r) (rs ++ [r]).
Proof.
  induction 1 as [u|u v r' rs Hr' _ IH]; intros Hr; simpl.
  - eapply walk_cons; [done|constructor].
  - eapply walk_cons; [done|auto].
Qed.

Lemma sum_w_snoc c rs r : sum_w c (rs ++ [r]) = sum_w c rs + weight c r.
Proof. unfold sum_w. by rewrite foldl_app. Qed.

Lemma sum3_snoc rs r : sum3 (rs ++ [r]) = add3 (sum3 rs) (params_of r).
Proof. unfold sum3. by rewrite foldl_app. Qed.

Lemma sum_w_foldl c a rs :
  foldl (fun acc r => acc + weight c r) a rs = a + sum_w c rs.
Proof.
  unfold sum_w. revert a. induction rs as [|r rs IH] using rev_ind; intros a.
  - simpl. lia.
  - rewrite !foldl_app. simpl. rewrite IH. lia.
Qed.

Lemma sum_w_cons c r rs : sum_w c (r :: rs) = weight c r + sum_w c rs.
Proof. unfold sum_w at 1. simpl. by rewrite sum_w_foldl. Qed.

Lemma vertices_snoc u rs r :
  vertices u (rs ++ [r]) = vertices u rs ++ [neighbor_of r].
Proof. unfold vertices. by rewrite fmap_app. Qed.

Lemma tuple_getitem_sum3 c rs :
  0 ≤ c ≤ 2 → tuple_getitem (sum3 rs) c = Ok (sum_w c rs).
Proof.
  intros Hc. assert (c = 0 ∨ c = 1 ∨ c = 2) as Hcases by lia.
  induction rs as [|r rs IH] using rev_ind.
  - destruct Hcases as [->|[->| ->]]; reflexivity.
  - rewrite sum3_snoc, sum_w_snoc. unfold weight.
    destruct (sum3 rs) as [[a0 a1] a2], r as [[[x d] t] co].
    destruct Hcases as [->|[->| ->]]; simpl in *; by simplify_eq.
Qed.

(** ** One pass of the inner loop *)

Arguments tuple_getitem : simpl never.

Lemma relax_Ok c cur cd l r l' :
  relax c cur cd l r = Ok l' →
  tuple_getitem (params_of r) c = Ok (weight c r) ∧
  ∃ dn, distances l !! neighbor_of r = Some dn ∧
    ((lt_num (cd + weight c r) dn = false ∧ l' = l) ∨
     (lt_num (cd + weight c r) dn = true ∧
      ∃ o, total_params l !! cur = Some o ∧
        l' = relaxed l cur (neighbor_of r) (cd + weight c r)
               (add3 o (params_of r)))).
Proof.
  destruct r as [[[x d] t] co]. unfold relax, weight, params_of, neighbor_of.
  simpl. destruct (tuple_getitem (d, t, co) c) as [w|] eqn:Hw; [|done].
  unfold getitem. destruct (distances l !! x) as [dn|] eqn:Hdn; [|done].
  intros Hl'. split; [done|]. exists dn. split; [done|].
  destruct (lt_num (cd + w) dn); [right|left; by simplify_eq].
  split; [done|].
  destruct (total_params l !! cur) as [[[o0 o1] o2]|] eqn:Ho; [|done].
  exists (o0, o1, o2). split; [done|]. by simplify_eq.
Qed.

(** When do the lookups of [relax] succeed. *)
Lemma relax_progress c cur cd l r :
  0 ≤ c ≤ 2 →
  is_Some (distances l !! neighbor_of r) →
  is_Some (total_params l !! cur) →
  ∃ l', relax c cur cd l r = Ok l'.
Proof.
  intros Hc [dn Hdn] [[[o0 o1] o2] Ho]. destruct r as [[[x d] t] co].
  unfold relax, neighbor_of in *. simpl in *.
  assert (∃ w, tuple_getitem (d, t, co) c = Ok w) as [w ->].
  { assert (c = 0 ∨ c = 1 ∨ c = 2) as [->|[->| ->]] by lia; by eexists. }
  unfold getitem. rewrite Hdn, Ho. destruct (lt_num _ _); by eexists.
Qed.

(** Induction over the [for] loop: a property indexed by the roads already
    handled holds at the end if every successful pass keeps it. *)
Lemma for_roads_ind c cur cd (Q : list road → locals → Prop) (all : list road) :
  (∀ done r l l',
     r ∈ all → Q done l → relax c cur cd l r = Ok l' → Q (done ++ [r]) l') →
  ∀ rs done l l',
    (∀ r, r ∈ rs → r ∈ all) →
    Q done l → for_roads c cur cd rs l = Ok l' → Q (done ++ rs) l'.
Proof.
  intros Hstep. induction rs as [|r rs IH]; intros done l l' Hall HQ Hfor.
  - simpl in Hfor. simplify_eq. by rewrite app_nil_r.
  - simpl in Hfor. destruct (relax c cur cd l r) as [l1|] eqn:Hr; [|done].
    replace (done ++ r :: rs) with ((done ++ [r]) ++ rs)
      by (by rewrite <- app_assoc).
    apply (IH _ l1); [|eapply Hstep; eauto|done].
    + intros r' Hr'. apply Hall. by right.
    + apply Hall. by left.
Qed.

Lemma lt_num_false a dn :
  lt_num a dn = false → ∃ d, dn = Int d ∧ d ≤ a.
Proof. destruct dn as [|d]; simpl; [done|]. intros H. exists d. split; [done|lia]. Qed.

Lemma lt_num_true a d : lt_num a (Int d) = true → a < d.
Proof. simpl. lia. Qed.

(** ** Invariants of the [while] loop that hold for any weights *)

Section Solver.

Variables (g0 : adjacency) (s t c : Z).

(** Every road out of [u] has been tried with [u] at distance [d]. *)
Definition settled (l : locals) (u d : Z) : Prop :=
  ∀ r, r ∈ roads_of g0 u →
    ∃ dx, distances l !! neighbor_of r = Some (Int dx) ∧ dx ≤ d + weight c r.

Record ginv (l : locals) : Prop := mk_ginv {
  (* a heap entry is never below its node's recorded distance *)
  g_heap : ∀ d v, (d, v) ∈ heap l →
    ∃ d', distances l !! v = Some (Int d') ∧ d' ≤ d;
  (* a reached node still has its current entry in the heap, or is settled *)
  g_pending : ∀ u d, distances l !! u = Some (Int d) →
    (d, u) ∈ heap l ∨ settled l u d;
  g_start : ∃ d, distances l !! s = Some (Int d);
  g_reach : ∀ v d, distances l !! v = Some (Int d) → ∃ rs, walk g0 s v rs;
  g_dom : ∀ u, is_Some (distances l !! u) ↔ (is_Some (g0 !! u) ∨ u = s)
}.

(** The same, inside the [for] loop over the roads of [cur], popped with
    key [cd]; [done] are the roads handled so far. *)
Record gfor (cur cd : Z) (done : list road) (l : locals) : Prop := mk_gfor {
  f_heap : ∀ d v, (d, v) ∈ heap l →
    ∃ d', distances l !! v = Some (Int d') ∧ d' ≤ d;
  f_pending : ∀ u d, distances l !! u = Some (Int d) → (u, d) ≠ (cur, cd) →
    (d, u) ∈ heap l ∨ settled l u d;
  f_cur : ∃ dc, distances l !! cur = Some (Int dc) ∧ dc ≤ cd;
  f_done : ∀ r, r ∈ done →
    ∃ dx, distances l !! neighbor_of r = Some (Int dx) ∧ dx ≤ cd + weight c r;
  f_start : ∃ d, distances l !! s = Some (Int d);
  f_reach : ∀ v d, distances l !! v = Some (Int d) → ∃ rs, walk g0 s v rs;
  f_dom : ∀ u, is_Some (distances l !! u) ↔ (is_Some (g0 !! u) ∨ u = s)
}.

(** Lowering one distance keeps every [settled] fact. *)
Lemma settled_relaxed l cur x new tp u d dn :
  distances l !! x = Some dn → lt_num new dn = true →
  settled l u d → settled (relaxed l cur x new tp) u d.
Proof.
  intros Hdn Hlt Hset r Hr. destruct (Hset r Hr) as (dx & Hdx & Hle).
  simpl. destruct (decide (x = neighbor_of r)) as [->|Hne].
  - rewrite lookup_insert_eq. exists new. split; [done|].
    rewrite Hdx in Hdn. simplify_eq. apply lt_num_true in Hlt. lia.
  - rewrite lookup_insert_ne by done. eauto.
Qed.

Lemma gfor_relax cur cd done r l l' :
  r ∈ roads_of g0 cur →
  gfor cur cd done l → relax c cur cd l r = Ok l' → gfor cur cd (done ++ [r]) l'.
Proof.
  intros Hr [Hheap Hpend Hcur Hdone Hstart Hreach Hdom] Hrel.
  apply relax_Ok in Hrel as (_ & dn & Hdn & [[Hlt ->]|(Hlt & o & Ho & ->)]).
  - (* the road does not improve its neighbour *)
    split; try done.
    intros r' [Hr'|Hr']%elem_of_app; [by apply Hdone|].
    apply list_elem_of_singleton in Hr' as ->.
    apply lt_num_false in Hlt as (dx & -> & Hle). eauto.
  - (* the neighbour's distance is lowered and a fresh entry pushed *)
    set (x := neighbor_of r) in *. set (new := cd + weight c r) in *.
    assert (∀ u d, distances (relaxed l cur x new (add3 o (params_of r))) !! u
                   = Some (Int d) →
                   (u = x ∧ d = new) ∨ (u ≠ x ∧ distances l !! u = Some (Int d)))
      as Hcases.
    { intros u d. simpl. destruct (decide (x = u)) as [->|Hne].
      - rewrite lookup_insert_eq. intros [= <-]. by left.
      - rewrite lookup_insert_ne by done. intros Hu. right. by split. }
    assert (∀ u d, distances l !! u = Some (Int d) →
                   ∃ d', distances (relaxed l cur x new (add3 o (params_of r))) !! u
                         = Some (Int d') ∧ d' ≤ d) as Hmono.
    { intros u d Hu. simpl. destruct (decide (x = u)) as [->|Hne].
      - rewrite lookup_insert_eq. exists new. split; [done|].
        rewrite Hu in Hdn. simplify_eq. apply lt_num_true in Hlt. lia.
      - rewrite lookup_insert_ne by done. exists d. split; [done|lia]. }
    split.
    + intros d v [Hv|Hv]%elem_of_cons.
      * simplify_eq. simpl. rewrite lookup_insert_eq. exists new. split; [done|lia].
      * destruct (Hheap d v Hv) as (d' & Hd' & Hle).
        destruct (Hmono v d' Hd') as (d'' & Hd'' & Hle'). exists d''. split; [done|lia].
    + intros u d Hu Hne. destruct (Hcases u d Hu) as [[-> ->]|[Hux Hu']].
      * left. simpl. by left.
      * destruct (Hpend u d Hu' Hne) as [Hin|Hset].
        -- left. simpl. by right.
        -- right. by eapply settled_relaxed.
    + destruct Hcur as (dc & Hdc & Hle).
      destruct (Hmono cur dc Hdc) as (d' & Hd' & Hle'). exists d'. split; [done|lia].
    + intros r' [Hr'|Hr']%elem_of_app.
      * destruct (Hdone r' Hr') as (dx & Hdx & Hle).
        destruct (Hmono _ dx Hdx) as (d' & Hd' & Hle'). exists d'. split; [done|lia].
      * apply list_elem_of_singleton in Hr' as ->. fold x. simpl.
        rewrite lookup_insert_eq. exists new. split; [done|]. unfold new. lia.
    + destruct Hstart as (d & Hd). destruct (Hmono s d Hd) as (d' & Hd' & _). eauto.
    + intros v d Hv. destruct (Hcases v d Hv) as [[-> ->]|[Hvx Hv']]; [|eauto].
      destruct Hcur as (dc & Hdc & _). destruct (Hreach cur dc Hdc) as (rs & Hrs).
      exists (rs ++ [r]). subst x. by eapply walk_snoc.
    + intros u. rewrite <- Hdom. simpl. destruct (decide (x = u)) as [->|Hne].
      * rewrite lookup_insert_eq, Hdn. split; intros _; eauto.
      * by rewrite lookup_insert_ne.
Qed.

Lemma gfor_for_roads cur cd rs l l' :
  gfor cur cd [] l → for_roads c cur cd rs l = Ok l' →
  (∀ r, r ∈ rs → r ∈ roads_of g0 cur) → gfor cur cd rs l'.
Proof.
  intros Hl Hfor Hsub.
  apply (for_roads_ind c cur cd (gfor cur cd) (roads_of g0 cur)
           (fun done r l l' Hr => gfor_relax cur cd done r l l' Hr)
           rs [] l l' Hsub Hl Hfor).
Qed.

(** *** The whole pass *)

(** The adjacency map the loop carries is the initial one, except that a
    start node that was no key has been given an empty list. *)
Definition same_roads (g : adjacency) : Prop :=
  g = g0 ∨ (g0 !! s = None ∧ g = <[s := []]> g0).

Lemma same_roads_of g u : same_roads g → roads_of g u = roads_of g0 u.
Proof.
  intros [->|[Hs ->]]; [done|]. unfold roads_of.
  destruct (decide (s = u)) as [->|Hne].
  - by rewrite lookup_insert_eq, Hs.
  - by rewrite lookup_insert_ne.
Qed.

Lemma defaultdict_same g cur g' roads :
  same_roads g → is_Some (g0 !! cur) ∨ cur = s →
  defaultdict_getitem g cur = (g', roads) →
  same_roads g' ∧ roads = roads_of g0 cur.
Proof.
  intros Hg Hcur. unfold defaultdict_getitem.
  pose proof (same_roads_of g cur Hg) as Hroads. unfold roads_of in Hroads.
  destruct (g !! cur) as [rs|] eqn:Hlook; intros [= <- <-].
  - split; [done|]. unfold roads_of. by rewrite <- Hroads.
  - split; [|unfold roads_of; by rewrite <- Hroads].
    destruct Hg as [->|[Hs ->]].
    + destruct Hcur as [[rs Hrs]| ->]; [congruence|]. right. by split.
    + destruct (decide (s = cur)) as [->|Hne].
      * by rewrite lookup_insert_eq in Hlook.
      * rewrite lookup_insert_ne in Hlook by done.
        destruct Hcur as [[rs Hrs]| ->]; congruence.
Qed.

Lemma ginv_init : ginv (init_locals g0 s).
Proof.
  split; unfold init_locals; simpl.
  - intros d v [= -> ->]%list_elem_of_singleton. rewrite lookup_insert_eq.
    exists 0. split; [done|lia].
  - intros u d. destruct (decide (s = u)) as [->|Hne].
    + rewrite lookup_insert_eq. intros [= <-]. left. by left.
    + rewrite lookup_insert_ne, lookup_fmap by done.
      by destruct (g0 !! u).
  - exists 0. by rewrite lookup_insert_eq.
  - intros v d. destruct (decide (s = v)) as [->|Hne].
    + intros _. exists []. constructor.
    + rewrite lookup_insert_ne, lookup_fmap by done. by destruct (g0 !! v).
  - intros u. destruct (decide (s = u)) as [->|Hne].
    + rewrite lookup_insert_eq. split; eauto.
    + rewrite lookup_insert_ne, lookup_fmap by done.
      rewrite fmap_is_Some. split; [by left|]. by intros [?|?].
Qed.

(** A popped entry that is not stale carries its node's distance. *)
Lemma popped_current l cd cur h dc :
  ginv l → heappop (heap l) = Some ((cd, cur), h) →
  distances l !! cur = Some dc → gt_num cd dc = false → dc = Int cd.
Proof.
  intros Hinv Hpop Hdc Hgt. apply heappop_Some in Hpop as [Hperm _].
  destruct (g_heap l Hinv cd cur) as (d' & Hd' & Hle).
  { rewrite Hperm. by left. }
  rewrite Hdc in Hd'. simplify_eq. simpl in Hgt. f_equal. lia.
Qed.

Lemma ginv_skip l cd cur h dc :
  ginv l → heappop (heap l) = Some ((cd, cur), h) →
  distances l !! cur = Some dc → gt_num cd dc = true →
  ginv (with_heap l h).
Proof.
  intros [Hheap Hpend Hstart Hreach Hdom] Hpop Hdc Hgt.
  apply heappop_Some in Hpop as [Hperm _].
  split; simpl; try done.
  - intros d v Hv. apply Hheap. rewrite Hperm. by right.
  - intros u d Hu. destruct (Hpend u d Hu) as [Hin|Hset]; [left|by right].
    rewrite Hperm in Hin. apply elem_of_cons in Hin as [Heq|Hin]; [|done].
    simplify_eq. simpl in Hgt. lia.
Qed.

Lemma gfor_start l cd cur h :
  ginv l → heappop (heap l) = Some ((cd, cur), h) →
  distances l !! cur = Some (Int cd) →
  gfor cur cd [] (with_heap l h).
Proof.
  intros [Hheap Hpend Hstart Hreach Hdom] Hpop Hdc.
  apply heappop_Some in Hpop as [Hperm _].
  split; simpl; try done.
  - intros d v Hv. apply Hheap. rewrite Hperm. by right.
  - intros u d Hu Hne. destruct (Hpend u d Hu) as [Hin|Hset]; [left|by right].
    rewrite Hperm in Hin. apply elem_of_cons in Hin as [Heq|Hin]; [|done].
    by simplify_eq.
  - exists cd. split; [done|lia].
  - by intros r Hr%elem_of_nil.
Qed.

Lemma gfor_finish l cd cur :
  gfor cur cd (roads_of g0 cur) l → ginv l.
Proof.
  intros [Hheap Hpend Hcur Hdone Hstart Hreach Hdom]. split; try done.
  intros u d Hu. destruct (decide ((u, d) = (cur, cd))) as [Heq|Hne]; [|eauto].
  simplify_eq. right. exact Hdone.
Qed.

(** A pass that goes round again keeps the invariant. *)
Lemma iteration_Next g l g' l' :
  ginv l → same_roads g → iteration t c g l = Next g' l' →
  ginv l' ∧ same_roads g'.
Proof.
  intros Hinv Hg. unfold iteration.
  destruct (heappop (heap l)) as [[[cd cur] h]|] eqn:Hpop; [|done].
  unfold getitem. destruct (distances l !! cur) as [dc|] eqn:Hdc; [|done].
  destruct (gt_num cd dc) eqn:Hgt.
  - intros [= <- <-]. split; [by eapply ginv_skip|done].
  - destruct (cur =? t); [done|].
    destruct (defaultdict_getitem g cur) as [g1 roads] eqn:Hdd.
    apply defaultdict_same in Hdd as [Hg1 ->]; [|done|].
    2:{ apply (g_dom l Hinv). by rewrite Hdc. }
    destruct (for_roads _ _ _ _ _) as [l2|] eqn:Hfor; [|done].
    intros [= <- <-]. split; [|done].
    pose proof (popped_current l cd cur h dc Hinv Hpop Hdc Hgt) as ->.
    eapply gfor_finish, gfor_for_roads; [by eapply gfor_start|done..].
Qed.

(** With nothing left in the heap, whatever a walk from a reached node
    leads to has been reached. *)
Lemma closed_under_roads l u v rs :
  ginv l → heap l = [] → walk g0 u v rs →
  (∃ d, distances l !! u = Some (Int d)) → ∃ d, distances l !! v = Some (Int d).
Proof.
  intros Hinv Hempty. induction 1 as [u|u v r rs Hr _ IH]; [done|].
  intros [d Hd]. apply IH.
  destruct (g_pending l Hinv u d Hd) as [Hin|Hset].
  - rewrite Hempty in Hin. by apply elem_of_nil in Hin.
  - destruct (Hset r Hr) as (dx & Hdx & _). eauto.
Qed.

(** What the loop establishes about the target, whatever the weights:
    it has a finite distance exactly when some walk leads to it. *)
Definition reached (l : locals) : Prop :=
  (∃ d, distances l !! t = Some (Int d)) ↔ (∃ rs, walk g0 s t rs).

Lemma iteration_Stop g l g' l' :
  ginv l → same_roads g → iteration t c g l = Stop g' l' →
  reached l' ∧ same_roads g'.
Proof.
  intros Hinv Hg. unfold iteration.
  destruct (heappop (heap l)) as [[[cd cur] h]|] eqn:Hpop.
  - unfold getitem. destruct (distances l !! cur) as [dc|] eqn:Hdc; [|done].
    destruct (gt_num cd dc) eqn:Hgt; [done|].
    destruct (cur =? t) eqn:Heq.
    + intros [= <- <-]. split; [|done]. apply Z.eqb_eq in Heq as ->.
      pose proof (popped_current l cd t h dc Hinv Hpop Hdc Hgt) as ->.
      split; [|by eauto]. intros _. by eapply (g_reach l Hinv).
    + destruct (defaultdict_getitem g cur) as [g1 roads].
      by destruct (for_roads _ _ _ _ _).
  - intros [= <- <-]. split; [|done]. split.
    + intros [d Hd]. by eapply (g_reach l Hinv).
    + intros [rs Hrs]. eapply closed_under_roads; [done| |done|].
      * by apply heappop_None.
      * apply (g_start l Hinv).
Qed.

Lemma while_heap_reached fuel g l g' l' :
  ginv l → same_roads g → while_heap fuel t c g l = Some (Stop g' l') →
  reached l' ∧ same_roads g'.
Proof.
  revert g l. induction fuel as [|fuel IH]; intros g l Hinv Hg; [done|].
  simpl. destruct (iteration t c g l) as [g1 l1|g1 l1|g1 e] eqn:Hit.
  - apply iteration_Next in Hit as [Hinv1 Hg1]; [|done..]. by apply IH.
  - intros [= <- <-]. by eapply iteration_Stop.
  - done.
Qed.

(** ** Invariants that rest on non-negative weights *)

Hypothesis nonneg : ∀ u r, r ∈ roads_of g0 u → 0 ≤ weight c r.

Lemma walk_nonneg u v rs : walk g0 u v rs → 0 ≤ sum_w c rs.
Proof.
  induction 1 as [u|u v r rs Hr _ IH]; [done|].
  rewrite sum_w_cons. pose proof (nonneg u r Hr). lia.
Qed.

(** Along a walk from a reached node, either the end is reached within the
    walk's weight or an entry no larger than that is still in the heap. *)
Lemma walk_bound l u v rs du :
  ginv l → walk g0 u v rs → distances l !! u = Some (Int du) →
  (∃ dv, distances l !! v = Some (Int dv) ∧ dv ≤ du + sum_w c rs) ∨
  (∃ d x, (d, x) ∈ heap l ∧ d ≤ du + sum_w c rs).
Proof.
  intros Hinv Hwalk. revert du.
  induction Hwalk as [u|u v r rs Hr Hrs IH]; intros du Hdu.
  - left. exists du. split; [done|]. unfold sum_w. simpl. lia.
  - rewrite sum_w_cons. pose proof (walk_nonneg _ _ _ Hrs) as Hpos.
    pose proof (nonneg u r Hr) as Hw.
    destruct (g_pending l Hinv u du Hdu) as [Hin|Hset].
    + right. exists du, u. split; [done|lia].
    + destruct (Hset r Hr) as (dx & Hdx & Hle).
      destruct (IH dx Hdx) as [(dv & Hdv & Hle')|(d & x & Hin & Hle')].
      * left. exists dv. split; [done|lia].
      * right. exists d, x. split; [done|lia].
Qed.

(** [tree b l v rs]: following [prev] back from [v] runs through the
    roads [rs] of a walk from the start, along which [distances] and
    [total_params] hold the running sums; every node before [v] on it has a
    distance of at most [b]. *)
Inductive tree (b : Z) (l : locals) : Z → list road → Prop :=
| tree_root :
    distances l !! s = Some (Int 0) →
    total_params l !! s = Some (0, 0, 0) →
    (∀ u, prev l !! s ≠ Some (Some u)) →
    tree b l s []
| tree_step u r rs :
    tree b l u rs →
    sum_w c rs ≤ b →
    r ∈ roads_of g0 u →
    neighbor_of r ∉ vertices s rs →
    prev l !! neighbor_of r = Some (Some u) →
    distances l !! neighbor_of r = Some (Int (sum_w c rs + weight c r)) →
    total_params l !! neighbor_of r = Some (add3 (sum3 rs) (params_of r)) →
    tree b l (neighbor_of r) (rs ++ [r]).

Lemma tree_distance b l v rs :
  tree b l v rs → distances l !! v = Some (Int (sum_w c rs)).
Proof. destruct 1; [done|]. by rewrite sum_w_snoc. Qed.

Lemma tree_totals b l v rs :
  tree b l v rs → total_params l !! v = Some (sum3 rs).
Proof. destruct 1; [done|]. by rewrite sum3_snoc. Qed.

Lemma tree_walk b l v rs : tree b l v rs → walk g0 s v rs.
Proof. induction 1; [apply walk_nil|by eapply walk_snoc]. Qed.

Lemma tree_NoDup b l v rs : tree b l v rs → NoDup (vertices s rs).
Proof.
  induction 1 as [|u r rs _ IH _ _ Hnew _ _ _].
  - apply NoDup_singleton.
  - rewrite vertices_snoc. apply NoDup_app. split; [done|]. split.
    + intros x Hx ->%list_elem_of_singleton. done.
    + apply NoDup_singleton.
Qed.

(** Every node on the way to [v], other than [v], is at most [b] away. *)
Lemma tree_low b l v rs u :
  tree b l v rs → u ∈ vertices s rs →
  u = v ∨ ∃ du, distances l !! u = Some (Int du) ∧ du ≤ b.
Proof.
  induction 1 as [|p r rs Hp IH Hle _ _ _ _ _].
  - intros ->%list_elem_of_singleton. by left.
  - rewrite vertices_snoc.
    intros [Hu|Hu%list_elem_of_singleton]%elem_of_app; [|by left].
    right. destruct (IH Hu) as [->|Hlow]; [|done].
    exists (sum_w c rs). split; [by eapply tree_distance|done].
Qed.

Lemma tree_mono b b' l v rs : b ≤ b' → tree b l v rs → tree b' l v rs.
Proof.
  intros Hb. induction 1; [by constructor|].
  eapply tree_step; eauto. lia.
Qed.

(** A tree only reads the locals at its own nodes. *)
Lemma tree_frame b l l' v rs :
  tree b l v rs →
  (∀ u, u = v ∨ (∃ du, distances l !! u = Some (Int du) ∧ du ≤ b) →
        distances l' !! u = distances l !! u ∧
        prev l' !! u = prev l !! u ∧
        total_params l' !! u = total_params l !! u) →
  tree b l' v rs.
Proof.
  induction 1 as [|p r rs Hp IH Hle Hr Hnew HP HD HT]; intros Hsame.
  - destruct (Hsame s) as (HD' & HP' & HT'); [by left|].
    constructor; congruence.
  - destruct (Hsame (neighbor_of r)) as (HD' & HP' & HT'); [by left|].
    eapply tree_step; eauto; [|congruence..].
    apply IH. intros u [->|Hlow]; apply Hsame; right; [|done].
    exists (sum_w c rs). split; [by eapply tree_distance|done].
Qed.

Record ninv (b : Z) (l : locals) : Prop := mk_ninv {
  n_nodup : NoDup (heap l);
  (* [b] is below every key in the heap *)
  n_floor : ∀ d v, (d, v) ∈ heap l → b ≤ d;
  n_pos : 0 ≤ b;
  (* a reached node whose current entry has left the heap is final *)
  n_done : ∀ u d, distances l !! u = Some (Int d) → (d, u) ∉ heap l → d ≤ b;
  n_tree : ∀ v d, distances l !! v = Some (Int d) → ∃ rs, tree b l v rs;
  n_start : distances l !! s = Some (Int 0);
  n_prev : ∀ u, is_Some (g0 !! u) → is_Some (prev l !! u)
}.

(** The same inside the [for] loop entered with the locals [l1]. *)
Record nfor (cur cd : Z) (l1 : locals) (done : list road) (l : locals)
  : Prop := mk_nfor {
  nf_nodup : NoDup (heap l);
  nf_floor : ∀ d v, (d, v) ∈ heap l → cd ≤ d;
  nf_pos : 0 ≤ cd;
  nf_done : ∀ u d, distances l !! u = Some (Int d) → (d, u) ∉ heap l → d ≤ cd;
  nf_tree : ∀ v d, distances l !! v = Some (Int d) → ∃ rs, tree cd l v rs;
  nf_start : distances l !! s = Some (Int 0);
  nf_prev : ∀ u, is_Some (g0 !! u) → is_Some (prev l !! u);
  nf_cur : distances l !! cur = Some (Int cd);
  (* at most one push per road *)
  nf_len : (length (heap l) ≤ length (heap l1) + length done)%nat;
  (* nodes at most [cd] away are left alone, and are not pushed *)
  nf_low : ∀ u d, distances l1 !! u = Some (Int d) → d ≤ cd →
    distances l !! u = Some (Int d);
  nf_push : ∀ d u, (d, u) ∈ heap l →
    (d, u) ∈ heap l1 ∨ (∀ d', distances l1 !! u = Some (Int d') → cd < d')
}.

Lemma nfor_relax cur cd l1 done r l l' :
  r ∈ roads_of g0 cur →
  gfor cur cd done l → nfor cur cd l1 done l →
  relax c cur cd l r = Ok l' → nfor cur cd l1 (done ++ [r]) l'.
Proof.
  intros Hr Hg [Hnodup Hfloor Hpos Hdone Htree Hstart Hprev Hcur Hlen Hlow Hpush] Hrel.
  apply relax_Ok in Hrel as (_ & dn & Hdn & [[Hlt ->]|(Hlt & o & Ho & ->)]).
  { split; try done. rewrite length_app. simpl. lia. }
  set (x := neighbor_of r) in *. set (new := cd + weight c r) in *.
  pose proof (nonneg cur r Hr) as Hw.
  (* nodes at most [cd] away are not the relaxed node *)
  assert (∀ u du, distances l !! u = Some (Int du) → du ≤ cd → u ≠ x) as Hfrozen.
  { intros u du Hu Hle ->. rewrite Hu in Hdn. simplify_eq.
    apply lt_num_true in Hlt. lia. }
  assert (∀ u, u ≠ x →
            distances (relaxed l cur x new (add3 o (params_of r))) !! u
            = distances l !! u ∧
            prev (relaxed l cur x new (add3 o (params_of r))) !! u
            = prev l !! u ∧
            total_params (relaxed l cur x new (add3 o (params_of r))) !! u
            = total_params l !! u) as Hother.
  { intros u Hu. simpl. by rewrite !lookup_insert_ne. }
  split; simpl; try done.
  - apply NoDup_cons. split; [|done]. intros Hin.
    destruct (f_heap _ _ _ _ Hg new x Hin) as (d' & Hd' & Hle).
    rewrite Hd' in Hdn. simplify_eq. apply lt_num_true in Hlt. lia.
  - intros d v [Hv|Hv]%elem_of_cons; [|by eapply Hfloor]. simplify_eq. lia.
  - intros u d Hu Hnin. apply not_elem_of_cons in Hnin as [Hne Hnin].
    destruct (decide (x = u)) as [<-|Hux].
    + rewrite lookup_insert_eq in Hu. by simplify_eq.
    + rewrite lookup_insert_ne in Hu by done. by eapply Hdone.
  - intros v d Hv. destruct (decide (x = v)) as [<-|Hvx].
    + destruct (Htree cur cd Hcur) as (rs & Hrs).
      pose proof (tree_distance _ _ _ _ Hrs) as Hsum.
      pose proof (tree_totals _ _ _ _ Hrs) as Htot.
      rewrite Hcur in Hsum. rewrite Ho in Htot. simplify_eq.
      exists (rs ++ [r]). eapply tree_step.
      * eapply tree_frame; [done|]. intros u Hu. apply Hother.
        destruct Hu as [->|(du & Hdu & Hle)]; [|by eapply Hfrozen].
        eapply Hfrozen; [done|lia].
      * lia.
      * done.
      * fold x. intros Hin.
        destruct (tree_low _ _ _ _ x Hrs Hin) as [->|(du & Hdu & Hle)].
        -- by eapply (Hfrozen cur).
        -- by eapply (Hfrozen x).
      * fold x. simpl. by rewrite lookup_insert_eq.
      * fold x. simpl. rewrite lookup_insert_eq. done.
      * fold x. simpl. by rewrite lookup_insert_eq.
    + rewrite lookup_insert_ne in Hv by done.
      destruct (Htree v d Hv) as (rs & Hrs). exists rs.
      eapply tree_frame; [done|]. intros u Hu. apply Hother.
      destruct Hu as [->|(du & Hdu & Hle)]; [done|by eapply Hfrozen].
  - rewrite lookup_insert_ne; [done|]. apply not_eq_sym. by eapply Hfrozen.
  - intros u Hu. destruct (decide (x = u)) as [<-|Hux].
    + by rewrite lookup_insert_eq.
    + rewrite lookup_insert_ne by done. by apply Hprev.
  - rewrite lookup_insert_ne; [done|]. apply not_eq_sym.
    eapply Hfrozen; [done|lia].
  - rewrite length_app. simpl. lia.
  - intros u d Hu Hle. rewrite lookup_insert_ne; [by apply Hlow|].
    apply not_eq_sym. eapply Hfrozen; [by apply Hlow|done].
  - intros d u [Hu|Hu]%elem_of_cons; [|by apply Hpush]. simplify_eq.
    right. intros d' Hd'. destruct (decide (d' ≤ cd)) as [Hle|]; [|lia].
    exfalso. by eapply (Hfrozen x d'); [apply Hlow|..].
Qed.

Lemma tree_with_heap b l h v rs : tree b l v rs → tree b (with_heap l h) v rs.
Proof. intros Htree. by eapply tree_frame. Qed.

Lemma ninv_init : ninv 0 (init_locals g0 s).
Proof.
  split; unfold init_locals; simpl.
  - apply NoDup_singleton.
  - by intros d v [= -> ->]%list_elem_of_singleton.
  - done.
  - intros u d. destruct (decide (s = u)) as [->|Hne].
    + rewrite lookup_insert_eq. intros [= <-] Hnin. exfalso. apply Hnin. by left.
    + rewrite lookup_insert_ne, lookup_fmap by done. by destruct (g0 !! u).
  - intros v d. destruct (decide (s = v)) as [<-|Hne].
    + intros _. exists []. constructor; simpl.
      * by rewrite lookup_insert_eq.
      * by rewrite lookup_insert_eq.
      * intros u. rewrite lookup_fmap. by destruct (g0 !! s).
    + rewrite lookup_insert_ne, lookup_fmap by done. by destruct (g0 !! v).
  - by rewrite lookup_insert_eq.
  - intros u [rs Hrs]. rewrite lookup_fmap, Hrs. by eexists.
Qed.

Lemma ninv_skip b l cd cur h dc :
  ninv b l → heappop (heap l) = Some ((cd, cur), h) →
  distances l !! cur = Some dc → gt_num cd dc = true →
  ninv b (with_heap l h).
Proof.
  intros [Hnodup Hfloor Hpos Hdone Htree Hstart Hprev] Hpop Hdc Hgt.
  apply heappop_Some in Hpop as [Hperm _].
  assert (∀ e, e ∈ h → e ∈ heap l) as Hsub.
  { intros e He. rewrite Hperm. by right. }
  split; simpl; try done.
  - rewrite Hperm in Hnodup. by apply NoDup_cons in Hnodup as [_ ?].
  - intros d v Hv. by apply (Hfloor d v), Hsub.
  - intros u d Hu Hnin. apply (Hdone u d); [done|]. rewrite Hperm.
    apply not_elem_of_cons. split; [|done]. intros [= -> ->].
    rewrite Hu in Hdc. simplify_eq. simpl in Hgt. lia.
  - intros v d Hv. destruct (Htree v d Hv) as (rs & Hrs).
    exists rs. by apply tree_with_heap.
Qed.

Lemma nfor_start b l cd cur h :
  ninv b l → heappop (heap l) = Some ((cd, cur), h) →
  distances l !! cur = Some (Int cd) →
  nfor cur cd (with_heap l h) [] (with_heap l h).
Proof.
  intros [Hnodup Hfloor Hpos Hdone Htree Hstart Hprev] Hpop Hdc.
  apply heappop_Some in Hpop as [Hperm Hleast].
  assert (b ≤ cd) as Hb.
  { apply (Hfloor cd cur). rewrite Hperm. by left. }
  split; simpl; try done.
  - rewrite Hperm in Hnodup. by apply NoDup_cons in Hnodup as [_ ?].
  - intros d v Hv. apply (Hleast (d, v)). rewrite Hperm. by right.
  - lia.
  - intros u d Hu Hnin. destruct (decide ((d, u) = (cd, cur))) as [Heq|Hne].
    + simplify_eq. lia.
    + etrans; [|exact Hb]. apply (Hdone u d Hu). rewrite Hperm.
      by apply not_elem_of_cons.
  - intros v d Hv. destruct (Htree v d Hv) as (rs & Hrs).
    exists rs. by eapply tree_with_heap, tree_mono.
  - lia.
  - by left.
Qed.

Lemma nfor_finish cur cd l1 done l : nfor cur cd l1 done l → ninv cd l.
Proof. intros []. by split. Qed.

Lemma nfor_for_roads cur cd l1 rs l l' :
  gfor cur cd [] l → nfor cur cd l1 [] l →
  for_roads c cur cd rs l = Ok l' →
  (∀ r, r ∈ rs → r ∈ roads_of g0 cur) →
  gfor cur cd rs l' ∧ nfor cur cd l1 rs l'.
Proof.
  intros Hg Hn Hfor Hsub.
  apply (for_roads_ind c cur cd
           (fun done l => gfor cur cd done l ∧ nfor cur cd l1 done l)
           (roads_of g0 cur)) with (rs := rs) (done := []) (l := l); try done.
  intros done r l2 l3 Hr [Hg2 Hn2] Hrel. split.
  - by eapply gfor_relax.
  - by eapply nfor_relax.
Qed.

(** The loop invariant under non-negative weights. *)
Definition inv (l : locals) : Prop := ginv l ∧ ∃ b, ninv b l.

Lemma inv_init : inv (init_locals g0 s).
Proof. split; [apply ginv_init|]. exists 0. apply ninv_init. Qed.

(** What one pass does, case by case. *)
Lemma iteration_cases g l :
  ginv l → same_roads g →
  match heappop (heap l) with
  | None => iteration t c g l = Stop g l
  | Some ((cd, cur), h) =>
      ∃ d', distances l !! cur = Some (Int d') ∧ d' ≤ cd ∧
        if decide (d' < cd) then iteration t c g l = Next g (with_heap l h)
        else if decide (cur = t) then iteration t c g l = Stop g (with_heap l h)
        else ∃ g', same_roads g' ∧
          iteration t c g l =
            match for_roads c cur cd (roads_of g0 cur) (with_heap l h) with
            | Ok l2 => Next g' l2
            | Raise e => Abort g' e
            end
  end.
Proof.
  intros Hinv Hg. unfold iteration.
  destruct (heappop (heap l)) as [[[cd cur] h]|] eqn:Hpop; [|done].
  pose proof Hpop as [Hperm _]%heappop_Some.
  destruct (g_heap l Hinv cd cur) as (d' & Hd' & Hle).
  { rewrite Hperm. by left. }
  exists d'. split; [done|]. split; [done|].
  unfold getitem. rewrite Hd'. simpl.
  destruct (decide (d' < cd)) as [Hlt|Hge].
  - by rewrite (proj2 (Z.ltb_lt d' cd) Hlt).
  - rewrite (proj2 (Z.ltb_ge d' cd)) by lia.
    destruct (decide (cur = t)) as [->|Hne].
    + by rewrite Z.eqb_refl.
    + rewrite (proj2 (Z.eqb_neq cur t) Hne).
      destruct (defaultdict_getitem g cur) as [g1 roads] eqn:Hdd.
      apply defaultdict_same in Hdd as [Hg1 ->]; [|done|].
      2:{ apply (g_dom l Hinv). by rewrite Hd'. }
      by exists g1.
Qed.

Lemma iteration_inv g l g' l' :
  inv l → same_roads g → iteration t c g l = Next g' l' → inv l'.
Proof.
  intros [Hg [b Hn]] Hsame Hit.
  split; [by eapply iteration_Next|].
  pose proof (iteration_cases g l Hg Hsame) as Hcases.
  destruct (heappop (heap l)) as [[[cd cur] h]|] eqn:Hpop; [|congruence].
  destruct Hcases as (d' & Hd' & Hle & Hcases).
  destruct (decide (d' < cd)) as [Hlt|Hge].
  - rewrite Hit in Hcases. simplify_eq. exists b.
    eapply ninv_skip; [done..|]. simpl. lia.
  - destruct (decide (cur = t)) as [->|Hne]; [congruence|].
    destruct Hcases as (g1 & Hg1 & Hcases). rewrite Hit in Hcases.
    destruct (for_roads _ _ _ _ _) as [l2|] eqn:Hfor; [|done]. simplify_eq.
    assert (d' = cd) as -> by lia.
    exists cd. eapply nfor_finish, nfor_for_roads; [| |done|done].
    + by eapply gfor_start.
    + by eapply nfor_start.
Qed.

(** What the loop establishes when it stops: the distance recorded for
    the target is at most the weight of any walk to it, and every reached
    node has its tree. *)
Record post (l : locals) : Prop := mk_post {
  p_reached : reached l;
  p_least : ∀ rs, walk g0 s t rs →
    ∃ d, distances l !! t = Some (Int d) ∧ d ≤ sum_w c rs;
  p_tree : ∀ v d, distances l !! v = Some (Int d) → ∃ b rs, tree b l v rs;
  p_prev : ∀ u, is_Some (g0 !! u) → is_Some (prev l !! u);
  p_dom : ∀ u, is_Some (distances l !! u) ↔ (is_Some (g0 !! u) ∨ u = s)
}.

Lemma iteration_post g l g' l' :
  inv l → same_roads g → iteration t c g l = Stop g' l' →
  post l' ∧ same_roads g'.
Proof.
  intros [Hg [b Hn]] Hsame Hit.
  destruct (iteration_Stop g l g' l' Hg Hsame Hit) as [Hreached Hg'].
  split; [|done].
  assert (∀ rs, walk g0 s t rs →
            (∃ dv, distances l !! t = Some (Int dv) ∧ dv ≤ sum_w c rs) ∨
            (∃ d x, (d, x) ∈ heap l ∧ d ≤ sum_w c rs)) as Hbound.
  { intros rs Hrs.
    destruct (walk_bound l s t rs 0 Hg Hrs (n_start b l Hn))
      as [(dv & Hdv & Hle)|(d & x & Hin & Hle)].
    - left. exists dv. split; [done|lia].
    - right. exists d, x. split; [done|lia]. }
  pose proof (iteration_cases g l Hg Hsame) as Hcases.
  destruct (heappop (heap l)) as [[[cd cur] h]|] eqn:Hpop.
  - destruct Hcases as (d' & Hd' & Hle & Hcases).
    destruct (decide (d' < cd)) as [Hlt|Hge]; [congruence|].
    destruct (decide (cur = t)) as [->|Hne].
    + rewrite Hit in Hcases. simplify_eq.
      apply heappop_Some in Hpop as [Hperm Hleast].
      split; simpl; try done.
      * intros rs Hrs. exists d'. split; [done|].
        destruct (Hbound rs Hrs) as [(dv & Hdv & Hle')|(d & x & Hin & Hle')].
        -- by simplify_eq.
        -- pose proof (Hleast (d, x) Hin). simpl in *. lia.
      * intros v d Hv. destruct (n_tree b l Hn v d Hv) as (rs & Hrs).
        exists b, rs. by apply tree_with_heap.
      * apply (n_prev b l Hn).
      * apply (g_dom l Hg).
    + destruct Hcases as (g1 & Hg1 & Hcases). rewrite Hit in Hcases.
      by destruct (for_roads _ _ _ _ _).
  - rewrite Hit in Hcases. simplify_eq.
    apply heappop_None in Hpop.
    split; try done.
    + intros rs Hrs.
      destruct (Hbound rs Hrs) as [?|(d & x & Hin & Hle')]; [done|].
      rewrite Hpop in Hin. by apply elem_of_nil in Hin.
    + intros v d Hv. destruct (n_tree b l Hn v d Hv) as (rs & Hrs). eauto.
    + apply (n_prev b l Hn).
    + apply (g_dom l Hg).
Qed.

Lemma while_heap_post fuel g l g' l' :
  inv l → same_roads g → while_heap fuel t c g l = Some (Stop g' l') →
  post l' ∧ same_roads g'.
Proof.
  revert g l. induction fuel as [|fuel IH]; intros g l Hinv Hg; [done|].
  simpl. destruct (iteration t c g l) as [g1 l1|g1 l1|g1 e] eqn:Hit.
  - apply IH; [by eapply iteration_inv|].
    by eapply iteration_Next; [apply Hinv|..].
  - intros [= <- <-]. by eapply iteration_post.
  - done.
Qed.

(** ** Termination and absence of exceptions *)

Hypothesis criterion_ok : 0 ≤ c ≤ 2.
Hypothesis closed : ∀ u r, r ∈ roads_of g0 u → is_Some (g0 !! neighbor_of r).

(** A node is done when it is reached and its current entry has been
    popped; the roads of the others may still cause a push each. *)
Definition is_done (l : locals) (u : Z) : bool :=
  match distances l !! u with
  | Some (Int d) => bool_decide ((d, u) ∉ heap l)
  | _ => false
  end.

Definition pending (l : locals) (u : Z) : nat :=
  if is_done l u then 0%nat else length (roads_of g0 u).

(** Bounds the number of passes left. *)
Definition potential (l : locals) : nat :=
  (length (heap l) + sum_list_with (pending l) (elements (dom g0)))%nat.

Lemma sum_list_with_mono (f f' : Z → nat) (us : list Z) :
  (∀ u, (f' u ≤ f u)%nat) → (sum_list_with f' us ≤ sum_list_with f us)%nat.
Proof.
  intros Hle. induction us as [|u us IH]; simpl; [done|].
  pose proof (Hle u). lia.
Qed.

Lemma sum_list_with_drop (f f' : Z → nat) (x : Z) (k : nat) (us : list Z) :
  (∀ u, (f' u ≤ f u)%nat) → (f' x + k ≤ f x)%nat → (x ∉ us → k = 0%nat) →
  (sum_list_with f' us + k ≤ sum_list_with f us)%nat.
Proof.
  intros Hle Hx. induction us as [|u us IH]; intros Hk; simpl.
  - rewrite Hk; [done|]. by intros ?%elem_of_nil.
  - destruct (decide (x = u)) as [<-|Hne].
    + pose proof (sum_list_with_mono f f' us Hle). lia.
    + pose proof (Hle u). cut (sum_list_with f' us + k ≤ sum_list_with f us)%nat; [lia|].
      apply IH. intros Hnin. apply Hk. by apply not_elem_of_cons.
Qed.

Lemma is_done_true l u :
  is_done l u = true ↔ ∃ d, distances l !! u = Some (Int d) ∧ (d, u) ∉ heap l.
Proof.
  unfold is_done. destruct (distances l !! u) as [[|d]|]; split;
    try done; try by intros (? & ? & ?).
  - intros ?%bool_decide_eq_true. eauto.
  - intros (d' & [= <-] & Hnin). by apply bool_decide_eq_true.
Qed.

Lemma potential_skip l e h :
  heappop (heap l) = Some (e, h) → (potential (with_heap l h) < potential l)%nat.
Proof.
  intros [Hperm _]%heappop_Some. unfold potential. simpl.
  rewrite (Permutation_length Hperm). simpl.
  cut (sum_list_with (pending (with_heap l h)) (elements (dom g0))
       ≤ sum_list_with (pending l) (elements (dom g0)))%nat; [lia|].
  apply sum_list_with_mono. intros u. unfold pending.
  destruct (is_done l u) eqn:Hdone; [|destruct (is_done (with_heap l h) u); lia].
  apply is_done_true in Hdone as (d & Hd & Hnin).
  rewrite (proj2 (is_done_true (with_heap l h) u)); [done|].
  exists d. split; [done|]. simpl. intros Hin. apply Hnin.
  rewrite Hperm. by right.
Qed.

Lemma potential_process b l cd cur h l2 :
  ninv b l → heappop (heap l) = Some ((cd, cur), h) →
  distances l !! cur = Some (Int cd) →
  nfor cur cd (with_heap l h) (roads_of g0 cur) l2 →
  (potential l2 < potential l)%nat.
Proof.
  intros Hn [Hperm _]%heappop_Some Hcur Hfor. unfold potential.
  rewrite (Permutation_length Hperm). simpl.
  pose proof (nf_len _ _ _ _ _ Hfor) as Hlen. simpl in Hlen.
  cut (sum_list_with (pending l2) (elements (dom g0))
       + length (roads_of g0 cur)
       ≤ sum_list_with (pending l) (elements (dom g0)))%nat; [lia|].
  assert (b ≤ cd) as Hb.
  { apply (n_floor b l Hn cd cur). rewrite Hperm. by left. }
  assert (∀ u d, distances l !! u = Some (Int d) → d ≤ cd → (d, u) ∉ h →
            is_done l2 u = true) as Hkeep.
  { intros u d Hu Hle Hnin. apply is_done_true. exists d. split.
    - by apply (nf_low _ _ _ _ _ Hfor).
    - intros Hin. destruct (nf_push _ _ _ _ _ Hfor d u Hin) as [?|Hout]; [done|].
      specialize (Hout d Hu). lia. }
  apply (sum_list_with_drop _ _ cur).
  - intros u. unfold pending.
    destruct (is_done l u) eqn:Hdone; [|destruct (is_done l2 u); lia].
    apply is_done_true in Hdone as (d & Hd & Hnin).
    rewrite (Hkeep u d); [done|done| |].
    + pose proof (n_done b l Hn u d Hd Hnin). lia.
    + intros Hin. apply Hnin. rewrite Hperm. by right.
  - unfold pending. rewrite (Hkeep cur cd); [|done|lia|].
    + destruct (is_done l cur) eqn:Hdone; [|simpl; lia].
      apply is_done_true in Hdone as (d & Hd & Hnin). simplify_eq.
      exfalso. apply Hnin. rewrite Hperm. by left.
    + pose proof (n_nodup b l Hn) as Hnodup. rewrite Hperm in Hnodup.
      by apply NoDup_cons in Hnodup as [? _].
  - intros Hnin. unfold roads_of.
    rewrite (proj1 (not_elem_of_dom g0 cur)); [done|].
    intros Hin. apply Hnin. by apply elem_of_elements.
Qed.

(** Inside the [for] loop no lookup fails. *)
Lemma for_roads_progress cur cd l1 rs done l :
  gfor cur cd done l → nfor cur cd l1 done l →
  (∀ r, r ∈ rs → r ∈ roads_of g0 cur) →
  ∃ l', for_roads c cur cd rs l = Ok l'.
Proof.
  revert done l. induction rs as [|r rs IH]; intros done l Hg Hn Hsub; simpl.
  - by eexists.
  - assert (r ∈ roads_of g0 cur) as Hr by (apply Hsub; by left).
    destruct (relax_progress c cur cd l r) as [l' Hl']; [done| | |].
    + apply (f_dom _ _ _ _ Hg). left. by eapply closed.
    + destruct (nf_tree _ _ _ _ _ Hn cur cd (nf_cur _ _ _ _ _ Hn)) as (rs' & Hrs').
      rewrite (tree_totals _ _ _ _ Hrs'). by eexists.
    + rewrite Hl'. apply (IH (done ++ [r])).
      * by eapply gfor_relax.
      * by eapply nfor_relax.
      * intros r' Hr'. apply Hsub. by right.
Qed.

(** A pass either stops the loop or goes round again with less potential. *)
Lemma iteration_progress g l :
  inv l → same_roads g →
  (∃ g' l', iteration t c g l = Stop g' l') ∨
  (∃ g' l', iteration t c g l = Next g' l' ∧ (potential l' < potential l)%nat).
Proof.
  intros [Hg [b Hn]] Hsame.
  pose proof (iteration_cases g l Hg Hsame) as Hcases.
  destruct (heappop (heap l)) as [[[cd cur] h]|] eqn:Hpop; [|left; eauto].
  destruct Hcases as (d' & Hd' & Hle & Hcases).
  destruct (decide (d' < cd)) as [Hlt|Hge].
  { right. do 2 eexists. split; [done|]. by eapply potential_skip. }
  destruct (decide (cur = t)) as [->|Hne]; [left; eauto|].
  destruct Hcases as (g1 & Hg1 & Hcases).
  assert (d' = cd) as -> by lia.
  pose proof (gfor_start l cd cur h Hg Hpop Hd') as Hgf.
  pose proof (nfor_start b l cd cur h Hn Hpop Hd') as Hnf.
  destruct (for_roads_progress cur cd (with_heap l h) (roads_of g0 cur) []
              (with_heap l h) Hgf Hnf) as [l2 Hl2]; [done|].
  rewrite Hl2 in Hcases. right. exists g1, l2. split; [done|].
  eapply potential_process; [done..|].
  by eapply nfor_for_roads.
Qed.

Lemma while_heap_total fuel g l :
  inv l → same_roads g → (potential l < fuel)%nat →
  ∃ g' l', while_heap fuel t c g l = Some (Stop g' l').
Proof.
  revert g l. induction fuel as [|fuel IH]; intros g l Hinv Hg Hfuel; [lia|].
  simpl. destruct (iteration_progress g l Hinv Hg)
    as [(g' & l' & Hit)|(g' & l' & Hit & Hless)]; rewrite Hit; [eauto|].
  apply IH; [by eapply iteration_inv| |lia].
  by eapply iteration_Next; [apply Hinv|..].
Qed.

Lemma potential_init :
  (potential (init_locals g0 s)
   ≤ 1 + sum_list_with (fun u => length (roads_of g0 u)) (elements (dom g0)))%nat.
Proof.
  unfold potential. simpl.
  cut (sum_list_with (pending (init_locals g0 s)) (elements (dom g0))
       ≤ sum_list_with (fun u => length (roads_of g0 u)) (elements (dom g0)))%nat;
    [lia|].
  apply sum_list_with_mono. intros u. unfold pending.
  destruct (is_done _ u); lia.
Qed.

(** ** Reading the path back (lines 77-82) *)

Lemma rev_vertices_snoc rs r :
  rev (vertices s (rs ++ [r])) = neighbor_of r :: rev (vertices s rs).
Proof. by rewrite vertices_snoc, rev_app_distr. Qed.

(** If the walk back from a node with a tree returns, it returns the
    nodes of the tree, last one first. *)
Lemma backtrack_tree b l v rs fuel acc path :
  tree b l v rs →
  backtrack fuel (prev l) (Some v) acc = Some (Ok path) →
  path = acc ++ rev (vertices s rs).
Proof.
  intros Htree. revert fuel acc.
  induction Htree as [Hd Ht Hp|u r rs Hu IH Hle Hr Hnew HP HD HT];
    intros [|fuel] acc; rewrite ?rev_vertices_snoc; cbn [backtrack];
    try done; unfold getitem.
  - destruct (prev l !! s) as [[p|]|] eqn:Hs; [by destruct (Hp p)| |done].
    destruct fuel; simpl; by intros [= <-].
  - rewrite HP. intros Hback. apply IH in Hback. subst path.
    by rewrite <- app_assoc.
Qed.

(** It does return when the start has an entry in [prev] and the fuel
    covers the length of the path. *)
Lemma backtrack_total b l v rs fuel acc :
  tree b l v rs → is_Some (prev l !! s) → (length rs < fuel)%nat →
  backtrack fuel (prev l) (Some v) acc = Some (Ok (acc ++ rev (vertices s rs))).
Proof.
  intros Htree Hs. revert fuel acc.
  induction Htree as [Hd Ht Hp|u r rs Hu IH Hle Hr Hnew HP HD HT];
    intros [|fuel] acc Hfuel; rewrite ?rev_vertices_snoc; cbn [backtrack];
    try lia; unfold getitem.
  - destruct Hs as [[p|] Hs]; [by destruct (Hp p)|]. rewrite Hs. by destruct fuel.
  - rewrite HP, IH.
    + by rewrite <- app_assoc.
    + rewrite length_app in Hfuel. simpl in Hfuel. lia.
Qed.

(** The nodes of a tree are reached nodes, so a path never has more nodes
    than [distances] has keys. *)
Lemma tree_length b l v rs :
  tree b l v rs → is_Some (g0 !! s) →
  (∀ u, is_Some (distances l !! u) ↔ (is_Some (g0 !! u) ∨ u = s)) →
  (length rs < size g0)%nat.
Proof.
  intros Htree Hs Hdom.
  assert (length (vertices s rs) ≤ length (elements (dom g0)))%nat as Hlen.
  { apply submseteq_length, NoDup_submseteq; [by eapply tree_NoDup|].
    intros u Hu. apply elem_of_elements, elem_of_dom.
    assert (is_Some (distances l !! u)) as Hreached.
    { destruct (tree_low _ _ _ _ u Htree Hu) as [->|(du & Hdu & _)].
      - rewrite (tree_distance _ _ _ _ Htree). by eexists.
      - by eexists. }
    apply Hdom in Hreached as [?| ->]; done. }
  unfold vertices in Hlen. simpl in Hlen. rewrite length_fmap in Hlen.
  change (length (elements (dom g0))) with (size (dom g0)) in Hlen.
  rewrite size_dom in Hlen. lia.
Qed.

End Solver.

(** The walk back never returns an empty path from a node. *)
Lemma backtrack_prefix fuel P cur acc path :
  backtrack fuel P cur acc = Some (Ok path) →
  ∃ rest, path = acc ++ rest ∧ (is_Some cur → rest ≠ []).
Proof.
  revert cur acc. induction fuel as [|fuel IH]; intros [c|] acc; simpl; try done.
  - intros [= <-]. exists []. split; [by rewrite app_nil_r|by intros [? ?]].
  - destruct (getitem P c) as [p|]; [|done].
    intros (rest & -> & _)%IH. exists (c :: rest).
    split; [by rewrite <- app_assoc|done].
  - intros [= <-]. exists []. split; [by rewrite app_nil_r|by intros [? ?]].
Qed.

(** * The solver as a whole *)

Lemma roads_of_lookup (g : adjacency) u r :
  r ∈ roads_of g u → ∃ rs, g !! u = Some rs ∧ r ∈ rs.
Proof.
  unfold roads_of. destruct (g !! u) as [rs|]; simpl; [eauto|].
  by intros ?%elem_of_nil.
Qed.

Lemma nonnegative_roads G u r :
  nonnegative G → r ∈ roads_of (graph G) u →
  0 ≤ r.1.1.2 ∧ 0 ≤ r.1.2 ∧ 0 ≤ r.2.
Proof.
  intros Hnn (rs & Hrs & Hr)%roads_of_lookup.
  pose proof (map_Forall_lookup_1 _ _ _ _ Hnn Hrs) as Hall.
  by apply (proj1 (Forall_forall _ _) Hall).
Qed.

Lemma closed_graph_roads G u r :
  closed_graph G → r ∈ roads_of (graph G) u →
  is_Some (graph G !! neighbor_of r).
Proof.
  intros Hcl (rs & Hrs & Hr)%roads_of_lookup.
  pose proof (map_Forall_lookup_1 _ _ _ _ Hcl Hrs) as Hall.
  by apply (proj1 (Forall_forall _ _) Hall).
Qed.

Lemma undirected_roads G u r :
  undirected G → r ∈ roads_of (graph G) u →
  (u, r.1.1.2, r.1.2, r.2) ∈ roads_of (graph G) (neighbor_of r).
Proof.
  intros Hun (rs & Hrs & Hr)%roads_of_lookup.
  pose proof (map_Forall_lookup_1 _ _ _ _ Hun Hrs) as Hall.
  by apply (proj1 (Forall_forall _ _) Hall).
Qed.

Lemma undirected_closed G : undirected G → closed_graph G.
Proof.
  intros Hun. apply map_Forall_lookup_2. intros u rs Hrs.
  apply Forall_forall. intros r Hr.
  assert (r ∈ roads_of (graph G) u) as Hin by (unfold roads_of; by rewrite Hrs).
  apply (undirected_roads G u r Hun) in Hin as (rs' & -> & _)%roads_of_lookup.
  by eexists.
Qed.

Lemma nonnegative_weight G c u r :
  nonnegative G → r ∈ roads_of (graph G) u → 0 ≤ weight c r.
Proof.
  intros Hnn Hr. destruct (nonnegative_roads G u r Hnn Hr) as (Hd & Ht & Hc).
  destruct r as [[[x d] tm] co]. unfold weight, params_of, tuple_getitem.
  simpl in *. repeat case_match; simplify_eq; lia.
Qed.

Lemma with_graph_same G : with_graph G (graph G) = G.
Proof. by destruct G. Qed.

(** How the call decomposes into the loop and the lines after it. *)
Lemma find_optimal_path_Ok G s t c fuel G' r :
  find_optimal_path G s t c fuel = Some (G', Ok r) →
  ∃ g l, while_heap fuel t c (graph G) (init_locals (graph G) s) = Some (Stop g l)
         ∧ epilogue fuel t l = Some (Ok r) ∧ G' = with_graph G g.
Proof.
  unfold find_optimal_path.
  destruct (while_heap _ _ _ _ _) as [[g l|g l|g e]|]; try done.
  destruct (epilogue fuel t l) as [r'|] eqn:Hep; [|done].
  intros [= <- ->]. by exists g, l.
Qed.

(** Lines 74-84 once the loop has established [post]. *)
Lemma epilogue_post g0 s t c l fuel p tot :
  post g0 s t c l → epilogue fuel t l = Some (Ok (p, tot)) →
  (p = [] ∧ tot = (0, 0, 0) ∧ ∀ rs, ¬ walk g0 s t rs) ∨
  (∃ rs, walk g0 s t rs ∧ p = vertices s rs ∧ tot = sum3 rs ∧
         distances l !! t = Some (Int (sum_w c rs)) ∧
         ∀ rs', walk g0 s t rs' → sum_w c rs ≤ sum_w c rs').
Proof.
  intros Hpost. unfold epilogue, getitem.
  destruct (distances l !! t) as [[|dt]|] eqn:Hdt; simpl; [| |done].
  - intros [= <- <-]. left. split; [done|]. split; [done|].
    intros rs Hrs. destruct (p_least _ _ _ _ _ Hpost rs Hrs) as (d & Hd & _).
    congruence.
  - destruct (p_tree _ _ _ _ _ Hpost t dt Hdt) as (b & rs & Htree).
    destruct (backtrack fuel (prev l) (Some t) []) as [[path|]|] eqn:Hback;
      [|done..].
    apply (backtrack_tree _ _ _ _ _ _ _ _ _ _ Htree) in Hback as ->.
    rewrite (tree_totals _ _ _ _ _ _ _ Htree). intros [= <- <-].
    right. exists rs. split; [by eapply tree_walk|].
    split; [exact (rev_involutive (vertices s rs))|]. split; [done|].
    pose proof (tree_distance _ _ _ _ _ _ _ Htree) as Hsum.
    split; [congruence|]. intros rs' Hrs'.
    destruct (p_least _ _ _ _ _ Hpost rs' Hrs') as (d & Hd & Hle).
    rewrite Hsum in Hd. by simplify_eq.
Qed.

(** Partial correctness under non-negative weights of the selected
    criterion: a returned route is [NoPath] when no walk leads to the
    target, and otherwise a walk of least selected weight together with
    the componentwise totals of that same walk. *)
Lemma find_optimal_path_sound G s t c fuel G' p tot :
  (∀ u r, r ∈ roads_of (graph G) u → 0 ≤ weight c r) →
  find_optimal_path G s t c fuel = Some (G', Ok (p, tot)) →
  (p = [] ∧ tot = (0, 0, 0) ∧ ∀ rs, ¬ walk (graph G) s t rs) ∨
  (∃ rs, walk (graph G) s t rs ∧ p = vertices s rs ∧ tot = sum3 rs ∧
         ∀ rs', walk (graph G) s t rs' → sum_w c rs ≤ sum_w c rs').
Proof.
  intros Hnn (g & l & Hloop & Hep & _)%find_optimal_path_Ok.
  apply (while_heap_post (graph G) s t c Hnn) in Hloop as [Hpost _];
    [|apply inv_init|by left].
  destruct (epilogue_post _ _ _ _ _ _ _ _ Hpost Hep)
    as [?|(rs & ? & ? & ? & _ & ?)]; [by left|].
  right. by exists rs.
Qed.

(** Total correctness: with non-negative weights, a closed adjacency map
    and both ids among its keys, the call returns a route, raises nothing,
    and leaves the graph as it was. *)
Lemma find_optimal_path_total G s t c fuel :
  (∀ u r, r ∈ roads_of (graph G) u → 0 ≤ weight c r) →
  0 ≤ c ≤ 2 → closed_graph G →
  is_Some (graph G !! s) → is_Some (graph G !! t) →
  (enough_fuel G ≤ fuel)%nat →
  ∃ r, find_optimal_path G s t c fuel = Some (G, Ok r).
Proof.
  intros Hnn Hc Hclosed Hs Ht Hfuel. unfold enough_fuel, road_count in Hfuel.
  pose proof (potential_init (graph G) s) as Hpot.
  destruct (while_heap_total (graph G) s t c Hnn Hc
              (fun u r => closed_graph_roads G u r Hclosed) fuel (graph G)
              (init_locals (graph G) s)) as (g & l & Hloop);
    [apply inv_init|by left|lia|].
  pose proof Hloop as Hloop'.
  apply (while_heap_post (graph G) s t c Hnn) in Hloop' as [Hpost Hg];
    [|apply inv_init|by left].
  assert (g = graph G) as ->.
  { destruct Hg as [->|[Hnone _]]; [done|]. rewrite Hnone in Hs. by destruct Hs. }
  unfold find_optimal_path. rewrite Hloop, with_graph_same.
  unfold epilogue, getitem.
  destruct (proj2 (p_dom _ _ _ _ _ Hpost t) (or_introl Ht)) as [[|dt] Hdt];
    rewrite Hdt; simpl; [by eexists|].
  destruct (p_tree _ _ _ _ _ Hpost t dt Hdt) as (b & rs & Htree).
  rewrite (backtrack_total _ _ _ _ _ _ _ _ _ Htree).
  - rewrite (tree_totals _ _ _ _ _ _ _ Htree). by eexists.
  - by apply (p_prev _ _ _ _ _ Hpost).
  - pose proof (tree_length _ _ _ _ _ _ _ Htree Hs (p_dom _ _ _ _ _ Hpost)).
    lia.
Qed.

(** Whatever the weights: a call that returns, returns [NoPath] exactly
    when no walk leads from the source to the target. *)
Lemma find_optimal_path_reach G s t c fuel G' r :
  find_optimal_path G s t c fuel = Some (G', Ok r) →
  (r = NoPath ∧ ∀ rs, ¬ walk (graph G) s t rs) ∨
  (r.1 ≠ [] ∧ ∃ rs, walk (graph G) s t rs).
Proof.
  intros (g & l & Hloop & Hep & _)%find_optimal_path_Ok.
  apply while_heap_reached with (g0 := graph G) (s := s) in Hloop
    as [Hreached _]; [|apply ginv_init|by left].
  unfold epilogue, getitem in Hep.
  destruct (distances l !! t) as [[|dt]|] eqn:Hdt; simpl in Hep; [| |done].
  - left. simplify_eq. split; [done|]. intros rs Hrs.
    destruct (proj2 Hreached (ex_intro _ rs Hrs)) as [d Hd]. congruence.
  - right.
    destruct (backtrack fuel (prev l) (Some t) []) as [[path|]|] eqn:Hback;
      [|done..].
    apply backtrack_prefix in Hback as (rest & -> & Hrest).
    destruct (total_params l !! t) as [tp|]; [|done]. simplify_eq. split.
    + simpl. intros Hnil%(f_equal (@length Z)).
      rewrite length_rev in Hnil. simpl in Hnil.
      destruct rest; [by apply Hrest|done].
    + apply (proj1 Hreached). eauto.
Qed.

(** ** Built graphs are undirected *)

Lemma roads_of_append_road (g : adjacency) k r u :
  roads_of (append_road g k r) u
  = if decide (u = k) then roads_of g k ++ [r] else roads_of g u.
Proof.
  unfold append_road, defaultdict_getitem, roads_of.
  destruct (g !! k) as [l|] eqn:Hk; destruct (decide (u = k)) as [->|Hne].
  - by rewrite lookup_insert_eq.
  - by rewrite lookup_insert_ne.
  - by rewrite lookup_insert_eq.
  - do 2 (rewrite lookup_insert_ne by done). reflexivity.
Qed.

Lemma roads_of_add_road G id1 id2 d t c u :
  roads_of (graph (add_road G id1 id2 d t c)) u
  = roads_of (graph G) u
    ++ (if decide (u = id1) then [(id2, d, t, c)] else [])
    ++ (if decide (u = id2) then [(id1, d, t, c)] else []).
Proof.
  unfold add_road. simpl. rewrite !roads_of_append_road.
  repeat case_decide; simplify_eq; by rewrite ?app_nil_r, <- ?app_assoc.
Qed.

Lemma undirected_intro G :
  (∀ u r, r ∈ roads_of (graph G) u →
     (u, r.1.1.2, r.1.2, r.2) ∈ roads_of (graph G) (neighbor_of r)) →
  undirected G.
Proof.
  intros Hflip. apply map_Forall_lookup_2. intros u rs Hrs.
  apply Forall_forall. intros r Hr. apply Hflip.
  unfold roads_of. by rewrite Hrs.
Qed.

(** [add_road] appends the road to both adjacency lists, so every graph
    the program builds is undirected, hence closed. *)
Lemma constructed_undirected G : constructed G → undirected G.
Proof.
  induction 1 as [|G city_id name _ IH|G id1 id2 d t c _ IH].
  - apply map_Forall_empty.
  - exact IH.
  - apply undirected_intro. intros u r. rewrite !roads_of_add_road.
    intros [Hr|[Hr|Hr]%elem_of_app]%elem_of_app.
    + apply elem_of_app. left. by apply undirected_roads.
    + destruct (decide (u = id1)) as [->|]; [|by apply elem_of_nil in Hr].
      apply list_elem_of_singleton in Hr as ->. unfold neighbor_of. simpl.
      apply elem_of_app. right. apply elem_of_app. right.
      rewrite decide_True by done. by left.
    + destruct (decide (u = id2)) as [->|]; [|by apply elem_of_nil in Hr].
      apply list_elem_of_singleton in Hr as ->. unfold neighbor_of. simpl.
      apply elem_of_app. right. apply elem_of_app. left.
      rewrite decide_True by done. by left.
Qed.

Lemma constructed_closed G : constructed G → closed_graph G.
Proof. intros. by apply undirected_closed, constructed_undirected. Qed.

(** ** The reverse of a walk is a walk *)









(** * The claims *)

(** ** C1 *)

(** The [i]-th road of a walk joins the [i]-th node to the next one. *)
Lemma walk_joins g u v rs i r :
  walk g u v rs → rs !! i = Some r →
  ∃ a, vertices u rs !! i = Some a ∧
       vertices u rs !! S i = Some (neighbor_of r) ∧
       r ∈ roads_of g a.
Proof.
  intros Hwalk. revert i.
  induction Hwalk as [u|u v r0 rs Hr0 _ IH]; intros [|i] Hi; try done.
  - injection Hi as ->. by exists u.
  - destruct (IH i Hi) as (a & Ha & Hnext & Hr). by exists a.
Qed.

(** C1. With non-negative weights, whenever [find_optimal_path] returns a
    non-empty path, that path is the node list of a walk [rs] of the graph
    from the source to the target: the [i]-th road of [rs] is in the
    adjacency list of the [i]-th id of the path and leads to the next id
    (one road per consecutive pair). The returned totals are the
    componentwise sums of the (distance, time, cost) of exactly those
    roads, so all three components describe the one returned path; and the
    component the criterion selects is the selected weight summed along
    them, which is also the cost the solver accumulated for the target. *)
Theorem C1_totals_describe_returned_path G s t c fuel G' p tot :
  nonnegative G → 0 ≤ c ≤ 2 →
  find_optimal_path G s t c fuel = Some (G', Ok (p, tot)) →
  p ≠ [] →
  ∃ rs, walk (graph G) s t rs ∧ p = vertices s rs ∧
        (∀ i r, rs !! i = Some r →
           ∃ a, p !! i = Some a ∧ p !! S i = Some (neighbor_of r) ∧
                r ∈ roads_of (graph G) a) ∧
        tot = sum3 rs ∧
        tuple_getitem tot c = Ok (sum_w c rs) ∧
        accumulated G s t c fuel = Some (Int (sum_w c rs)).
Proof.
  intros Hnn Hc (g & l & Hloop & Hep & _)%find_optimal_path_Ok Hp.
  assert (∀ u r, r ∈ roads_of (graph G) u → 0 ≤ weight c r) as Hw.
  { intros u r Hr. by eapply nonnegative_weight. }
  pose proof Hloop as Hloop'.
  apply (while_heap_post (graph G) s t c Hw) in Hloop' as [Hpost _];
    [|apply inv_init|by left].
  destruct (epilogue_post _ _ _ _ _ _ _ _ Hpost Hep)
    as [(-> & _)|(rs & Hwalk & -> & -> & Hacc & _)]; [done|].
  exists rs. split; [done|]. split; [done|].
  split; [intros i r Hi; by eapply walk_joins|]. split; [done|].
  split; [by apply tuple_getitem_sum3|].
  unfold accumulated. by rewrite Hloop.
Qed.

Lemma C1_witness :
  ∃ rs, walk (graph triangle) 1 3 rs ∧ [1; 2; 3] = vertices 1 rs ∧
        (∀ i r, rs !! i = Some r →
           ∃ a, [1; 2; 3] !! i = Some a ∧
                [1; 2; 3] !! S i = Some (neighbor_of r) ∧
                r ∈ roads_of (graph triangle) a) ∧
        (20, 10, 4) = sum3 rs ∧
        tuple_getitem (20, 10, 4) 0 = Ok (sum_w 0 rs) ∧
        accumulated triangle 1 3 0 11 = Some (Int (sum_w 0 rs)).
Proof.
  apply (C1_totals_describe_returned_path triangle 1 3 0 11 triangle
           [1; 2; 3] (20, 10, 4)).
  - compute_done.
  - lia.
  - vm_compute. reflexivity.
  - discriminate.
Defined.

(** ** C2 *)

(** C2 fails on the code. On [lonely], "C" is a location present in the
    graph: its name resolves to id 3 and id 3 shows the name. It has no
    road, so 3 is no key of the adjacency map, from whose keys alone
    [distances], [prev] and [total_params] are built (lines 43-45). With
    criterion 0 the query from 3 to 3 raises [KeyError] at [prev[current]]
    (line 81) and the query from 1 to 3 raises it at [distances[end_id]]
    (line 74): neither returns a path. For the location 1, which has a
    road, the query from 1 to 1 returns the path [[1]] with distance 0. *)
Theorem C2_location_without_road_raises :
  get_id_by_name lonely (lit "C") = Some 3 ∧
  get_name_by_id lonely 3 = lit "C" ∧
  graph lonely !! 3 = None ∧
  (∀ fuel, find_optimal_path lonely 3 3 0 (1 + fuel)
           = Some (lonely, Raise (KeyError 3))) ∧
  (∀ fuel, find_optimal_path lonely 1 3 0 (3 + fuel)
           = Some (lonely, Raise (KeyError 3))) ∧
  (∀ fuel, find_optimal_path lonely 1 1 0 (2 + fuel)
           = Some (lonely, Ok ([1], (0, 0, 0)))).
Proof.
  do 3 (split; [by vm_compute|]).
  split; [|split]; intros fuel; by vm_compute.
Qed.

(** ** C3 *)

(** C3 fails on the code. On [lonely], "C" resolves to id 3, which has no
    road and so is no key of the adjacency map; a query from 1 to 3 runs
    the loop to the end and then raises [KeyError] at [distances[end_id]]
    (line 74) instead of returning [NoPath]. *)
Theorem C3_absent_target_raises :
  get_id_by_name lonely (lit "C") = Some 3 ∧
  graph lonely !! 3 = None ∧
  ∀ fuel, find_optimal_path lonely 1 3 0 (3 + fuel)
          = Some (lonely, Raise (KeyError 3)).
Proof. split; [|split]; [by vm_compute..|]. intros fuel. by vm_compute. Qed.

(** ** C4 *)

(** C4 fails on the code. On [lonely], a query from 3 (no key of the
    adjacency map) to 1 returns [NoPath], and the graph it leaves behind
    has the new key 3 with an empty list: reading
    [self.graph.graph[current]] on the [defaultdict] inserted it. The same
    happens through [get_all_optimal_routes], and the query from 3 to 3,
    which raised before, returns a route afterwards. *)
Theorem C4_query_inserts_a_key :
  let after := with_graph lonely (<[3 := []]> (graph lonely)) in
  graph lonely !! 3 = None ∧
  graph after !! 3 = Some [] ∧
  (∀ fuel, find_optimal_path lonely 3 1 0 (2 + fuel) = Some (after, Ok NoPath)) ∧
  (∀ fuel, get_all_optimal_routes lonely (lit "C") (lit "A") (2 + fuel)
           = Some (after, Ok ∅)) ∧
  (∀ fuel, find_optimal_path lonely 3 3 0 (2 + fuel)
           = Some (lonely, Raise (KeyError 3))) ∧
  (∀ fuel, find_optimal_path after 3 3 0 (2 + fuel)
           = Some (after, Ok ([3], (0, 0, 0)))).
Proof.
  repeat split; try (by vm_compute); intros fuel; by vm_compute.
Qed.

(** ** C5 *)

(** C5 fails on the code. On [from_zero] both names resolve (to 0 and 1)
    and the solver finds the route 0 -> 1, yet [get_all_optimal_routes]
    returns the empty RouteSet without running the solver: [not start_id]
    is true for the id 0 as it is for [None]. *)
Theorem C5_id_zero_is_taken_for_unresolved :
  get_id_by_name from_zero (lit "A") = Some 0 ∧
  get_id_by_name from_zero (lit "B") = Some 1 ∧
  (∀ fuel, find_optimal_path from_zero 0 1 0 (3 + fuel)
           = Some (from_zero, Ok ([0; 1], (1, 1, 1)))) ∧
  (∀ fuel, get_all_optimal_routes from_zero (lit "A") (lit "B") fuel
           = Some (from_zero, Ok ∅)).
Proof.
  repeat split; try (by vm_compute); intros fuel; by vm_compute.
Qed.

(** ** C6 *)

Lemma first_listed_first routes before tag after key r :
  criterion_map !! tag = Some key → routes !! key = Some r →
  (∀ tag' key', tag' ∈ before → criterion_map !! tag' = Some key' →
                routes !! key' = None) →
  first_listed routes (before ++ tag :: after) = r.
Proof.
  intros Htag Hr. induction before as [|tag0 before IH]; intros Hbefore;
    cbn [first_listed app].
  - by rewrite Htag, Hr.
  - destruct (criterion_map !! tag0) as [key0|] eqn:Htag0.
    + rewrite (Hbefore tag0 key0); [|by left|done].
      apply IH. intros tag' key' Hin. apply Hbefore. by right.
    + apply IH. intros tag' key' Hin. apply Hbefore. by right.
Qed.




(** ** C7 *)

(** C7. If the call with criterion 0 returns [NoPath], then every call
    with criterion 1 or 2 for the same graph, source and target that
    returns at all returns [NoPath] too; no assumption on the weights. *)
Theorem C7_reachability_ignores_criterion G s t f0 f1 f2 G0 G1 G2 r1 r2 :
  find_optimal_path G s t 0 f0 = Some (G0, Ok NoPath) →
  find_optimal_path G s t 1 f1 = Some (G1, Ok r1) →
  find_optimal_path G s t 2 f2 = Some (G2, Ok r2) →
  r1 = NoPath ∧ r2 = NoPath.
Proof.
  intros H0 H1 H2.
  apply find_optimal_path_reach in H0 as [[_ Hnone]|[Hne _]]; [|done].
  apply find_optimal_path_reach in H1 as [[-> _]|[_ [rs Hrs]]];
    [|by destruct (Hnone rs)].
  apply find_optimal_path_reach in H2 as [[-> _]|[_ [rs Hrs]]];
    [done|by destruct (Hnone rs)].
Qed.

Lemma C7_witness :
  find_optimal_path islands 1 3 0 9 = Some (islands, Ok NoPath) ∧
  find_optimal_path islands 1 3 1 9 = Some (islands, Ok ([], (0, 0, 0))) ∧
  find_optimal_path islands 1 3 2 9 = Some (islands, Ok ([], (0, 0, 0))) ∧
  (([], (0, 0, 0)) : route) = NoPath ∧ (([], (0, 0, 0)) : route) = NoPath.
Proof.
  split; [by vm_compute|]. split; [by vm_compute|]. split; [by vm_compute|].
  apply (C7_reachability_ignores_criterion islands 1 3 9 9 9
           islands islands islands); by vm_compute.
Defined.

(** ** C8 *)

(** C8. On [triangle], the query from A (1) to C (3): the distance-optimal
    path is A -> B -> C with totals (20,10,4); the time-optimal and the
    cost-optimal path is A -> C with totals (25,1,1);
    [get_all_optimal_routes] collects these three; and the compromise for
    the priority string "(В,Д)" (time, then distance) is the direct route. *)
Theorem C8_triangle_example :
  find_optimal_path triangle 1 3 0 11 = Some (triangle, Ok ([1; 2; 3], (20, 10, 4))) ∧
  find_optimal_path triangle 1 3 1 11 = Some (triangle, Ok ([1; 3], (25, 1, 1))) ∧
  find_optimal_path triangle 1 3 2 11 = Some (triangle, Ok ([1; 3], (25, 1, 1))) ∧
  get_name_by_id triangle <$> [1; 2; 3] = [lit "A"; lit "B"; lit "C"] ∧
  get_all_optimal_routes triangle (lit "A") (lit "C") 11
    = Some (triangle, Ok triangle_routes) ∧
  find_compromise_route triangle_routes [40; 1042; 44; 1044; 41]%N
    = ([1; 3], (25, 1, 1)).
Proof. repeat split; by vm_compute. Qed.

(** ** C9 *)




(** ** C10 *)

(** C10 fails on the code. On [single], "A" resolves to id 1, which has no
    road and so no entry in [prev]: the query from 1 to 1 leaves the loop
    at once and raises [KeyError] at [prev[current]] (line 81), whatever
    the criterion. *)
Theorem C10_location_without_road_raises :
  get_id_by_name single (lit "A") = Some 1 ∧
  ∀ c fuel, find_optimal_path single 1 1 c (1 + fuel)
            = Some (single, Raise (KeyError 1)).
Proof. split; [by vm_compute|]. intros c fuel. by vm_compute. Qed.

(** * Further properties of the solver *)

(** ** What a query does to the graph store *)

Lemma iteration_same_roads g0 s t c g l :
  ginv g0 s c l → same_roads g0 s g →
  same_roads g0 s (flow_graph (iteration t c g l)).
Proof.
  intros Hinv Hg. pose proof (iteration_cases g0 s t c g l Hinv Hg) as Hcases.
  destruct (heappop (heap l)) as [[[cd cur] h]|]; [|by rewrite Hcases].
  destruct Hcases as (d' & _ & _ & Hcases).
  destruct (decide (d' < cd)); [by rewrite Hcases|].
  destruct (decide (cur = t)); [by rewrite Hcases|].
  destruct Hcases as (g' & Hg' & ->). by destruct (for_roads _ _ _ _ _).
Qed.

Lemma while_heap_same_roads g0 s t c fuel g l f :
  ginv g0 s c l → same_roads g0 s g →
  while_heap fuel t c g l = Some f → same_roads g0 s (flow_graph f).
Proof.
  revert g l. induction fuel as [|fuel IH]; intros g l Hinv Hg; [done|].
  simpl. pose proof (iteration_same_roads g0 s t c g l Hinv Hg) as Hsame.
  destruct (iteration t c g l) as [g1 l1|g1 l1|g1 e] eqn:Hit.
  - apply (iteration_Next g0 s t c) in Hit as [Hinv1 Hg1]; [|done..].
    by apply IH.
  - by intros [= <-].
  - by intros [= <-].
Qed.

(** Whatever the weights and however the call ends, [cities] and
    [name_to_id] are left alone, and the adjacency map is either left alone
    or has gained the start id as a key with an empty list (when it was no
    key before). *)
Theorem find_optimal_path_frame G s t c fuel G' r :
  find_optimal_path G s t c fuel = Some (G', r) →
  cities G' = cities G ∧ name_to_id G' = name_to_id G ∧
  (graph G' = graph G ∨
   (graph G !! s = None ∧ graph G' = <[s := []]> (graph G))).
Proof.
  unfold find_optimal_path.
  destruct (while_heap _ _ _ _ _) as [f|] eqn:Hloop; [|done].
  apply while_heap_same_roads with (g0 := graph G) (s := s) in Hloop;
    [|apply ginv_init|by left].
  destruct f as [g l|g l|g e]; [done| |].
  - destruct (epilogue fuel t l); [|done]. by intros [= <- <-].
  - by intros [= <- <-].
Qed.

Lemma find_optimal_path_frame_witness :
  cities (with_graph lonely (<[3 := []]> (graph lonely))) = cities lonely ∧
  name_to_id (with_graph lonely (<[3 := []]> (graph lonely))) = name_to_id lonely ∧
  (graph (with_graph lonely (<[3 := []]> (graph lonely))) = graph lonely ∨
   (graph lonely !! 3 = None ∧
    graph (with_graph lonely (<[3 := []]> (graph lonely)))
    = <[3 := []]> (graph lonely))).
Proof.
  apply (find_optimal_path_frame lonely 3 1 0 2 _ (Ok NoPath)).
  by vm_compute.
Defined.

(** ** Source equal to target *)

Lemma heappop_singleton (x : entry) : heappop [x] = Some (x, []).
Proof. unfold heappop. simpl. by rewrite decide_True. Qed.

(** For an id that is a key of the adjacency map, the query from the id to
    itself returns the one-node path and zero totals, for any criterion
    value, and leaves the graph alone. *)
Theorem same_source_and_target G s c fuel :
  is_Some (graph G !! s) → (1 ≤ fuel)%nat →
  find_optimal_path G s s c fuel = Some (G, Ok ([s], (0, 0, 0))).
Proof.
  intros [rs Hs] Hfuel. destruct fuel as [|fuel]; [lia|].
  unfold find_optimal_path, init_locals. cbn [while_heap]. unfold iteration.
  cbn [heap distances]. rewrite heappop_singleton.
  unfold getitem. rewrite lookup_insert_eq. cbn [gt_num].
  rewrite Z.ltb_irrefl, Z.eqb_refl, with_graph_same.
  unfold epilogue, getitem. cbn [with_heap distances prev total_params].
  rewrite lookup_insert_eq. cbn [is_inf backtrack]. unfold getitem.
  rewrite lookup_fmap, Hs. cbn [fmap option_fmap option_map].
  rewrite lookup_insert_eq. by destruct fuel.
Qed.

Lemma same_source_and_target_witness :
  find_optimal_path triangle 2 2 1 1 = Some (triangle, Ok ([2], (0, 0, 0))).
Proof. apply same_source_and_target; compute_done. Defined.

(** ** Missing and unreachable ids *)

(** A source that is no key of the adjacency map, with a target that is
    one: the call returns [NoPath], whatever the weights, and the source
    has become a key. *)
Theorem absent_source_is_NoPath G s t c fuel :
  graph G !! s = None → is_Some (graph G !! t) → (2 ≤ fuel)%nat →
  find_optimal_path G s t c fuel
  = Some (with_graph G (<[s := []]> (graph G)), Ok NoPath).
Proof.
  intros Hs [rs Ht] Hfuel. destruct fuel as [|[|fuel]]; [lia..|].
  assert (s ≠ t) as Hne by congruence.
  unfold find_optimal_path, init_locals. cbn [while_heap]. unfold iteration at 1.
  cbn [heap distances]. rewrite heappop_singleton.
  unfold getitem. rewrite lookup_insert_eq. cbn [gt_num].
  rewrite Z.ltb_irrefl, (proj2 (Z.eqb_neq s t) Hne).
  unfold defaultdict_getitem. rewrite Hs. cbn [for_roads].
  unfold iteration. cbn [with_heap heap heappop].
  unfold epilogue, getitem. cbn [with_heap distances].
  rewrite lookup_insert_ne, lookup_fmap, Ht by done. done.
Qed.

Lemma absent_source_is_NoPath_witness :
  find_optimal_path lonely 3 1 2 2
  = Some (with_graph lonely (<[3 := []]> (graph lonely)), Ok NoPath).
Proof. apply absent_source_is_NoPath; compute_done. Defined.

(** With non-negative weights, a closed adjacency map and both ids among
    its keys, every criterion gives a route within [enough_fuel] passes,
    with the graph left alone: [NoPath] when no walk leads to the target,
    and otherwise a walk whose selected weight no other walk undercuts. *)
Theorem find_optimal_path_correct G s t c fuel :
  nonnegative G → closed_graph G → 0 ≤ c ≤ 2 →
  is_Some (graph G !! s) → is_Some (graph G !! t) →
  (enough_fuel G ≤ fuel)%nat →
  ∃ p tot, find_optimal_path G s t c fuel = Some (G, Ok (p, tot)) ∧
    ((p = [] ∧ tot = (0, 0, 0) ∧ ∀ rs, ¬ walk (graph G) s t rs) ∨
     (∃ rs, walk (graph G) s t rs ∧ p = vertices s rs ∧ tot = sum3 rs ∧
            ∀ rs', walk (graph G) s t rs' → sum_w c rs ≤ sum_w c rs')).
Proof.
  intros Hnn Hcl Hc Hs Ht Hfuel.
  assert (∀ u r, r ∈ roads_of (graph G) u → 0 ≤ weight c r) as Hw.
  { intros u r Hr. by eapply nonnegative_weight. }
  destruct (find_optimal_path_total G s t c fuel) as [[p tot] Hcall]; [done..|].
  exists p, tot. split; [done|]. by eapply find_optimal_path_sound.
Qed.

Lemma find_optimal_path_correct_witness :
  ∃ p tot, find_optimal_path islands 1 3 2 10 = Some (islands, Ok (p, tot)) ∧
    ((p = [] ∧ tot = (0, 0, 0) ∧ ∀ rs, ¬ walk (graph islands) 1 3 rs) ∨
     (∃ rs, walk (graph islands) 1 3 rs ∧ p = vertices 1 rs ∧ tot = sum3 rs ∧
            ∀ rs', walk (graph islands) 1 3 rs' → sum_w 2 rs ≤ sum_w 2 rs')).
Proof. apply find_optimal_path_correct; compute_done. Defined.

(** ** The orchestrator *)

(** A name that does not resolve gives the empty RouteSet, without a
    solver run and with the graph left alone. *)
Theorem unresolved_name_gives_empty G start end_ fuel :
  get_id_by_name G start = None ∨ get_id_by_name G end_ = None →
  get_all_optimal_routes G start end_ fuel = Some (G, Ok ∅).
Proof.
  unfold get_all_optimal_routes. intros [-> | ->]; simpl; [done|].
  by rewrite orb_true_r.
Qed.

Lemma unresolved_name_gives_empty_witness :
  get_all_optimal_routes triangle (lit "A") (lit "D") 0 = Some (triangle, Ok ∅).
Proof. apply unresolved_name_gives_empty. right. by vm_compute. Defined.

(** When both names resolve to non-zero ids that are keys of a closed
    adjacency map with non-negative weights, the solver is run for the
    criteria 0, 1, 2 on the unchanged graph, and the RouteSet holds either
    all three routes under "ДЛИНА", "ВРЕМЯ", "СТОИМОСТЬ" or, when the
    target is unreachable, nothing. *)
Theorem get_all_optimal_routes_resolved G start end_ s e fuel :
  nonnegative G → closed_graph G →
  get_id_by_name G start = Some s → get_id_by_name G end_ = Some e →
  s ≠ 0 → e ≠ 0 →
  is_Some (graph G !! s) → is_Some (graph G !! e) →
  (enough_fuel G ≤ fuel)%nat →
  ∃ r0 r1 r2,
    find_optimal_path G s e 0 fuel = Some (G, Ok r0) ∧
    find_optimal_path G s e 1 fuel = Some (G, Ok r1) ∧
    find_optimal_path G s e 2 fuel = Some (G, Ok r2) ∧
    get_all_optimal_routes G start end_ fuel
    = Some (G, Ok (if decide (r0.1 = []) then ∅
                   else <[STOIMOST := r2]>
                          (<[VREMYA := r1]> (<[DLINA := r0]> ∅)))).
Proof.
  intros Hnn Hcl Hstart Hend Hs0 He0 Hs He Hfuel.
  assert (∀ c u r, r ∈ roads_of (graph G) u → 0 ≤ weight c r) as Hw.
  { intros c u r Hr. by eapply nonnegative_weight. }
  destruct (find_optimal_path_total G s e 0 fuel) as [r0 H0]; [apply Hw|lia|done..|].
  destruct (find_optimal_path_total G s e 1 fuel) as [r1 H1]; [apply Hw|lia|done..|].
  destruct (find_optimal_path_total G s e 2 fuel) as [r2 H2]; [apply Hw|lia|done..|].
  exists r0, r1, r2. do 3 (split; [done|]).
  unfold get_all_optimal_routes. rewrite Hstart, Hend. cbn [py_not].
  rewrite (proj2 (Z.eqb_neq s 0) Hs0), (proj2 (Z.eqb_neq e 0) He0).
  cbn [orb criteria routes_loop]. rewrite H0.
  pose proof (find_optimal_path_reach _ _ _ _ _ _ _ H0) as Hr0.
  pose proof (find_optimal_path_reach _ _ _ _ _ _ _ H1) as Hr1.
  pose proof (find_optimal_path_reach _ _ _ _ _ _ _ H2) as Hr2.
  destruct r0 as [p0 t0], r1 as [p1 t1], r2 as [p2 t2]. simpl in *.
  destruct Hr0 as [[[= -> ->] Hnone]|[Hp0 [rs Hrs]]].
  - destruct Hr1 as [[[= -> ->] _]|[_ [rs Hrs]]]; [|by destruct (Hnone rs)].
    destruct Hr2 as [[[= -> ->] _]|[_ [rs Hrs]]]; [|by destruct (Hnone rs)].
    rewrite H1, H2. by rewrite decide_True.
  - destruct Hr1 as [[_ Hnone]|[Hp1 _]]; [by destruct (Hnone rs)|].
    destruct Hr2 as [[_ Hnone]|[Hp2 _]]; [by destruct (Hnone rs)|].
    rewrite decide_False by done.
    destruct p0; [done|]. rewrite H1. destruct p1; [done|]. rewrite H2.
    by destruct p2.
Qed.

Lemma get_all_optimal_routes_resolved_witness :
  ∃ r0 r1 r2,
    find_optimal_path triangle 1 3 0 11 = Some (triangle, Ok r0) ∧
    find_optimal_path triangle 1 3 1 11 = Some (triangle, Ok r1) ∧
    find_optimal_path triangle 1 3 2 11 = Some (triangle, Ok r2) ∧
    get_all_optimal_routes triangle (lit " A") (lit "C ") 11
    = Some (triangle, Ok (if decide (r0.1 = []) then ∅
                          else <[STOIMOST := r2]>
                                 (<[VREMYA := r1]> (<[DLINA := r0]> ∅)))).
Proof.
  apply (get_all_optimal_routes_resolved triangle (lit " A") (lit "C ") 1 3 11);
    compute_done.
Defined.

(** ** The graph store *)

(** Every graph made with [add_city] and [add_road] lists each road from
    both of its ends with the same weights, and names only keys of the
    adjacency map in its adjacency lists. *)
Theorem constructed_graphs_are_symmetric G :
  constructed G → undirected G ∧ closed_graph G.
Proof.
  intros HG. split; [by apply constructed_undirected|by apply constructed_closed].
Qed.

Lemma constructed_graphs_are_symmetric_witness :
  undirected diamond ∧ closed_graph diamond.
Proof. apply constructed_graphs_are_symmetric. repeat constructor. Defined.

(** * More on the solver *)

(** ** Shape of a returned path *)

Lemma walk_last g u v rs : walk g u v rs → last (vertices u rs) = Some v.
Proof.
  induction 1 as [u|u v r rs Hr Hrs IH]; [done|]. exact IH.
Qed.

Lemma epilogue_simple g0 s t c l fuel p tot :
  (∀ u r, r ∈ roads_of g0 u → 0 ≤ weight c r) →
  post g0 s t c l → epilogue fuel t l = Some (Ok (p, tot)) → p ≠ [] →
  NoDup p ∧ head p = Some s ∧ last p = Some t.
Proof.
  intros Hw Hpost. unfold epilogue, getitem.
  destruct (distances l !! t) as [[|dt]|] eqn:Hdt; simpl; [| |done].
  { by intros [= <- <-]. }
  destruct (p_tree _ _ _ _ _ Hpost t dt Hdt) as (b & rs & Htree).
  destruct (backtrack fuel (prev l) (Some t) []) as [[path|]|] eqn:Hback;
    [|done..].
  apply (backtrack_tree _ _ _ _ _ _ _ _ _ _ Htree) in Hback as ->.
  destruct (total_params l !! t); [|done]. intros [= <- <-] _.
  change (rev (rev (neighbor_of <$> rs) ++ [s])) with (rev (rev (vertices s rs))).
  rewrite rev_involutive. split; [by eapply tree_NoDup|]. split; [done|].
  eapply walk_last, tree_walk, Htree.
Qed.

(** With non-negative weights, a returned non-empty path starts at the
    source, ends at the target and visits no node twice. *)
Theorem returned_path_is_simple G s t c fuel G' p tot :
  nonnegative G →
  find_optimal_path G s t c fuel = Some (G', Ok (p, tot)) → p ≠ [] →
  NoDup p ∧ head p = Some s ∧ last p = Some t.
Proof.
  intros Hnn (g & l & Hloop & Hep & _)%find_optimal_path_Ok Hp.
  assert (∀ u r, r ∈ roads_of (graph G) u → 0 ≤ weight c r) as Hw.
  { intros u r Hr. by eapply nonnegative_weight. }
  apply (while_heap_post (graph G) s t c Hw) in Hloop as [Hpost _];
    [|apply inv_init|by left].
  by eapply epilogue_simple.
Qed.

Lemma returned_path_is_simple_witness :
  NoDup [1; 2; 3] ∧ head [1; 2; 3] = Some 1 ∧ last [1; 2; 3] = Some 3.
Proof.
  apply (returned_path_is_simple triangle 1 3 0 11 triangle [1; 2; 3] (20, 10, 4)).
  - compute_done.
  - by vm_compute.
  - discriminate.
Defined.

(** ** Ids without an entry in the bookkeeping *)

(** The graph a call leaves behind, whatever the weights and the outcome:
    a source that is a key is never touched. *)
Lemma find_optimal_path_keyed_source G s t c fuel G' r :
  is_Some (graph G !! s) →
  find_optimal_path G s t c fuel = Some (G', r) → G' = G.
Proof.
  intros [rs Hs]. unfold find_optimal_path.
  destruct (while_heap _ _ _ _ _) as [f|] eqn:Hloop; [|done].
  apply while_heap_same_roads with (g0 := graph G) (s := s) in Hloop;
    [|apply ginv_init|by left].
  assert (flow_graph f = graph G) as Hsame.
  { destruct Hloop as [->|[Hnone _]]; [done|congruence]. }
  destruct f as [g l|g l|g e]; simpl in Hsame; subst g; [done| |].
  - destruct (epilogue fuel t l); [|done]. intros [= <- _]. apply with_graph_same.
  - intros [= <- _]. apply with_graph_same.
Qed.

(** A source with no road (no key, or a key with an empty list) and a
    different target: the loop makes two passes, and the outcome depends
    only on whether the target is a key. *)
Lemma find_optimal_path_no_roads G s t c fuel :
  roads_of (graph G) s = [] → s ≠ t → (2 ≤ fuel)%nat →
  find_optimal_path G s t c fuel
  = Some (with_graph G (defaultdict_getitem (graph G) s).1,
          if decide (is_Some (graph G !! t)) then Ok NoPath
          else Raise (KeyError t)).
Proof.
  intros Hroads Hne Hfuel. destruct fuel as [|[|fuel]]; [lia..|].
  assert ((defaultdict_getitem (graph G) s).2 = []) as Hlist.
  { unfold defaultdict_getitem, roads_of in *.
    by destruct (graph G !! s). }
  unfold find_optimal_path, init_locals. cbn [while_heap]. unfold iteration at 1.
  cbn [heap distances]. rewrite heappop_singleton.
  unfold getitem. rewrite lookup_insert_eq. cbn [gt_num].
  rewrite Z.ltb_irrefl, (proj2 (Z.eqb_neq s t) Hne).
  destruct (defaultdict_getitem (graph G) s) as [g' roads]. simpl in Hlist.
  subst roads. cbn [for_roads fst].
  unfold iteration. cbn [with_heap heap heappop].
  unfold epilogue, getitem. cbn [with_heap distances].
  rewrite lookup_insert_ne, lookup_fmap by done.
  destruct (decide (is_Some (graph G !! t))) as [[rs Ht]|Hnone].
  - by rewrite Ht.
  - destruct (graph G !! t) eqn:Ht; [by destruct Hnone|done].
Qed.

Lemma find_optimal_path_same_no_key G s c fuel :
  graph G !! s = None → (1 ≤ fuel)%nat →
  find_optimal_path G s s c fuel = Some (G, Raise (KeyError s)).
Proof.
  intros Hs Hfuel. destruct fuel as [|fuel]; [lia|].
  unfold find_optimal_path, init_locals. cbn [while_heap]. unfold iteration.
  cbn [heap distances]. rewrite heappop_singleton.
  unfold getitem. rewrite lookup_insert_eq. cbn [gt_num].
  rewrite Z.ltb_irrefl, Z.eqb_refl, with_graph_same.
  unfold epilogue, getitem. cbn [with_heap distances prev total_params].
  rewrite lookup_insert_eq. cbn [is_inf backtrack]. unfold getitem.
  by rewrite lookup_fmap, Hs.
Qed.

(** For an id that is no key of the adjacency map (a location without
    road, or an unknown id), the query from the id to itself raises
    [KeyError] at [prev[current]], on every graph and for every criterion
    value. *)
Theorem same_source_and_target_without_road G s c fuel :
  graph G !! s = None → (1 ≤ fuel)%nat →
  find_optimal_path G s s c fuel = Some (G, Raise (KeyError s)).
Proof. apply find_optimal_path_same_no_key. Qed.

Lemma same_source_and_target_without_road_witness :
  find_optimal_path lonely 3 3 2 1 = Some (lonely, Raise (KeyError 3)).
Proof. apply same_source_and_target_without_road; compute_done. Defined.

Lemma find_optimal_path_absent_target G s t c fuel :
  (∀ u r, r ∈ roads_of (graph G) u → 0 ≤ weight c r) →
  0 ≤ c ≤ 2 → closed_graph G →
  is_Some (graph G !! s) → graph G !! t = None →
  (enough_fuel G ≤ fuel)%nat →
  find_optimal_path G s t c fuel = Some (G, Raise (KeyError t)).
Proof.
  intros Hnn Hc Hclosed Hs Ht Hfuel. unfold enough_fuel, road_count in Hfuel.
  pose proof (potential_init (graph G) s) as Hpot.
  destruct (while_heap_total (graph G) s t c Hnn Hc
              (fun u r => closed_graph_roads G u r Hclosed) fuel (graph G)
              (init_locals (graph G) s)) as (g & l & Hloop);
    [apply inv_init|by left|lia|].
  pose proof Hloop as Hloop'.
  apply (while_heap_post (graph G) s t c Hnn) in Hloop' as [Hpost Hg];
    [|apply inv_init|by left].
  assert (g = graph G) as ->.
  { destruct Hg as [->|[Hnone _]]; [done|]. rewrite Hnone in Hs. by destruct Hs. }
  unfold find_optimal_path. rewrite Hloop, with_graph_same.
  unfold epilogue, getitem.
  destruct (distances l !! t) as [d|] eqn:Hd; [|done].
  assert (is_Some (distances l !! t)) as Hsome by (by eexists).
  apply (p_dom _ _ _ _ _ Hpost) in Hsome as [[rs Hrs]| ->]; [congruence|].
  rewrite Ht in Hs. by destruct Hs.
Qed.

(** With non-negative weights and a closed adjacency map, every query
    from a key to an id that is no key (a location without road, or an
    unknown id) runs the loop to its end and then raises [KeyError] at
    [distances[end_id]]; the graph is left alone. *)
Theorem absent_target_raises G s t c fuel :
  nonnegative G → closed_graph G → 0 ≤ c ≤ 2 →
  is_Some (graph G !! s) → graph G !! t = None →
  (enough_fuel G ≤ fuel)%nat →
  find_optimal_path G s t c fuel = Some (G, Raise (KeyError t)).
Proof.
  intros Hnn Hcl Hc Hs Ht Hfuel. apply find_optimal_path_absent_target; try done.
  intros u r Hr. by eapply nonnegative_weight.
Qed.

Lemma absent_target_raises_witness :
  find_optimal_path triangle 2 7 1 11 = Some (triangle, Raise (KeyError 7)).
Proof. apply absent_target_raises; compute_done. Defined.

(** ** Asking the same question twice *)

(** What a call does when the source is no key of the adjacency map. *)
Lemma find_optimal_path_no_key G s t c fuel G1 r :
  graph G !! s = None →
  find_optimal_path G s t c fuel = Some (G1, r) →
  (s = t ∧ G1 = G ∧ r = Raise (KeyError s)) ∨
  (s ≠ t ∧ (2 ≤ fuel)%nat ∧
   G1 = with_graph G (<[s := []]> (graph G)) ∧
   r = if decide (is_Some (graph G !! t)) then Ok NoPath
       else Raise (KeyError t)).
Proof.
  intros Hs Hcall.
  assert (1 ≤ fuel)%nat as Hfuel1.
  { destruct fuel; [|lia]. by vm_compute in Hcall. }
  destruct (decide (s = t)) as [<-|Hne].
  { rewrite find_optimal_path_same_no_key in Hcall by done.
    injection Hcall as <- <-. by left. }
  assert (2 ≤ fuel)%nat as Hfuel2.
  { destruct fuel as [|[|fuel]]; [lia| |lia]. exfalso. revert Hcall.
    unfold find_optimal_path, init_locals. cbn [while_heap]. unfold iteration.
    cbn [heap distances]. rewrite heappop_singleton.
    unfold getitem. rewrite lookup_insert_eq. cbn [gt_num].
    rewrite Z.ltb_irrefl, (proj2 (Z.eqb_neq s t) Hne).
    unfold defaultdict_getitem. rewrite Hs. by cbn [for_roads]. }
  assert (roads_of (graph G) s = []) as Hroads.
  { unfold roads_of. by rewrite Hs. }
  rewrite find_optimal_path_no_roads in Hcall by done.
  injection Hcall as <- <-. right.
  unfold defaultdict_getitem. rewrite Hs. by cbn [fst].
Qed.

Lemma find_optimal_path_again G s t c fuel G1 r :
  find_optimal_path G s t c fuel = Some (G1, r) →
  find_optimal_path G1 s t c fuel = Some (G1, r).
Proof.
  intros Hcall. destruct (graph G !! s) as [rs|] eqn:Hs.
  - pose proof (find_optimal_path_keyed_source G s t c fuel G1 r
                  ltac:(by eexists) Hcall) as ->. done.
  - destruct (find_optimal_path_no_key G s t c fuel G1 r Hs Hcall)
      as [(<- & -> & ->)|(Hne & Hfuel & -> & ->)].
    + exact Hcall.
    + rewrite find_optimal_path_no_roads; [| |done..].
      2:{ unfold roads_of. simpl. by rewrite lookup_insert_eq. }
      simpl. unfold defaultdict_getitem. rewrite lookup_insert_eq. cbn [fst].
      unfold with_graph. simpl. f_equal. f_equal.
      rewrite lookup_insert_ne by done.
      destruct (decide (is_Some (graph G !! t))); done.
Qed.

(** A second identical call, on the graph the first one left behind,
    returns what the first returned and changes nothing more (whatever the
    weights, and whether the call returns a route or raises). *)
Theorem find_optimal_path_idempotent G s t c fuel G1 r :
  find_optimal_path G s t c fuel = Some (G1, r) →
  find_optimal_path G1 s t c fuel = Some (G1, r).
Proof. apply find_optimal_path_again. Qed.

Lemma find_optimal_path_idempotent_witness :
  find_optimal_path (with_graph lonely (<[3 := []]> (graph lonely))) 3 1 0 2
  = Some (with_graph lonely (<[3 := []]> (graph lonely)), Ok NoPath).
Proof. apply (find_optimal_path_idempotent lonely 3 1 0 2). by vm_compute. Defined.

(** ** The orchestrator, again *)

Lemma find_optimal_path_with_graph G s t c fuel G' r :
  find_optimal_path G s t c fuel = Some (G', r) →
  cities G' = cities G ∧ name_to_id G' = name_to_id G.
Proof.
  unfold find_optimal_path.
  destruct (while_heap _ _ _ _ _) as [[g l|g l|g e]|]; try done.
  - destruct (epilogue fuel t l); [|done]. by intros [= <- _].
  - by intros [= <- _].
Qed.

(** A call that returns a route leaves the source as a key. *)
Lemma find_optimal_path_Ok_keyed G s t c fuel G' r :
  find_optimal_path G s t c fuel = Some (G', Ok r) → is_Some (graph G' !! s).
Proof.
  intros Hcall. destruct (graph G !! s) as [rs|] eqn:Hs.
  - rewrite (find_optimal_path_keyed_source G s t c fuel G' (Ok r));
      [|by eexists|done]. by eexists.
  - destruct (find_optimal_path_no_key G s t c fuel G' (Ok r) Hs Hcall)
      as [(_ & _ & ?)|(_ & _ & -> & _)]; [done|].
    simpl. rewrite lookup_insert_eq. by eexists.
Qed.

Lemma routes_loop_keyed fuel G s e cs acc G1 r :
  is_Some (graph G !! s) →
  routes_loop fuel G s e cs acc = Some (G1, r) → G1 = G.
Proof.
  intros Hs. revert acc. induction cs as [|[name idx] cs IH]; intros acc; simpl.
  - by intros [= <- _].
  - destruct (find_optimal_path G s e idx fuel) as [[Ga [[path params]|x]]|]
      eqn:Hcall; [| |done].
    + rewrite (find_optimal_path_keyed_source G s e idx fuel Ga _ Hs Hcall).
      apply IH.
    + rewrite (find_optimal_path_keyed_source G s e idx fuel Ga _ Hs Hcall).
      by intros [= <- _].
Qed.

Lemma routes_loop_again fuel G s e cs acc G1 r :
  routes_loop fuel G s e cs acc = Some (G1, r) →
  routes_loop fuel G1 s e cs acc = Some (G1, r).
Proof.
  destruct cs as [|[name idx] cs]; simpl; [by intros [= <- <-]|].
  destruct (find_optimal_path G s e idx fuel) as [[Ga [[path params]|x]]|]
    eqn:Hcall; [| |done].
  - intros Hrest.
    pose proof (find_optimal_path_Ok_keyed _ _ _ _ _ _ _ Hcall) as Hkey.
    pose proof (routes_loop_keyed _ _ _ _ _ _ _ _ Hkey Hrest) as ->.
    by rewrite (find_optimal_path_again _ _ _ _ _ _ _ Hcall).
  - intros [= <- <-].
    by rewrite (find_optimal_path_again _ _ _ _ _ _ _ Hcall).
Qed.

Lemma routes_loop_names fuel G s e cs acc G1 r :
  routes_loop fuel G s e cs acc = Some (G1, r) →
  cities G1 = cities G ∧ name_to_id G1 = name_to_id G.
Proof.
  revert G acc. induction cs as [|[name idx] cs IH]; intros G acc; simpl.
  - by intros [= <- _].
  - destruct (find_optimal_path G s e idx fuel) as [[Ga [[path params]|x]]|]
      eqn:Hcall; [| |done].
    + apply find_optimal_path_with_graph in Hcall as [Hc Hn].
      intros Hrest. apply IH in Hrest as [Hc' Hn']. split; congruence.
    + apply find_optimal_path_with_graph in Hcall as [Hc Hn].
      by intros [= <- _].
Qed.

Lemma get_all_optimal_routes_again G start end_ fuel G1 r :
  get_all_optimal_routes G start end_ fuel = Some (G1, r) →
  get_all_optimal_routes G1 start end_ fuel = Some (G1, r).
Proof.
  unfold get_all_optimal_routes, get_id_by_name.
  destruct (py_not (name_to_id G !! strip start)
            || py_not (name_to_id G !! strip end_)) eqn:Hnot.
  - intros [= <- <-]. by rewrite Hnot.
  - destruct (name_to_id G !! strip start) as [s|] eqn:Hs;
      destruct (name_to_id G !! strip end_) as [e|] eqn:He;
      try (intros [= <- <-]; by rewrite ?Hs, ?He, ?Hnot).
    intros Hloop.
    destruct (routes_loop_names _ _ _ _ _ _ _ _ Hloop) as [_ ->].
    rewrite Hs, He, Hnot. exact (routes_loop_again _ _ _ _ _ _ _ _ Hloop).
Qed.

(** Running [get_all_optimal_routes] a second time with the same names,
    on the graph the first run left behind, gives the same RouteSet (or the
    same exception) and changes nothing more. *)
Theorem get_all_optimal_routes_idempotent G start end_ fuel G1 r :
  get_all_optimal_routes G start end_ fuel = Some (G1, r) →
  get_all_optimal_routes G1 start end_ fuel = Some (G1, r).
Proof. apply get_all_optimal_routes_again. Qed.

Lemma get_all_optimal_routes_idempotent_witness :
  get_all_optimal_routes (with_graph lonely (<[3 := []]> (graph lonely)))
    (lit "C") (lit "A") 2
  = Some (with_graph lonely (<[3 := []]> (graph lonely)), Ok ∅).
Proof.
  apply (get_all_optimal_routes_idempotent lonely (lit "C") (lit "A") 2).
  by vm_compute.
Defined.

Lemma get_all_optimal_routes_absent_target G start end_ s e fuel :
  nonnegative G → closed_graph G →
  get_id_by_name G start = Some s → get_id_by_name G end_ = Some e →
  s ≠ 0 → e ≠ 0 →
  is_Some (graph G !! s) → graph G !! e = None →
  (enough_fuel G ≤ fuel)%nat →
  get_all_optimal_routes G start end_ fuel = Some (G, Raise (KeyError e)).
Proof.
  intros Hnn Hcl Hstart Hend Hs0 He0 Hs He Hfuel.
  unfold get_all_optimal_routes. rewrite Hstart, Hend. cbn [py_not].
  rewrite (proj2 (Z.eqb_neq s 0) Hs0), (proj2 (Z.eqb_neq e 0) He0).
  cbn [orb criteria routes_loop].
  rewrite find_optimal_path_absent_target; try done.
  intros u r Hr. by eapply nonnegative_weight.
Qed.

(** When the start name resolves to a location with roads and the end
    name to a location without any (both ids non-zero), the orchestrator
    does not return an empty RouteSet: the first solver run raises
    [KeyError] and the exception leaves [get_all_optimal_routes]. *)
Theorem orchestrator_raises_for_roadless_target G start end_ s e fuel :
  nonnegative G → closed_graph G →
  get_id_by_name G start = Some s → get_id_by_name G end_ = Some e →
  s ≠ 0 → e ≠ 0 →
  is_Some (graph G !! s) → graph G !! e = None →
  (enough_fuel G ≤ fuel)%nat →
  get_all_optimal_routes G start end_ fuel = Some (G, Raise (KeyError e)).
Proof. apply get_all_optimal_routes_absent_target. Qed.

Lemma orchestrator_raises_for_roadless_target_witness :
  get_all_optimal_routes lonely (lit "A") (lit "C") 7
  = Some (lonely, Raise (KeyError 3)).
Proof.
  apply (orchestrator_raises_for_roadless_target lonely (lit "A") (lit "C") 1 3 7);
    compute_done.
Defined.

(** * The graph store *)

(** ** Stripping *)

(** A string with nothing to strip on the left: empty, or starting with
    a character outside the set. *)
Definition ltrimmed (p : N → bool) (s : str) : Prop :=
  match s with
  | [] => True
  | c :: _ => p c = false
  end.

Lemma lstrip_by_trimmed p s : ltrimmed p (lstrip_by p s).
Proof.
  induction s as [|c s IH]; simpl; [done|].
  destruct (p c) eqn:Hc; [done|]. by simpl.
Qed.

Lemma lstrip_by_id p s : ltrimmed p s → lstrip_by p s = s.
Proof. destruct s as [|c s]; simpl; [done|]. by intros ->. Qed.

Lemma lstrip_by_app_l p ws s :
  Forall (fun c => p c = true) ws → lstrip_by p (ws ++ s) = lstrip_by p s.
Proof. induction 1 as [|c ws Hc _ IH]; simpl; [done|]. by rewrite Hc. Qed.

Lemma lstrip_by_split p s :
  ∃ ws, s = ws ++ lstrip_by p s ∧ Forall (fun c => p c = true) ws.
Proof.
  induction s as [|c s (ws & Hs & Hws)]; simpl; [by exists []|].
  destruct (p c) eqn:Hc.
  - exists (c :: ws). split; [by rewrite <- app_comm_cons, <- Hs|by constructor].
  - by exists [].
Qed.

Lemma lstrip_by_app_r p s ws :
  lstrip_by p s ≠ [] → lstrip_by p (s ++ ws) = lstrip_by p s ++ ws.
Proof.
  induction s as [|c s IH]; simpl; [done|].
  destruct (p c); [exact IH|done].
Qed.

Lemma lstrip_by_all p s :
  Forall (fun c => p c = true) s → lstrip_by p s = [].
Proof. induction 1 as [|c s Hc _ IH]; simpl; [done|]. by rewrite Hc. Qed.

Lemma rstrip_by_split p s :
  ∃ ws, s = rstrip_by p s ++ ws ∧ Forall (fun c => p c = true) ws.
Proof.
  unfold rstrip_by. destruct (lstrip_by_split p (rev s)) as (ws & Hs & Hws).
  exists (rev ws). split.
  - rewrite <- rev_app_distr, <- Hs. by rewrite rev_involutive.
  - by apply Forall_rev.
Qed.

Lemma rstrip_by_ltrimmed p s : ltrimmed p s → ltrimmed p (rstrip_by p s).
Proof.
  intros Hs. destruct (rstrip_by_split p s) as (ws & Heq & _).
  destruct (rstrip_by p s) as [|c x]; [done|].
  rewrite Heq in Hs. exact Hs.
Qed.

Lemma rstrip_by_idemp p s : rstrip_by p (rstrip_by p s) = rstrip_by p s.
Proof.
  unfold rstrip_by. rewrite rev_involutive.
  by rewrite (lstrip_by_id p (lstrip_by p (rev s))) by apply lstrip_by_trimmed.
Qed.

Lemma rstrip_by_app_r p s ws :
  Forall (fun c => p c = true) ws → rstrip_by p (s ++ ws) = rstrip_by p s.
Proof.
  intros Hws. unfold rstrip_by. rewrite rev_app_distr, lstrip_by_app_l; [done|].
  by apply Forall_rev.
Qed.

(** Stripping twice is stripping once. *)
Lemma strip_idemp s : strip (strip s) = strip s.
Proof.
  unfold strip.
  rewrite (lstrip_by_id isspace (rstrip_by isspace (lstrip_by isspace s))).
  - apply rstrip_by_idemp.
  - apply rstrip_by_ltrimmed, lstrip_by_trimmed.
Qed.

(** Characters of the stripped set around a string do not survive
    stripping. *)
Lemma strip_by_padded p ws s ws' :
  Forall (fun c => p c = true) ws →
  Forall (fun c => p c = true) ws' →
  rstrip_by p (lstrip_by p (ws ++ s ++ ws')) = rstrip_by p (lstrip_by p s).
Proof.
  intros Hws Hws'. rewrite lstrip_by_app_l by done.
  destruct (lstrip_by p s) as [|c x] eqn:Hs.
  - destruct (lstrip_by_split p s) as (ws0 & Heq & Hws0).
    rewrite Hs, app_nil_r in Heq. subst ws0.
    rewrite lstrip_by_all; [done|]. by apply Forall_app.
  - rewrite lstrip_by_app_r, Hs by (by rewrite Hs).
    by apply rstrip_by_app_r.
Qed.

Lemma strip_padded ws s ws' :
  Forall (fun c => isspace c = true) ws →
  Forall (fun c => isspace c = true) ws' →
  strip (ws ++ s ++ ws') = strip s.
Proof. apply strip_by_padded. Qed.

(** A string without any character of the stripped set is left alone. *)
Lemma strip_by_free p s :
  Forall (fun c => p c = false) s → rstrip_by p (lstrip_by p s) = s.
Proof.
  intros Hs. rewrite lstrip_by_id by (by destruct Hs).
  unfold rstrip_by. rewrite lstrip_by_id; [apply rev_involutive|].
  apply Forall_rev in Hs. by destruct Hs.
Qed.

(** ** Locations *)

(** Registering a location and looking it up: the id gives back the
    stripped name, that name gives back the id, and so does the name with
    any whitespace around it. *)
Theorem add_city_round_trip G city_id name ws ws' :
  Forall (fun c => isspace c = true) ws →
  Forall (fun c => isspace c = true) ws' →
  let G' := add_city G city_id name in
  get_name_by_id G' city_id = strip name ∧
  get_id_by_name G' (get_name_by_id G' city_id) = Some city_id ∧
  get_id_by_name G' (ws ++ name ++ ws') = Some city_id.
Proof.
  intros Hws Hws'. unfold get_name_by_id, get_id_by_name, add_city. simpl.
  rewrite lookup_insert_eq. simpl.
  rewrite strip_idemp, strip_padded by done.
  by rewrite lookup_insert_eq.
Qed.

Lemma add_city_round_trip_witness :
  let G' := add_city empty_graph 7 (lit " Omsk ") in
  get_name_by_id G' 7 = strip (lit " Omsk ") ∧
  get_id_by_name G' (get_name_by_id G' 7) = Some 7 ∧
  get_id_by_name G' ([9; 32]%N ++ lit " Omsk " ++ [10]%N) = Some 7.
Proof.
  apply (add_city_round_trip empty_graph 7 (lit " Omsk ") [9; 32]%N [10]%N);
    compute_done.
Defined.

(** Nothing is cleaned up when an id or a name is registered again: after
    [add_city id n1] and [add_city id n2] the id shows the new name while
    the old name still resolves to it; and after the same name is given to
    a second id, the name resolves to the second id while both ids show
    it. *)
Theorem add_city_overwrites_one_side G id1 id2 n1 n2 :
  strip n1 ≠ strip n2 → id1 ≠ id2 →
  (let G' := add_city (add_city G id1 n1) id1 n2 in
   get_name_by_id G' id1 = strip n2 ∧
   get_id_by_name G' n1 = Some id1 ∧ get_id_by_name G' n2 = Some id1) ∧
  (let G' := add_city (add_city G id1 n1) id2 n1 in
   get_id_by_name G' n1 = Some id2 ∧
   get_name_by_id G' id1 = strip n1 ∧ get_name_by_id G' id2 = strip n1).
Proof.
  intros Hn Hid. unfold get_name_by_id, get_id_by_name, add_city. simpl.
  rewrite !lookup_insert_eq. simpl.
  rewrite lookup_insert_ne, !lookup_insert_eq by done. simpl.
  by rewrite lookup_insert_ne, lookup_insert_eq by done.
Qed.

Lemma add_city_overwrites_one_side_witness :
  (let G' := add_city (add_city empty_graph 1 (lit "A")) 1 (lit "B") in
   get_name_by_id G' 1 = strip (lit "B") ∧
   get_id_by_name G' (lit "A") = Some 1 ∧ get_id_by_name G' (lit "B") = Some 1) ∧
  (let G' := add_city (add_city empty_graph 1 (lit "A")) 2 (lit "A") in
   get_id_by_name G' (lit "A") = Some 2 ∧
   get_name_by_id G' 1 = strip (lit "A") ∧ get_name_by_id G' 2 = strip (lit "A")).
Proof.
  apply (add_city_overwrites_one_side empty_graph 1 2 (lit "A") (lit "B"));
    compute_done.
Defined.

(** ** Roads *)

Set Warnings "-clear-no-such-hyp".

Lemma dom_append_road (g : adjacency) k r :
  dom (append_road g k r) = {[k]} ∪ dom g.
Proof.
  unfold append_road, defaultdict_getitem.
  destruct (g !! k); rewrite !dom_insert_L; set_solver.
Qed.

(** [add_road] leaves the locations alone, makes both ends keys of the
    adjacency map, and appends one entry to the list of each end (two to
    the same list when the ends coincide); entries already there, parallel
    roads included, stay in place and in order. *)
Theorem add_road_appends G id1 id2 d t c :
  let G' := add_road G id1 id2 d t c in
  cities G' = cities G ∧ name_to_id G' = name_to_id G ∧
  dom (graph G') = {[id1; id2]} ∪ dom (graph G) ∧
  ∀ u, roads_of (graph G') u
       = roads_of (graph G) u
         ++ (if decide (u = id1) then [(id2, d, t, c)] else [])
         ++ (if decide (u = id2) then [(id1, d, t, c)] else []).
Proof.
  simpl. split; [done|]. split; [done|]. split.
  - unfold add_road. simpl. rewrite !dom_append_road. set_solver.
  - intros u. apply roads_of_add_road.
Qed.

(** * The compromise selector *)

Lemma first_listed_member routes order :
  first_listed routes order = NoPath ∨
  ∃ key, key ∈ [DLINA; VREMYA; STOIMOST] ∧
         routes !! key = Some (first_listed routes order).
Proof.
  induction order as [|tag order IH]; cbn [first_listed]; [by left|].
  destruct (criterion_map !! tag) as [key|] eqn:Htag; [|exact IH].
  destruct (routes !! key) as [r|] eqn:Hkey; [|exact IH].
  right. exists key. split; [|done].
  unfold criterion_map in Htag.
  repeat (apply lookup_insert_Some in Htag as [[_ <-]|[_ Htag]];
          [set_solver|]).
  by rewrite lookup_empty in Htag.
Qed.

(** Whatever the priority string, the compromise route is one of the
    routes stored under "ДЛИНА", "ВРЕМЯ" or "СТОИМОСТЬ", or else the
    no-path value: entries under other keys are never selected. *)
Theorem compromise_is_a_listed_route routes priorities :
  find_compromise_route routes priorities = NoPath ∨
  ∃ key, key ∈ [DLINA; VREMYA; STOIMOST] ∧
         routes !! key = Some (find_compromise_route routes priorities).
Proof. apply first_listed_member. Qed.

(** * The program around the optimizer *)

(** The three keys and the default priorities, decoded. *)
Lemma utf8_criteria :
  utf8 "ДЛИНА" = DLINA ∧ utf8 "ВРЕМЯ" = VREMYA ∧ utf8 "СТОИМОСТЬ" = STOIMOST ∧
  priority_order default_priorities = [[1044]; [1042]; [1057]]%N.
Proof. by vm_compute. Qed.

(** ** parse_input returns, and what it builds *)

Lemma split_once_contains sep s :
  contains sep s = true → ∃ a b, split_once sep s = [a; b].
Proof.
  unfold contains, split_once. destruct (str_find sep s) as [i|]; [|done].
  intros _. by eexists _, _.
Qed.

Lemma split_once_nonempty sep s : ∃ p rest, split_once sep s = p :: rest.
Proof.
  unfold split_once. destruct (str_find sep s) as [i|]; by eexists _, _.
Qed.

Section Parsing.

Variable int : str → Z + str.

Lemma cities_line_built line st : built st → built (cities_line int line st).
Proof.
  intros Hst. unfold cities_line.
  destruct (contains (lit ":") line); [|done].
  destruct (split_once (lit ":") line) as [|p0 [|p1 [|]]]; try done.
  destruct (int (strip p0)) as [city_id|e]; [|done].
  by apply constructed_city.
Qed.

Lemma roads_line_Go line st :
  ∃ st', roads_line int line st = Go st' ∧ (built st → built st').
Proof.
  unfold roads_line. destruct (contains (lit ":") line); [|by eexists].
  destruct (split_once_nonempty (lit ":") line) as (p0 & rest & ->).
  destruct (contains (lit "-") (strip p0)); [|by eexists].
  destruct (split 45 (strip p0)) as [|c0 [|c1 [|]]]; try by eexists.
  destruct (int (strip c0)) as [id1|e]; [|by eexists].
  destruct (int (strip c1)) as [id2|e]; [|by eexists].
  destruct (match rest with p1 :: _ => strip p1 | [] => [] end) as [|c params_part];
    [by eexists|].
  destruct (int_params int _ []) as [[|distance [|time [|cost params]]]|e];
    try by eexists.
  eexists. split; [done|]. intros Hst. by apply constructed_road.
Qed.

Lemma requests_line_Go line st :
  ∃ st', requests_line line st = Go st' ∧ parsed st' = parsed st.
Proof.
  unfold requests_line. destruct (contains (lit "->") line); [|by eexists].
  destruct (contains (lit "|") line) eqn:Hbar.
  - destruct (split_once_contains _ _ Hbar) as (a & b & ->).
    destruct (split_once (lit "->") (strip a)) as [|c0 [|c1 [|]]]; by eexists.
  - destruct (split_once (lit "->") (strip line)) as [|c0 [|c1 [|]]]; by eexists.
Qed.

Lemma parse_line_Go raw st :
  ∃ st', parse_line int raw st = Go st' ∧ (built st → built st').
Proof.
  unfold parse_line. destruct (strip raw) as [|c line]; [by eexists|].
  destruct (is_header (c :: line)); [by eexists|].
  destruct (decide (current_section st = _)); [|].
  { eexists. split; [done|]. apply cities_line_built. }
  destruct (decide (current_section st = _)); [apply roads_line_Go|].
  destruct (decide (current_section st = _)); [|by eexists].
  destruct (requests_line_Go (c :: line) st) as (st' & -> & Hst').
  exists st'. split; [done|]. unfold built. by rewrite Hst'.
Qed.

Lemma for_lines_Go content st :
  ∃ st', for_lines int content st = Go st' ∧ (built st → built st').
Proof.
  revert st. induction content as [|raw content IH]; intros st; simpl.
  - by eexists.
  - destruct (parse_line_Go raw st) as (st1 & -> & H1).
    destruct (IH st1) as (st' & -> & H'). eauto.
Qed.

Lemma parse_input_Go filename file st :
  parse_input int filename file = Go st → built st.
Proof.
  unfold parse_input. destruct file as [|msg|content]; [|done|].
  - intros [= <-]. constructor.
  - destruct (for_lines_Go content (mkParser None empty_graph [] []))
      as (st' & -> & Hst).
    intros [= <-]. apply Hst. constructor.
Qed.



(** ** Lines outside the three sections *)

Lemma for_lines_outside junk rest st :
  ¬ known_section st →
  Forall (fun raw => is_header (strip raw) = false) junk →
  for_lines int (junk ++ rest) st = for_lines int rest st.
Proof.
  intros Hst. induction 1 as [|raw junk Hraw _ IH]; simpl; [done|].
  unfold parse_line. destruct (strip raw) as [|c line]; [done|].
  rewrite Hraw. unfold known_section in Hst.
  repeat (destruct (decide (current_section st = _)) as [Heq|_];
          [rewrite Heq in Hst; exfalso; apply Hst; set_solver|]).
  exact IH.
Qed.

(** Lines that stand before the first header, or under a header other
    than "[CITIES]", "[ROADS]", "[REQUESTS]" (spelled exactly so), are
    skipped without a message, whatever they hold. *)
Theorem lines_outside_sections_are_skipped junk rest st :
  ¬ known_section st →
  Forall (fun raw => is_header (strip raw) = false) junk →
  for_lines int (junk ++ rest) st = for_lines int rest st.
Proof. apply for_lines_outside. Qed.

End Parsing.

Lemma lines_outside_sections_are_skipped_witness :
  for_lines decimal
    ([lit "1: A"; lit "1-2: 3,4,5"; lit "A -> B"] ++ [lit "[CITIES]"; lit "2: B"])
    (set_section (lit "[cities]") (mkParser None empty_graph [] []))
  = for_lines decimal [lit "[CITIES]"; lit "2: B"]
      (set_section (lit "[cities]") (mkParser None empty_graph [] [])).
Proof.
  apply (lines_outside_sections_are_skipped decimal); [|by repeat constructor].
  unfold known_section. simpl. rewrite !elem_of_cons, elem_of_nil.
  by intros [|[|[|]]].
Defined.

(** ** Well-formed lines *)

Lemma startswith_char c s :
  startswith [c] s = match s with x :: _ => (c =? x)%N | [] => false end.
Proof. destruct s; simpl; [done|]. apply andb_true_r. Qed.

Lemma str_find_char c a b :
  c ∉ a → str_find [c] (a ++ c :: b) = Some (length a).
Proof.
  induction a as [|x a IH]; intros Hc.
  - cbn [app str_find]. rewrite startswith_char. by rewrite N.eqb_refl.
  - apply not_elem_of_cons in Hc as [Hx Ha].
    cbn [app str_find]. rewrite startswith_char.
    rewrite (proj2 (N.eqb_neq c x) Hx). by rewrite IH.
Qed.

Lemma str_find_two c d a b :
  c ≠ d → d ∉ a → str_find [c; d] (a ++ c :: d :: b) = Some (length a).
Proof.
  intros Hcd. induction a as [|x a IH]; intros Hd.
  - cbn [app str_find startswith]. by rewrite !N.eqb_refl.
  - apply not_elem_of_cons in Hd as [Hx Ha].
    cbn [app str_find]. rewrite IH by done.
    destruct (startswith [c; d] (x :: a ++ c :: d :: b)) eqn:Hstart; [|done].
    exfalso. cbn [startswith] in Hstart.
    apply andb_true_iff in Hstart as [_ Hstart].
    destruct a as [|y a]; cbn [app] in Hstart.
    + apply andb_true_iff in Hstart as [Hdc%N.eqb_eq _]. by apply Hcd.
    + apply andb_true_iff in Hstart as [Hdy%N.eqb_eq _]. apply Ha.
      rewrite Hdy. left.
Qed.

Lemma str_find_absent c s : c ∉ s → str_find [c] s = None.
Proof.
  induction s as [|x s IH]; intros Hc; [done|].
  apply not_elem_of_cons in Hc as [Hx Hs].
  cbn [str_find]. rewrite startswith_char.
  rewrite (proj2 (N.eqb_neq c x) Hx). by rewrite IH.
Qed.

Lemma split_once_char c a b : c ∉ a → split_once [c] (a ++ c :: b) = [a; b].
Proof.
  intros Hc. unfold split_once. rewrite str_find_char by done.
  rewrite take_app_length. cbn [length].
  replace (a ++ c :: b) with ((a ++ [c]) ++ b) by (by rewrite <- app_assoc).
  by rewrite drop_app_length' by (rewrite length_app; simpl; lia).
Qed.

Lemma split_once_two c d a b :
  c ≠ d → d ∉ a → split_once [c; d] (a ++ c :: d :: b) = [a; b].
Proof.
  intros Hcd Hd. unfold split_once. rewrite str_find_two by done.
  rewrite take_app_length. cbn [length].
  replace (a ++ c :: d :: b) with ((a ++ [c; d]) ++ b)
    by (by rewrite <- app_assoc).
  by rewrite drop_app_length' by (rewrite length_app; simpl; lia).
Qed.

Lemma contains_char c a b : contains [c] (a ++ c :: b) = true.
Proof.
  unfold contains.
  assert (∀ s, c ∈ s → is_Some (str_find [c] s)) as Hfind.
  { induction s as [|x s IH]; intros Hc; [by apply elem_of_nil in Hc|].
    cbn [str_find]. rewrite startswith_char.
    destruct (N.eqb_spec c x) as [->|Hx]; [by eexists|].
    apply elem_of_cons in Hc as [->|Hc]; [done|].
    destruct (IH Hc) as [i ->]. by eexists. }
  destruct (Hfind (a ++ c :: b)) as [i ->]; [|done].
  apply elem_of_app. right. left.
Qed.

Lemma contains_absent c s : c ∉ s → contains [c] s = false.
Proof. intros Hc. unfold contains. by rewrite str_find_absent. Qed.

Lemma contains_two c d a b : contains [c; d] (a ++ c :: d :: b) = true.
Proof.
  unfold contains.
  induction a as [|x a IH]; cbn [app str_find].
  - cbn [startswith]. by rewrite !N.eqb_refl.
  - destruct (startswith [c; d] (x :: a ++ c :: d :: b)); [done|].
    by destruct (str_find [c; d] (a ++ c :: d :: b)).
Qed.

Lemma lstrip_by_mid p a c b :
  p c = false → lstrip_by p (a ++ c :: b) = lstrip_by p a ++ c :: b.
Proof.
  intros Hc. induction a as [|x a IH]; simpl; [by rewrite Hc|].
  by destruct (p x).
Qed.

Lemma rstrip_by_mid p a c b :
  p c = false → rstrip_by p (a ++ c :: b) = a ++ c :: rstrip_by p b.
Proof.
  intros Hc. unfold rstrip_by.
  rewrite rev_app_distr. cbn [rev]. rewrite <- app_assoc. cbn [app].
  rewrite lstrip_by_mid by done.
  rewrite rev_app_distr. cbn [rev]. rewrite rev_involutive, <- app_assoc.
  done.
Qed.

Lemma rstrip_by_cons p c b :
  p c = false → rstrip_by p (c :: b) = c :: rstrip_by p b.
Proof. apply (rstrip_by_mid p [] c b). Qed.

(** Stripping a text around a character that is not whitespace. *)
Lemma strip_mid a c b :
  isspace c = false →
  strip (a ++ c :: b) = lstrip_by isspace a ++ c :: rstrip_by isspace b.
Proof.
  intros Hc. unfold strip. rewrite lstrip_by_mid by done.
  by apply rstrip_by_mid.
Qed.

Lemma strip_lstrip a : strip (lstrip_by isspace a) = strip a.
Proof.
  destruct (lstrip_by_split isspace a) as (ws & Ha & Hws).
  rewrite Ha at 2.
  rewrite <- (app_nil_r (lstrip_by isspace a)) at 2.
  by rewrite strip_padded.
Qed.

Lemma strip_rstrip b : strip (rstrip_by isspace b) = strip b.
Proof.
  destruct (rstrip_by_split isspace b) as (ws & Hb & Hws).
  rewrite Hb at 2.
  by rewrite <- (strip_padded [] (rstrip_by isspace b) ws).
Qed.

Lemma lstrip_by_elem p a x : x ∈ lstrip_by p a → x ∈ a.
Proof.
  destruct (lstrip_by_split p a) as (ws & Ha & _). intros Hx.
  rewrite Ha. apply elem_of_app. by right.
Qed.

Lemma rstrip_by_elem p a x : x ∈ rstrip_by p a → x ∈ a.
Proof.
  destruct (rstrip_by_split p a) as (ws & Ha & _). intros Hx.
  rewrite Ha. apply elem_of_app. by left.
Qed.

Lemma strip_elem a x : x ∈ strip a → x ∈ a.
Proof. by intros ?%rstrip_by_elem%lstrip_by_elem. Qed.

Lemma add_city_strip G k name : add_city G k (strip name) = add_city G k name.
Proof. unfold add_city. by rewrite strip_idemp. Qed.

Lemma split_length sep s : (1 ≤ length (split sep s))%nat.
Proof.
  induction s as [|c s IH]; simpl; [lia|].
  destruct (c =? sep)%N; simpl; [lia|].
  destruct (split sep s); simpl in *; lia.
Qed.

Lemma split_app_length sep a b :
  length (split sep (a ++ sep :: b))
  = (length (split sep a) + length (split sep b))%nat.
Proof.
  induction a as [|c a IH]; cbn [app split].
  - by rewrite N.eqb_refl.
  - destruct (c =? sep)%N; cbn [length]; [by rewrite IH|].
    pose proof (split_length sep a). pose proof (split_length sep (a ++ sep :: b)).
    destruct (split sep a), (split sep (a ++ sep :: b)); simpl in *; lia.
Qed.

Section Lines.

Variable int : str → Z + str.

Lemma parse_line_cities a b k st :
  current_section st = Some (lit "[CITIES]") →
  58%N ∉ a → int (strip a) = inl k →
  is_header (strip (a ++ lit ":" ++ b)) = false →
  parse_line int (a ++ lit ":" ++ b) st
  = Go (set_graph (add_city (parsed st) k b) st).
Proof.
  intros Hsec Ha Hk Hhead. unfold parse_line.
  change (lit ":" ++ b) with (58%N :: b) in *.
  rewrite strip_mid in * by done. rewrite Hhead.
  destruct (lstrip_by isspace a ++ 58%N :: rstrip_by isspace b) as [|c line] eqn:Hline.
  { by destruct (lstrip_by isspace a). }
  rewrite <- Hline. rewrite decide_True by done. unfold cities_line.
  change (lit ":") with [58%N]. rewrite contains_char, split_once_char.
  - by rewrite strip_lstrip, Hk, strip_rstrip, add_city_strip.
  - intros Hin%lstrip_by_elem. by apply Ha.
Qed.

(** In the "[CITIES]" section, a line with a colon whose text before the
    first colon [int] reads as an id registers, without a message,
    everything after that colon (later colons included, whitespace around
    it dropped) as the name of the id. *)
Theorem city_line_registers a b k st :
  current_section st = Some (lit "[CITIES]") →
  58%N ∉ a → int (strip a) = inl k →
  is_header (strip (a ++ lit ":" ++ b)) = false →
  ∃ st', parse_line int (a ++ lit ":" ++ b) st = Go st' ∧
         stdout st' = stdout st ∧
         get_name_by_id (parsed st') k = strip b ∧
         get_id_by_name (parsed st') b = Some k.
Proof.
  intros Hsec Ha Hk Hhead. eexists. split; [by apply parse_line_cities|].
  split; [done|]. unfold get_name_by_id, get_id_by_name. simpl.
  by rewrite !lookup_insert_eq.
Qed.

Lemma strip_two_hyphens a b c :
  strip (a ++ 45%N :: b ++ 45%N :: c)
  = lstrip_by isspace a ++ 45%N :: b ++ 45%N :: rstrip_by isspace c.
Proof.
  rewrite strip_mid by done. f_equal. f_equal.
  by rewrite rstrip_by_mid.
Qed.

(** In the "[ROADS]" section, a line whose text before the first colon
    holds two or more hyphens (a negative id, for one) is skipped without
    a message and without a call to [int]: the graph gains nothing. *)
Theorem road_line_with_two_hyphens_is_skipped a b c params st :
  current_section st = Some (lit "[ROADS]") →
  58%N ∉ a → 58%N ∉ b → 58%N ∉ c →
  is_header (strip (a ++ lit "-" ++ b ++ lit "-" ++ c ++ lit ":" ++ params))
  = false →
  parse_line int (a ++ lit "-" ++ b ++ lit "-" ++ c ++ lit ":" ++ params) st
  = Go st.
Proof.
  intros Hsec Ha Hb Hc Hhead. unfold parse_line.
  change (a ++ lit "-" ++ b ++ lit "-" ++ c ++ lit ":" ++ params)
    with (a ++ 45%N :: b ++ 45%N :: c ++ 58%N :: params) in *.
  replace (a ++ 45%N :: b ++ 45%N :: c ++ 58%N :: params)
    with ((a ++ 45%N :: b ++ 45%N :: c) ++ 58%N :: params) in *
    by (by rewrite <- !app_assoc; simpl; rewrite <- !app_assoc).
  rewrite strip_mid in * by done. rewrite Hhead.
  set (p0 := lstrip_by isspace (a ++ 45%N :: b ++ 45%N :: c)).
  destruct (p0 ++ 58%N :: rstrip_by isspace params) as [|x line] eqn:Hline.
  { by destruct p0. }
  rewrite <- Hline. rewrite decide_False by (by rewrite Hsec).
  rewrite decide_True by done. unfold roads_line.
  change (lit ":") with [58%N]. rewrite contains_char, split_once_char.
  2:{ intros Hin%lstrip_by_elem.
      rewrite !elem_of_app, !elem_of_cons, !elem_of_app, !elem_of_cons in Hin.
      naive_solver. }
  replace (strip p0) with (strip (a ++ 45%N :: b ++ 45%N :: c))
    by (by rewrite <- strip_lstrip).
  rewrite strip_two_hyphens.
  destruct (contains (lit "-") _); [|done].
  pose proof (split_app_length 45 (lstrip_by isspace a)
                (b ++ 45%N :: rstrip_by isspace c)) as Hlen.
  pose proof (split_app_length 45 b (rstrip_by isspace c)) as Hlen'.
  pose proof (split_length 45 (lstrip_by isspace a)).
  pose proof (split_length 45 b).
  pose proof (split_length 45 (rstrip_by isspace c)).
  destruct (split 45 _) as [|c0 [|c1 [|]]]; simpl in Hlen; try done; lia.
Qed.

Lemma parse_line_requests a b st :
  current_section st = Some (lit "[REQUESTS]") →
  62%N ∉ a → 124%N ∉ a → 124%N ∉ b →
  is_header (strip (a ++ lit "->" ++ b)) = false →
  parse_line int (a ++ lit "->" ++ b) st
  = Go (append_request (strip a, strip b, default_priorities) st).
Proof.
  intros Hsec Ha Hbar Hbar' Hhead. unfold parse_line.
  change (lit "->" ++ b) with (45%N :: 62%N :: b) in *.
  destruct (strip (a ++ 45%N :: 62%N :: b)) as [|x line] eqn:Hline.
  { rewrite strip_mid in Hline by done. by destruct (lstrip_by isspace a). }
  rewrite Hhead, <- Hline.
  rewrite !decide_False by (by rewrite Hsec). rewrite decide_True by done.
  unfold requests_line. change (lit "->") with [45%N; 62%N].
  change (lit "|") with [124%N].
  assert (strip (a ++ 45%N :: 62%N :: b)
          = lstrip_by isspace a ++ 45%N :: 62%N :: rstrip_by isspace b) as Hs.
  { rewrite strip_mid by done. f_equal. f_equal.
    by rewrite rstrip_by_cons. }
  rewrite Hs. rewrite contains_two.
  rewrite contains_absent.
  2:{ rewrite elem_of_app, !elem_of_cons.
      intros [Hin%lstrip_by_elem|[|[|Hin%rstrip_by_elem]]]; done. }
  rewrite <- Hs, strip_idemp, Hs.
  rewrite split_once_two; [|done|].
  2:{ intros Hin%lstrip_by_elem. by apply Ha. }
  by rewrite strip_lstrip, strip_rstrip.
Qed.

Lemma parse_line_requests_bar a b p st :
  current_section st = Some (lit "[REQUESTS]") →
  62%N ∉ a → 124%N ∉ a → 124%N ∉ b →
  is_header (strip (a ++ lit "->" ++ b ++ lit "|" ++ p)) = false →
  parse_line int (a ++ lit "->" ++ b ++ lit "|" ++ p) st
  = Go (append_request (strip a, strip b, strip p) st).
Proof.
  intros Hsec Ha Hbar Hbar' Hhead. unfold parse_line.
  change (a ++ lit "->" ++ b ++ lit "|" ++ p)
    with (a ++ 45%N :: 62%N :: b ++ 124%N :: p) in *.
  assert (strip (a ++ 45%N :: 62%N :: b ++ 124%N :: p)
          = (lstrip_by isspace a ++ 45%N :: 62%N :: b)
            ++ 124%N :: rstrip_by isspace p) as Hs.
  { rewrite strip_mid by done. rewrite <- app_assoc. cbn [app]. f_equal. f_equal.
    rewrite rstrip_by_cons by done. f_equal.
    by rewrite rstrip_by_mid. }
  rewrite Hs in *. rewrite Hhead.
  destruct ((lstrip_by isspace a ++ 45%N :: 62%N :: b)
            ++ 124%N :: rstrip_by isspace p) as [|x line] eqn:Hline.
  { by destruct (lstrip_by isspace a). }
  rewrite <- Hline.
  rewrite !decide_False by (by rewrite Hsec). rewrite decide_True by done.
  unfold requests_line. change (lit "->") with [45%N; 62%N].
  change (lit "|") with [124%N].
  rewrite contains_char, split_once_char.
  2:{ rewrite elem_of_app, !elem_of_cons.
      intros [Hin%lstrip_by_elem|[|[|Hin]]]; done. }
  rewrite <- (app_assoc (lstrip_by isspace a)) at 1. cbn [app].
  rewrite contains_two.
  assert (strip (lstrip_by isspace a ++ 45%N :: 62%N :: b)
          = lstrip_by isspace a ++ 45%N :: 62%N :: rstrip_by isspace b) as Hr.
  { rewrite strip_mid by done.
    rewrite (lstrip_by_id isspace (lstrip_by isspace a))
      by apply lstrip_by_trimmed.
    f_equal. f_equal. by rewrite rstrip_by_cons. }
  rewrite Hr. rewrite split_once_two; [|done|].
  2:{ intros Hin%lstrip_by_elem. by apply Ha. }
  by rewrite strip_lstrip, !strip_rstrip.
Qed.

(** In the "[REQUESTS]" section, a line [a -> b] is recorded as the
    request from [a] to [b] with the priorities "(Д,В,С)", and a line
    [a -> b | p] as the request from [a] to [b] with the priorities [p];
    names and priorities are stripped, and nothing is printed. *)
Theorem request_line_is_recorded a b p st :
  current_section st = Some (lit "[REQUESTS]") →
  62%N ∉ a → 124%N ∉ a → 124%N ∉ b →
  is_header (strip (request_text a b p)) = false →
  parse_line int (request_text a b p) st
  = Go (append_request
          (strip a, strip b, from_option strip default_priorities p) st).
Proof.
  intros Hsec Ha Hbar Hbar'. destruct p as [p|]; unfold request_text; simpl.
  - by apply parse_line_requests_bar.
  - rewrite app_nil_r. by apply parse_line_requests.
Qed.

End Lines.

Lemma city_line_registers_witness :
  ∃ st', parse_line decimal (lit " 2 " ++ lit ":" ++ utf8 " Б:б ")
           (set_section (lit "[CITIES]") (mkParser None empty_graph [] []))
         = Go st' ∧
         stdout st' = [] ∧
         get_name_by_id (parsed st') 2 = strip (utf8 " Б:б ") ∧
         get_id_by_name (parsed st') (utf8 " Б:б ") = Some 2.
Proof.
  apply (city_line_registers decimal (lit " 2 ") (utf8 " Б:б ") 2
           (set_section (lit "[CITIES]") (mkParser None empty_graph [] [])));
    [reflexivity|compute_done|by vm_compute|by vm_compute].
Defined.

Lemma road_line_with_two_hyphens_is_skipped_witness :
  parse_line decimal
    ([] ++ lit "-" ++ lit "1" ++ lit "-" ++ lit "3" ++ lit ":" ++ lit " 1,1,1")
    (set_section (lit "[ROADS]") (mkParser None empty_graph [] []))
  = Go (set_section (lit "[ROADS]") (mkParser None empty_graph [] [])).
Proof.
  apply (road_line_with_two_hyphens_is_skipped decimal [] (lit "1") (lit "3")
           (lit " 1,1,1"));
    [reflexivity|compute_done|compute_done|compute_done|by vm_compute].
Defined.

Lemma request_line_is_recorded_witness :
  parse_line decimal (request_text (lit "A ") (lit " C") (Some (utf8 " (С, В)")))
    (set_section (lit "[REQUESTS]") (mkParser None empty_graph [] []))
  = Go (append_request
          (strip (lit "A "), strip (lit " C"),
           from_option strip default_priorities (Some (utf8 " (С, В)")))
          (set_section (lit "[REQUESTS]") (mkParser None empty_graph [] []))).
Proof.
  apply (request_line_is_recorded decimal (lit "A ") (lit " C")
           (Some (utf8 " (С, В)")));
    [reflexivity|compute_done|compute_done|compute_done|by vm_compute].
Defined.

(** * The optimizer as [main] uses it *)

(** ** What the optimizer can raise *)

Lemma getitem_Raise {V} (d : gmap Z V) k e :
  getitem d k = Raise e → e = KeyError k.
Proof. unfold getitem. destruct (d !! k); [done|]. by intros [= <-]. Qed.

Lemma tuple_getitem_Ok p c : 0 ≤ c ≤ 2 → ∃ w, tuple_getitem p c = Ok w.
Proof.
  intros Hc. assert (c = 0 ∨ c = 1 ∨ c = 2) as [->|[->| ->]] by lia;
    destruct p as [[x y] z]; by eexists.
Qed.

Lemma relax_Raise c cur cd l r e :
  0 ≤ c ≤ 2 → relax c cur cd l r = Raise e → ∃ k, e = KeyError k.
Proof.
  intros Hc. destruct r as [[[neighbor dist] time] cost]. unfold relax.
  destruct (tuple_getitem_Ok (dist, time, cost) c Hc) as [w ->].
  destruct (getitem (distances l) neighbor) as [dn|x] eqn:Hd.
  - destruct (lt_num (cd + w) dn); [|done].
    destruct (getitem (total_params l) cur) as [[[o0 o1] o2]|x] eqn:Ht; [done|].
    intros [= <-]. apply getitem_Raise in Ht. eauto.
  - intros [= <-]. apply getitem_Raise in Hd. eauto.
Qed.

Lemma for_roads_Raise c cur cd rs l e :
  0 ≤ c ≤ 2 → for_roads c cur cd rs l = Raise e → ∃ k, e = KeyError k.
Proof.
  intros Hc. revert l. induction rs as [|r rs IH]; intros l; simpl; [done|].
  destruct (relax c cur cd l r) as [l'|x] eqn:Hrelax; [apply IH|].
  intros [= <-]. by eapply relax_Raise.
Qed.

Lemma iteration_Abort t c g l g' e :
  0 ≤ c ≤ 2 → iteration t c g l = Abort g' e → ∃ k, e = KeyError k.
Proof.
  intros Hc. unfold iteration.
  destruct (heappop (heap l)) as [[[cd cur] h]|]; [|done].
  destruct (getitem (distances l) cur) as [dc|x] eqn:Hd.
  - destruct (gt_num cd dc); [done|]. destruct (cur =? t); [done|].
    destruct (defaultdict_getitem g cur) as [g1 roads].
    destruct (for_roads c cur cd roads (with_heap l h)) as [l2|x] eqn:Hfor;
      [done|].
    intros [= _ <-]. by eapply for_roads_Raise.
  - intros [= _ <-]. apply getitem_Raise in Hd. eauto.
Qed.

Lemma while_heap_Abort fuel t c g l g' e :
  0 ≤ c ≤ 2 → while_heap fuel t c g l = Some (Abort g' e) → ∃ k, e = KeyError k.
Proof.
  intros Hc. revert g l. induction fuel as [|fuel IH]; intros g l; [done|].
  simpl. destruct (iteration t c g l) as [g1 l1|g1 l1|g1 x] eqn:Hit.
  - apply IH.
  - done.
  - intros [= _ <-]. by eapply iteration_Abort.
Qed.

Lemma backtrack_Raise fuel P cur acc e :
  backtrack fuel P cur acc = Some (Raise e) → ∃ k, e = KeyError k.
Proof.
  revert cur acc. induction fuel as [|fuel IH]; intros [c|] acc; simpl; try done.
  destruct (getitem P c) as [p|x] eqn:Hp; [apply IH|].
  intros [= <-]. apply getitem_Raise in Hp. eauto.
Qed.

Lemma epilogue_Raise fuel t l e :
  epilogue fuel t l = Some (Raise e) → ∃ k, e = KeyError k.
Proof.
  unfold epilogue. destruct (getitem (distances l) t) as [d|x] eqn:Hd.
  - destruct (is_inf d); [done|].
    destruct (backtrack fuel (prev l) (Some t) []) as [[path|x]|] eqn:Hback;
      [| |done].
    + destruct (getitem (total_params l) t) as [tp|x] eqn:Ht; [done|].
      intros [= <-]. apply getitem_Raise in Ht. eauto.
    + intros [= <-]. by eapply backtrack_Raise.
  - intros [= <-]. apply getitem_Raise in Hd. eauto.
Qed.

Lemma find_optimal_path_Raise G s t c fuel G' e :
  0 ≤ c ≤ 2 →
  find_optimal_path G s t c fuel = Some (G', Raise e) → ∃ k, e = KeyError k.
Proof.
  intros Hc. unfold find_optimal_path.
  destruct (while_heap _ _ _ _ _) as [[g l|g l|g x]|] eqn:Hloop; try done.
  - destruct (epilogue fuel t l) as [r|] eqn:Hep; [|done].
    intros [= _ ->]. by eapply epilogue_Raise.
  - intros [= _ <-]. by eapply while_heap_Abort.
Qed.

Lemma routes_loop_Raise fuel G s e cs acc G' x :
  Forall (fun c : str * Z => 0 ≤ c.2 ≤ 2) cs →
  routes_loop fuel G s e cs acc = Some (G', Raise x) → ∃ k, x = KeyError k.
Proof.
  intros Hcs. revert G acc.
  induction Hcs as [|[name idx] cs Hidx _ IH]; intros G acc; simpl; [done|].
  destruct (find_optimal_path G s e idx fuel) as [[Ga [[path params]|y]]|]
    eqn:Hcall; [apply IH| |done].
  intros [= _ <-]. by eapply find_optimal_path_Raise.
Qed.

Lemma get_all_optimal_routes_Raise G start end_ fuel G' x :
  get_all_optimal_routes G start end_ fuel = Some (G', Raise x) →
  ∃ k, x = KeyError k.
Proof.
  unfold get_all_optimal_routes.
  destruct (py_not _ || py_not _); [done|].
  destruct (get_id_by_name G start) as [s|]; [|done].
  destruct (get_id_by_name G end_) as [e|]; [|done].
  apply routes_loop_Raise. repeat constructor; simpl; lia.
Qed.

(** For the criteria 0, 1 and 2 the only exception that leaves
    [find_optimal_path] is a [KeyError]: the index into the parameter
    tuple is always in range. The same holds for
    [get_all_optimal_routes], which uses just these criteria. *)
Theorem optimizer_raises_only_KeyError G s t c start end_ fuel G' e :
  (0 ≤ c ≤ 2 ∧ find_optimal_path G s t c fuel = Some (G', Raise e)) ∨
  get_all_optimal_routes G start end_ fuel = Some (G', Raise e) →
  ∃ k, e = KeyError k.
Proof.
  intros [[Hc Hcall]|Hcall].
  - by eapply find_optimal_path_Raise.
  - by eapply get_all_optimal_routes_Raise.
Qed.

Lemma optimizer_raises_only_KeyError_witness : ∃ k, KeyError 3 = KeyError k.
Proof.
  apply (optimizer_raises_only_KeyError lonely 1 3 0 (lit "A") (lit "C") 7
           lonely (KeyError 3)).
  right. by vm_compute.
Defined.

(** ** A RouteSet is empty or complete *)

Lemma walk_same_roads (g g' : adjacency) u v rs :
  (∀ x, roads_of g' x = roads_of g x) → walk g u v rs → walk g' u v rs.
Proof.
  intros Hsame. induction 1 as [u|u v r rs Hr _ IH]; [constructor|].
  constructor; [by rewrite Hsame|done].
Qed.

Lemma find_optimal_path_roads G s t c fuel G' r x :
  find_optimal_path G s t c fuel = Some (G', r) →
  roads_of (graph G') x = roads_of (graph G) x.
Proof.
  unfold find_optimal_path.
  destruct (while_heap _ _ _ _ _) as [f|] eqn:Hloop; [|done].
  apply while_heap_same_roads with (g0 := graph G) (s := s) in Hloop;
    [|apply ginv_init|by left].
  destruct f as [g l|g l|g e]; [done| |].
  - destruct (epilogue fuel t l); [|done]. intros [= <- _].
    by apply (same_roads_of (graph G) s).
  - intros [= <- _]. by apply (same_roads_of (graph G) s).
Qed.

Lemma find_optimal_path_path G s t c fuel G' r :
  find_optimal_path G s t c fuel = Some (G', Ok r) →
  r.1 ≠ [] ↔ ∃ rs, walk (graph G) s t rs.
Proof.
  intros [[-> Hnone]|[Hne Hwalk]]%find_optimal_path_reach; [|done].
  split; [done|]. intros [rs Hrs]. by destruct (Hnone rs).
Qed.

Lemma routes_loop_complete fuel G s e G' routes :
  routes_loop fuel G s e criteria ∅ = Some (G', Ok routes) →
  routes = ∅ ∨ complete routes.
Proof.
  unfold criteria. cbn [routes_loop].
  destruct (find_optimal_path G s e 0 fuel) as [[G0 [[p0 t0]|y]]|] eqn:H0;
    [| |done]; [|done].
  assert (∀ p : list Z, (match p with [] => False | _ :: _ => True end)
                        ↔ p ≠ []) as Hnil by (by intros []).
  pose proof (find_optimal_path_path _ _ _ _ _ _ _ H0) as Hw0.
  destruct (find_optimal_path G0 s e 1 fuel) as [[G1 [[p1 t1]|y]]|] eqn:H1;
    [| |done]; [|by destruct p0].
  pose proof (find_optimal_path_path _ _ _ _ _ _ _ H1) as Hw1.
  set (acc1 := match p0 with [] => ∅ | _ :: _ => <[DLINA := (p0, t0)]> ∅ end).
  set (acc2 := match p1 with [] => acc1 | _ :: _ => <[VREMYA := (p1, t1)]> acc1 end).
  destruct (find_optimal_path G1 s e 2 fuel) as [[G2 [[p2 t2]|y]]|] eqn:H2;
    [| |done]; [|done].
  pose proof (find_optimal_path_path _ _ _ _ _ _ _ H2) as Hw2.
  intros [= _ <-]. simpl in Hw0, Hw1, Hw2.
  assert ((∃ rs, walk (graph G0) s e rs) ↔ ∃ rs, walk (graph G) s e rs) as Hg0.
  { split; intros [rs Hrs]; exists rs; revert Hrs; apply walk_same_roads;
      intros x; by rewrite (find_optimal_path_roads _ _ _ _ _ _ _ x H0). }
  assert ((∃ rs, walk (graph G1) s e rs) ↔ ∃ rs, walk (graph G0) s e rs) as Hg1.
  { split; intros [rs Hrs]; exists rs; revert Hrs; apply walk_same_roads;
      intros x; by rewrite (find_optimal_path_roads _ _ _ _ _ _ _ x H1). }
  destruct p0 as [|a0 p0].
  - assert (p1 = []) as ->.
    { destruct p1; [done|]. exfalso. apply (proj2 Hw0); [|done].
      apply (proj1 Hg0), (proj1 Hw1). done. }
    assert (p2 = []) as ->.
    { destruct p2; [done|]. exfalso. apply (proj2 Hw0); [|done].
      apply (proj1 Hg0), (proj1 Hg1), (proj1 Hw2). done. }
    by left.
  - assert (p1 ≠ []) as Hp1.
    { apply (proj2 Hw1), (proj2 Hg0), (proj1 Hw0). done. }
    assert (p2 ≠ []) as Hp2.
    { apply (proj2 Hw2), (proj2 Hg1), (proj2 Hg0), (proj1 Hw0). done. }
    right. exists (a0 :: p0, t0), (p1, t1), (p2, t2).
    do 3 (split; [done|]). unfold acc2, acc1. by destruct p1, p2.
Qed.

Lemma get_all_optimal_routes_complete G start end_ fuel G' routes :
  get_all_optimal_routes G start end_ fuel = Some (G', Ok routes) →
  routes = ∅ ∨ complete routes.
Proof.
  unfold get_all_optimal_routes.
  destruct (py_not _ || py_not _); [intros [= _ <-]; by left|].
  destruct (get_id_by_name G start) as [s|]; [|intros [= _ <-]; by left].
  destruct (get_id_by_name G end_) as [e|]; [|intros [= _ <-]; by left].
  apply routes_loop_complete.
Qed.

(** Whatever the weights, a RouteSet that [get_all_optimal_routes]
    returns is either empty or holds a non-empty path under each of
    "ДЛИНА", "ВРЕМЯ" and "СТОИМОСТЬ": whether a path is found does not
    depend on the criterion, also when an earlier run has added the start
    id to the adjacency map. *)
Theorem route_set_is_empty_or_complete G start end_ fuel G' routes :
  get_all_optimal_routes G start end_ fuel = Some (G', Ok routes) →
  routes = ∅ ∨
  ∃ r0 r1 r2, r0.1 ≠ [] ∧ r1.1 ≠ [] ∧ r2.1 ≠ [] ∧
    routes = <[STOIMOST := r2]> (<[VREMYA := r1]> (<[DLINA := r0]> ∅)).
Proof. apply get_all_optimal_routes_complete. Qed.

Lemma route_set_is_empty_or_complete_witness :
  triangle_routes = ∅ ∨
  ∃ r0 r1 r2, r0.1 ≠ [] ∧ r1.1 ≠ [] ∧ r2.1 ≠ [] ∧
    triangle_routes
    = <[STOIMOST := r2]> (<[VREMYA := r1]> (<[DLINA := r0]> ∅)).
Proof.
  apply (route_set_is_empty_or_complete triangle (lit "A") (lit "C") 11
           triangle).
  by vm_compute.
Defined.

(** * main *)

(** ** The lines of one request *)

Lemma criterion_lines_complete G r0 r1 r2 :
  criterion_lines G (<[STOIMOST := r2]> (<[VREMYA := r1]> (<[DLINA := r0]> ∅)))
  = [result_line DLINA (format_path r0.1 G) r0.2;
     result_line VREMYA (format_path r1.1 G) r1.2;
     result_line STOIMOST (format_path r2.1 G) r2.2].
Proof.
  unfold criterion_lines. cbn [fmap list_fmap].
  rewrite lookup_insert_eq.
  rewrite (lookup_insert_ne _ STOIMOST VREMYA), lookup_insert_eq by done.
  rewrite (lookup_insert_ne _ STOIMOST DLINA) by done.
  rewrite (lookup_insert_ne _ VREMYA DLINA), lookup_insert_eq by done.
  by destruct r0, r1, r2.
Qed.

Lemma request_lines_Ok fuel G start_city end_city priorities G' lines :
  request_lines fuel G (start_city, end_city, priorities) = Some (G', Ok lines) →
  lines = [utf8 "Нет пути между " ++ start_city ++ utf8 " и " ++ end_city] ∨
  ∃ r0 r1 r2 routes,
    r0.1 ≠ [] ∧ r1.1 ≠ [] ∧ r2.1 ≠ [] ∧
    routes = <[STOIMOST := r2]> (<[VREMYA := r1]> (<[DLINA := r0]> ∅)) ∧
    lines = [result_line DLINA (format_path r0.1 G') r0.2;
             result_line VREMYA (format_path r1.1 G') r1.2;
             result_line STOIMOST (format_path r2.1 G') r2.2;
             compromise_line G' routes priorities;
             []].
Proof.
  unfold request_lines.
  destruct (get_all_optimal_routes G start_city end_city fuel)
    as [[G1 [routes|x]]|] eqn:Hall; [| |done]; [|done].
  apply get_all_optimal_routes_complete in Hall
    as [->|(r0 & r1 & r2 & H0 & H1 & H2 & ->)].
  - rewrite decide_True by done. intros [= <- <-]. by left.
  - rewrite decide_False by apply insert_non_empty.
    rewrite criterion_lines_complete.
    intros [= <- <-]. right. exists r0, r1, r2. by eexists.
Qed.

(** A request that raises nothing adds to the output either the one line
    "Нет пути между ... и ..." or five lines: a route for each of
    "ДЛИНА", "ВРЕМЯ", "СТОИМОСТЬ", the compromise, and an empty line.
    The line "<criterion>: Нет пути" is never written. *)
Theorem request_adds_one_line_or_five fuel G start_city end_city priorities
    G' lines :
  request_lines fuel G (start_city, end_city, priorities) = Some (G', Ok lines) →
  lines = [utf8 "Нет пути между " ++ start_city ++ utf8 " и " ++ end_city] ∨
  ∃ r0 r1 r2 routes,
    r0.1 ≠ [] ∧ r1.1 ≠ [] ∧ r2.1 ≠ [] ∧
    routes = <[STOIMOST := r2]> (<[VREMYA := r1]> (<[DLINA := r0]> ∅)) ∧
    lines = [result_line DLINA (format_path r0.1 G') r0.2;
             result_line VREMYA (format_path r1.1 G') r1.2;
             result_line STOIMOST (format_path r2.1 G') r2.2;
             compromise_line G' routes priorities;
             []].
Proof. apply request_lines_Ok. Qed.

Lemma request_adds_one_line_or_five_witness :
  let lines := criterion_lines triangle triangle_routes
               ++ [compromise_line triangle triangle_routes default_priorities;
                   []] in
  lines = [utf8 "Нет пути между " ++ lit "A" ++ utf8 " и " ++ lit "C"] ∨
  ∃ r0 r1 r2 routes,
    r0.1 ≠ [] ∧ r1.1 ≠ [] ∧ r2.1 ≠ [] ∧
    routes = <[STOIMOST := r2]> (<[VREMYA := r1]> (<[DLINA := r0]> ∅)) ∧
    lines = [result_line DLINA (format_path r0.1 triangle) r0.2;
             result_line VREMYA (format_path r1.1 triangle) r1.2;
             result_line STOIMOST (format_path r2.1 triangle) r2.2;
             compromise_line triangle routes default_priorities;
             []].
Proof.
  apply (request_adds_one_line_or_five 11 triangle (lit "A") (lit "C")
           default_priorities triangle).
  by vm_compute.
Defined.

(** ** How a run ends *)



Section Main.

Variable int : str → Z + str.



Local Arguments utf8 : simpl never.
Local Arguments lit : simpl never.



(** A missing input file is no failure of the run: the message of
    [parse_input] is printed, then an empty output file is written and
    reported, and the exit status is 0. *)
Lemma main_without_input_file fuel :
  main int Absent Writable fuel
  = Some (mkRun [utf8 "Файл input.txt не найден";
                 utf8 "Результаты записаны в output.txt"]
                (Some (lit "output.txt", [])) 0).
Proof. by vm_compute. Qed.

End Main.


(** ** Termination *)

Lemma nonnegative_insert_nil G s :
  nonnegative G → nonnegative (with_graph G (<[s := []]> (graph G))).
Proof.
  unfold nonnegative. simpl. intros Hnn. by apply map_Forall_insert_2.
Qed.

Lemma closed_insert_nil G s :
  closed_graph G → closed_graph (with_graph G (<[s := []]> (graph G))).
Proof.
  unfold closed_graph. simpl. intros Hcl.
  apply map_Forall_insert_2; [done|].
  intros u rs Hrs. specialize (Hcl u rs Hrs). simpl in Hcl.
  eapply Forall_impl; [exact Hcl|]. intros r [l Hl]. simpl.
  destruct (decide (s = neighbor_of r)) as [->|Hne].
  - rewrite lookup_insert_eq. by eexists.
  - rewrite lookup_insert_ne by done. by eexists.
Qed.

Lemma enough_fuel_insert_nil G s :
  graph G !! s = None →
  (enough_fuel (with_graph G (<[s := []]> (graph G))) ≤ enough_fuel G + 1)%nat.
Proof.
  intros Hs. unfold enough_fuel, road_count. simpl.
  rewrite map_size_insert_None by done.
  rewrite dom_insert_L, elements_union_singleton
    by (by apply not_elem_of_dom).
  cbn [sum_list_with]. unfold roads_of at 1. rewrite lookup_insert_eq. simpl.
  pose proof (sum_list_with_mono
                (fun u => length (roads_of (graph G) u))
                (fun u => length (roads_of (<[s := []]> (graph G)) u))
                (elements (dom (graph G)))) as Hle.
  cut (sum_list_with (fun u => length (roads_of (<[s := []]> (graph G)) u))
         (elements (dom (graph G)))
       ≤ sum_list_with (fun u => length (roads_of (graph G) u))
           (elements (dom (graph G))))%nat; [lia|].
  apply Hle. intros u. unfold roads_of.
  destruct (decide (s = u)) as [->|Hne].
  - rewrite lookup_insert_eq. simpl. lia.
  - by rewrite lookup_insert_ne.
Qed.

Lemma enough_fuel_2 G : (2 ≤ enough_fuel G)%nat.
Proof. unfold enough_fuel. lia. Qed.

Lemma routes_loop_total fuel G s e cs acc :
  Forall (fun c : str * Z => 0 ≤ c.2 ≤ 2) cs →
  nonnegative G → closed_graph G → is_Some (graph G !! s) →
  (enough_fuel G ≤ fuel)%nat →
  ∃ r, routes_loop fuel G s e cs acc = Some (G, r).
Proof.
  intros Hcs Hnn Hcl Hs Hfuel. revert acc.
  induction Hcs as [|[name idx] cs Hidx _ IH]; intros acc; simpl; [by eexists|].
  simpl in Hidx.
  assert (∀ u r, r ∈ roads_of (graph G) u → 0 ≤ weight idx r) as Hw.
  { intros u r Hr. by eapply nonnegative_weight. }
  destruct (graph G !! e) as [rs|] eqn:He.
  - destruct (find_optimal_path_total G s e idx fuel) as [[path params] ->];
      [done..|by eexists|done|].
    apply IH.
  - rewrite find_optimal_path_absent_target by done. by eexists.
Qed.

(** A call of the orchestrator returns, and keeps the conditions for the
    next call; the graph may have gained one key. *)
Lemma get_all_optimal_routes_total G start end_ fuel :
  nonnegative G → closed_graph G → (enough_fuel G + 1 ≤ fuel)%nat →
  ∃ G' r, get_all_optimal_routes G start end_ fuel = Some (G', r) ∧
          nonnegative G' ∧ closed_graph G' ∧
          (enough_fuel G' ≤ enough_fuel G + 1)%nat.
Proof.
  intros Hnn Hcl Hfuel. unfold get_all_optimal_routes.
  pose proof (enough_fuel_2 G) as H2.
  destruct (py_not _ || py_not _); [exists G; eexists; repeat split; done || lia|].
  destruct (get_id_by_name G start) as [s|];
    [|exists G; eexists; repeat split; done || lia].
  destruct (get_id_by_name G end_) as [e|];
    [|exists G; eexists; repeat split; done || lia].
  assert (Forall (fun c : str * Z => 0 ≤ c.2 ≤ 2) criteria) as Hcs.
  { repeat constructor; simpl; lia. }
  destruct (graph G !! s) as [rs|] eqn:Hs.
  - destruct (routes_loop_total fuel G s e criteria ∅) as [r ->];
      [done..|by eexists|lia|].
    exists G, r. repeat split; done || lia.
  - set (G1 := with_graph G (<[s := []]> (graph G))).
    assert (nonnegative G1) as Hnn1 by (by apply nonnegative_insert_nil).
    assert (closed_graph G1) as Hcl1 by (by apply closed_insert_nil).
    assert (enough_fuel G1 ≤ enough_fuel G + 1)%nat as Hf1
      by (by apply enough_fuel_insert_nil).
    destruct (decide (s = e)) as [<-|Hne].
    + unfold criteria. cbn [routes_loop].
      rewrite find_optimal_path_same_no_key by (done || lia).
      exists G. eexists. repeat split; done || lia.
    + assert (roads_of (graph G) s = []) as Hroads
        by (unfold roads_of; by rewrite Hs).
      unfold criteria. cbn [routes_loop].
      rewrite find_optimal_path_no_roads by (done || lia).
      unfold defaultdict_getitem. rewrite Hs. cbn [fst]. fold G1.
      destruct (decide (is_Some (graph G !! e))) as [He|He].
      * destruct (routes_loop_total fuel G1 s e [(VREMYA, 1); (STOIMOST, 2)] ∅)
          as [r Hr]; [repeat constructor; simpl; lia|done..| |lia|].
        { simpl. rewrite lookup_insert_eq. by eexists. }
        cbn [routes_loop] in Hr. cbn [NoPath]. unfold NoPath. rewrite Hr.
        exists G1, r. repeat split; done.
      * exists G1. eexists. repeat split; done.
Qed.

Lemma request_lines_total fuel G r :
  nonnegative G → closed_graph G → (enough_fuel G + 1 ≤ fuel)%nat →
  ∃ G' x, request_lines fuel G r = Some (G', x) ∧
          nonnegative G' ∧ closed_graph G' ∧
          (enough_fuel G' ≤ enough_fuel G + 1)%nat.
Proof.
  intros Hnn Hcl Hfuel. destruct r as [[start_city end_city] priorities].
  destruct (get_all_optimal_routes_total G start_city end_city fuel
              Hnn Hcl Hfuel) as (G' & x & Hall & Hinv).
  unfold request_lines. rewrite Hall. destruct x as [routes|e].
  - destruct (decide (routes = ∅)); eauto.
  - eauto.
Qed.

Lemma for_requests_total fuel G rs acc :
  nonnegative G → closed_graph G →
  (enough_fuel G + length rs ≤ fuel)%nat →
  ∃ G' x, for_requests fuel G rs acc = Some (G', x).
Proof.
  revert G acc. induction rs as [|r rs IH]; intros G acc Hnn Hcl Hfuel;
    cbn [for_requests length] in *; [by eexists _, _|].
  destruct (request_lines_total fuel G r) as (G1 & x & -> & Hnn1 & Hcl1 & Hf1);
    [done|done|lia|].
  destruct x as [lines|e]; [|by eexists _, _].
  apply IH; [done..|lia].
Qed.

Section Termination.

Variable int : str → Z + str.

Lemma main_total input output st fuel :
  parse_input int (lit "input.txt") input = Go st →
  nonnegative (parsed st) →
  (enough_fuel (parsed st) + length (requests st) ≤ fuel)%nat →
  ∃ r, main int input output fuel = Some r.
Proof.
  intros Hparse Hnn Hfuel.
  pose proof (parse_input_Go int _ _ _ Hparse) as Hb.
  unfold main. rewrite Hparse.
  destruct (for_requests_total fuel (parsed st) (requests st) [])
    as (G' & x & ->); [done|by apply constructed_closed|done|].
  destruct x; [|by eexists]. destruct output; by eexists.
Qed.

(** When none of the road parameters read from the file is negative, the
    run ends, whatever happens to the output file: [enough_fuel] passes
    for the parsed graph, and one more for each request, suffice for every
    loop of the optimizer. *)
Theorem main_terminates input output st fuel :
  parse_input int (lit "input.txt") input = Go st →
  nonnegative (parsed st) →
  (enough_fuel (parsed st) + length (requests st) ≤ fuel)%nat →
  ∃ r, main int input output fuel = Some r.
Proof. apply main_total. Qed.

End Termination.

Lemma main_terminates_witness :
  ∃ r, main decimal (Content sample_input) Writable 8 = Some r.
Proof.
  eapply (main_terminates decimal (Content sample_input) Writable);
    [by vm_compute|compute_done|vm_compute; lia].
Defined.

(** * Text in, text out *)

(** ** Splitting what was joined *)

Lemma split_free sep a : sep ∉ a → split sep a = [a].
Proof.
  induction a as [|c a IH]; intros Hsep; [done|].
  apply not_elem_of_cons in Hsep as [Hc Ha].
  cbn [split]. rewrite (proj2 (N.eqb_neq c sep)) by done.
  by rewrite IH.
Qed.

Lemma split_app sep a b :
  sep ∉ a → split sep (a ++ sep :: b) = a :: split sep b.
Proof.
  induction a as [|c a IH]; intros Hsep.
  - cbn [app split]. by rewrite N.eqb_refl.
  - apply not_elem_of_cons in Hsep as [Hc Ha].
    cbn [app split]. rewrite (proj2 (N.eqb_neq c sep)) by done.
    by rewrite IH.
Qed.

Lemma join_cons sep p q rest :
  join sep (p :: q :: rest) = p ++ sep ++ join sep (q :: rest).
Proof. done. Qed.

Lemma split_join sep parts :
  parts ≠ [] → Forall (fun p => sep ∉ p) parts →
  split sep (join [sep] parts) = parts.
Proof.
  intros Hne Hparts. induction Hparts as [|p parts Hp Hparts IH]; [done|].
  destruct parts as [|q parts]; [by apply split_free|].
  rewrite join_cons. cbn [app]. rewrite split_app by done.
  by rewrite IH.
Qed.

Lemma remove_char_free c s : c ∉ s → remove_char c s = s.
Proof.
  induction s as [|x s IH]; intros Hc; [done|].
  apply not_elem_of_cons in Hc as [Hx Hs]. unfold remove_char in *.
  cbn [List.filter]. rewrite (proj2 (N.eqb_neq x c)) by done.
  cbn [negb]. by rewrite IH.
Qed.

Lemma remove_char_app c a b :
  remove_char c (a ++ b) = remove_char c a ++ remove_char c b.
Proof. apply List.filter_app. Qed.

Lemma remove_char_join tags :
  Forall (fun tag => 32%N ∉ tag) tags →
  remove_char 32 (join [44; 32]%N tags) = join [44%N] tags.
Proof.
  induction 1 as [|p parts Hp Hparts IH]; [done|].
  destruct parts as [|q parts]; [by apply remove_char_free|].
  rewrite !join_cons, !remove_char_app, IH.
  by rewrite remove_char_free.
Qed.

Lemma join_free (P : N → Prop) sep parts :
  Forall P sep → Forall (Forall P) parts → Forall P (join sep parts).
Proof.
  intros Hsep. induction 1 as [|p parts Hp Hparts IH]; [constructor|].
  destruct parts as [|q parts]; [done|].
  rewrite join_cons. apply Forall_app. split; [done|].
  apply Forall_app. by split.
Qed.

Lemma priority_order_join sep tags :
  sep = [44%N] ∨ sep = [44; 32]%N →
  tags ≠ [] → Forall plain tags →
  priority_order (lit "(" ++ join sep tags ++ lit ")") = tags.
Proof.
  intros Hsep Hne Htags. unfold priority_order, strip_chars.
  set (p := fun c : N => bool_decide (c ∈ [40; 41]%N)).
  rewrite (strip_by_padded p) by (by repeat constructor).
  assert (Forall (fun tag => Forall (fun c => p c = false) tag) tags) as Hparen.
  { eapply Forall_impl; [exact Htags|]. intros tag Htag.
    eapply Forall_impl; [exact Htag|]. intros c Hc. unfold p. simpl in *.
    apply bool_decide_eq_false. set_solver. }
  assert (Forall (fun tag => 32%N ∉ tag) tags) as Hspace.
  { eapply Forall_impl; [exact Htags|]. intros tag Htag Hin.
    apply (proj1 (Forall_forall _ _) Htag) in Hin. set_solver. }
  assert (Forall (fun tag => 44%N ∉ tag) tags) as Hcomma.
  { eapply Forall_impl; [exact Htags|]. intros tag Htag Hin.
    apply (proj1 (Forall_forall _ _) Htag) in Hin. set_solver. }
  rewrite strip_by_free.
  2:{ apply join_free; [|done]. destruct Hsep as [->| ->]; by repeat constructor. }
  destruct Hsep as [->| ->].
  - rewrite remove_char_free; [by apply split_join|].
    intros Hin.
    assert (Forall (fun c => c ≠ 32%N) (join [44%N] tags)) as Hfree.
    { apply join_free; [by repeat constructor|].
      eapply Forall_impl; [exact Hspace|]. intros tag Htag.
      apply Forall_forall. intros c Hc ->. done. }
    by apply (proj1 (Forall_forall _ _) Hfree) in Hin.
  - rewrite remove_char_join by done. by apply split_join.
Qed.

(** A priority string written as the listed tags, separated by "," or by
    ", " and enclosed in parentheses, is read back as exactly these tags,
    in order; so the compromise route is the route of the first of them
    that is among "Д", "В", "С" and has a route. *)
Theorem priority_string_is_read_back sep tags routes :
  sep = [44%N] ∨ sep = [44; 32]%N →
  tags ≠ [] → Forall plain tags →
  priority_order (lit "(" ++ join sep tags ++ lit ")") = tags ∧
  find_compromise_route routes (lit "(" ++ join sep tags ++ lit ")")
  = first_listed routes tags.
Proof.
  intros Hsep Hne Htags. unfold find_compromise_route.
  by rewrite priority_order_join.
Qed.

Lemma priority_string_is_read_back_witness :
  priority_order (lit "(" ++ join [44; 32]%N [utf8 "С"; lit "x"; utf8 "Д"]
                  ++ lit ")")
  = [utf8 "С"; lit "x"; utf8 "Д"] ∧
  find_compromise_route triangle_routes
    (lit "(" ++ join [44; 32]%N [utf8 "С"; lit "x"; utf8 "Д"] ++ lit ")")
  = first_listed triangle_routes [utf8 "С"; lit "x"; utf8 "Д"].
Proof.
  apply (priority_string_is_read_back [44; 32]%N
           [utf8 "С"; lit "x"; utf8 "Д"] triangle_routes);
    [by right|done|].
  repeat constructor; compute_done.
Defined.

(** ** The default priorities *)

(** For a request line without priorities, [parse_input] supplies
    "(Д,В,С)"; with it, and a RouteSet that has a route under "ДЛИНА",
    the compromise line repeats that route. *)
Theorem default_compromise_is_shortest G routes path params :
  routes !! DLINA = Some (path, params) → path ≠ [] →
  find_compromise_route routes default_priorities = (path, params) ∧
  compromise_line G routes default_priorities
  = result_line (utf8 "КОМПРОМИСС") (format_path path G) params.
Proof.
  intros Hr Hpath. unfold compromise_line, find_compromise_route.
  destruct utf8_criteria as (_ & _ & _ & ->).
  pose proof (first_listed_first routes [] [1044%N] [[1042%N]; [1057%N]]
                DLINA (path, params)) as Hfirst.
  cbn [app] in Hfirst. rewrite Hfirst; [|done|done|by intros ?? ?%elem_of_nil].
  split; [done|]. by destruct path.
Qed.

Lemma default_compromise_is_shortest_witness :
  find_compromise_route triangle_routes default_priorities
  = ([1; 2; 3], (20, 10, 4)) ∧
  compromise_line triangle triangle_routes default_priorities
  = result_line (utf8 "КОМПРОМИСС") (format_path [1; 2; 3] triangle)
                (20, 10, 4).
Proof.
  apply (default_compromise_is_shortest triangle triangle_routes);
    [by vm_compute|done].
Defined.

(** ** The output file *)

Lemma write_output_lines filename results :
  Forall (fun result => 10%N ∉ result) results →
  split 10 (write_output filename results).2 = results ++ [[]].
Proof.
  unfold write_output. cbn [snd].
  induction 1 as [|result results Hr _ IH]; [done|].
  cbn [fmap list_fmap concat app]. rewrite <- app_assoc. cbn [app].
  rewrite split_app by done. by rewrite IH.
Qed.

(** The file [write_output] leaves has the given name and, when no result
    holds a line break, exactly the results as its lines, in order, each
    ended by a line break. *)
Theorem write_output_writes_the_lines filename results :
  Forall (fun result => 10%N ∉ result) results →
  (write_output filename results).1 = filename ∧
  split 10 (write_output filename results).2 = results ++ [[]].
Proof. intros Hres. split; [done|]. by apply write_output_lines. Qed.

Lemma write_output_writes_the_lines_witness :
  (write_output (lit "output.txt") [utf8 "ДЛИНА: A -> B"; []]).1
  = lit "output.txt" ∧
  split 10 (write_output (lit "output.txt") [utf8 "ДЛИНА: A -> B"; []]).2
  = [utf8 "ДЛИНА: A -> B"; []] ++ [[]].
Proof.
  apply write_output_writes_the_lines. repeat constructor; compute_done.
Defined.
